(** * modstack: the lifecycle engine and its module guides

    A shallow embedding of [makeModState] and [makeLifecycle] and the
    properties of the configure / start / stop protocol.

    The program is asynchronous JavaScript.  Every [async] function is
    embedded as its synchronous prefix (the code up to the first [await]
    it reaches) and one resumption per [await]; a suspended activation is
    a value stored in the state.  The environment decides when a
    descriptor's promise settles and with what, and a suspended
    activation may resume at any moment after the promise it awaits has
    settled.  The order in which the JavaScript job queue runs ready
    continuations is one such schedule, so what holds for every schedule
    here holds for the program. *)

From stdpp Require Import base numbers list strings.

Open Scope string_scope.

(** ** JavaScript values *)

(** The values the engine inspects: it only ever tests them for
    [undefined], for nullishness ([??]) and for truthiness ([!x]).
    Numbers are the integer-valued ones. *)
Inductive JsVal :=
| VUndefined
| VNull
| VBool (b : bool)
| VNum (n : Z)
| VStr (s : string)
| VObj (ref : nat).

Definition truthy (v : JsVal) : bool :=
  match v with
  | VUndefined | VNull => false
  | VBool b => b
  | VNum n => negb (n =? 0)%Z
  | VStr s => negb (String.eqb s "")
  | VObj _ => true
  end.

Definition is_undefined (v : JsVal) : bool :=
  match v with VUndefined => true | _ => false end.

Definition nullish (v : JsVal) : bool :=
  match v with VUndefined | VNull => true | _ => false end.

(** [a ?? b] *)
Definition coalesce (a b : JsVal) : JsVal := if nullish a then b else a.

(** ** Types of the source *)

Definition EnvVars := string → option string.

Inductive ModState :=
| s_added
| s_configuring | s_configured | s_configuration_failed
| s_initializing | s_initialized | s_initialization_failed
| s_awaiting_finalization | s_finalizing | s_finalized | s_finalization_failed.

Inductive Phase :=
| p_loading
| p_configuring
| p_configuration_failed
| p_configured
| p_starting
| p_starting_failed
| p_ready
| p_stopping
| p_stopping_failed
| p_stopped.

Definition Phase_eqb (a b : Phase) : bool :=
  match a, b with
  | p_loading, p_loading | p_configuring, p_configuring
  | p_configuration_failed, p_configuration_failed
  | p_configured, p_configured | p_starting, p_starting
  | p_starting_failed, p_starting_failed | p_ready, p_ready
  | p_stopping, p_stopping | p_stopping_failed, p_stopping_failed
  | p_stopped, p_stopped => true
  | _, _ => false
  end.

Definition Phase_name (p : Phase) : string :=
  match p with
  | p_loading => "loading"
  | p_configuring => "configuring"
  | p_configuration_failed => "configuration_failed"
  | p_configured => "configured"
  | p_starting => "starting"
  | p_starting_failed => "starting_failed"
  | p_ready => "ready"
  | p_stopping => "stopping"
  | p_stopping_failed => "stopping_failed"
  | p_stopped => "stopped"
  end.

(** [class ModstackError] *)
Record ModstackError := { code : string; message : string }.

(** How a synchronous call completes. *)
Inductive Completion (A : Type) :=
| Normal (a : A)
| Throw (e : ModstackError).
Arguments Normal {A} a.
Arguments Throw {A} e.

(** The state of a promise. *)
Inductive Promise (A : Type) :=
| Pending
| Fulfilled (a : A)
| Rejected (e : ModstackError).
Arguments Pending {A}.
Arguments Fulfilled {A} a.
Arguments Rejected {A} e.

(** What [mod.configure(envVars)] does: returns [{ok:true, value}],
    returns [{ok:false, failure}], or throws [err] (kept as the string
    [`${err}`]). *)
Inductive CfgOutcome :=
| CfgOk (value : JsVal)
| CfgFail (failure : list string)
| CfgThrow (err : string).

Record ModOptions := { orderedFinalization : option bool }.

(** The synchronous part of a module descriptor.  [mod.initialize] and
    the [finalize] it returns are asynchronous: their outcomes come from
    the environment (see [Action]). *)
Record Mod := {
  mod_configure : option (EnvVars → CfgOutcome);
  mod_options : option ModOptions;
}.

Definition StatusObj := list (string * JsVal).
Definition StatusFn := unit → StatusObj.

(** The [finalize] member of an initialize result is only tested for
    presence and called. *)
Inductive FinalizeFn := FinalizeCallback.

(** How the promise of [mod.initialize(cfg, deps)] settles (a
    synchronous throw of [mod.initialize] is caught by the same [try]). *)
Inductive InitOutcome :=
| InitReturns (instance : JsVal) (fin : option FinalizeFn) (status : option StatusFn)
| InitThrows.

(** How the promise of the descriptor's [finalize()] settles:
    [FinResolves None] is [void]. *)
Inductive FinOutcome :=
| FinResolves (v : option bool)
| FinRejects.

(** The guide's result of [configure]. *)
Inductive CfgResult :=
| CfgResOk
| CfgResFail (failure : list string).

Definition cfg_ok (r : CfgResult) : bool :=
  match r with CfgResOk => true | CfgResFail _ => false end.

(** The activation of [guide.initialize()]: not called, suspended at
    [await mod.initialize], or its promise settled. *)
Inductive InitAct :=
| InitNotCalled
| InitAwaiting
| InitFulfilled (v : JsVal)
| InitRejected (e : ModstackError).

(** [finalizationPromise] once assigned: the inner async function is
    suspended at [await Promise.all(dependents...)], suspended at
    [await finalize()...], or has settled. *)
Inductive FinAct :=
| FinAwaitingDependents
| FinAwaitingCallback
| FinFulfilled (ok : bool)
| FinRejected (e : ModstackError).

(** The closure of [makeModState]: its parameters, its [let] variables,
    and the activation of its [initialize]. *)
Record ModGuide := {
  g_name : string;
  g_mod : Mod;
  g_depMap : list nat;            (* the guides named by depMap, by position *)
  g_cfg : JsVal;
  g_inst : JsVal;
  g_dependents : list nat;        (* the guides whose [finalized] was pushed *)
  g_finalize : option FinalizeFn;
  g_finalizationPromise : option FinAct;
  g_status : option StatusFn;
  g_state : ModState;
  g_initialize : InitAct;
}.

Inductive Level := Info | Error.

Inductive Fn := GuideConfigure | ModInitialize | ModFinalize.

(** What the run leaves behind: the logger's messages and the calls made
    to guides and descriptors. *)
Inductive Event :=
| Logged (lvl : Level) (msg : string)
| Called (f : Fn) (i : nat).

Record StartOptions := { autoStopOnError : option bool }.

Record StartResult := { started : bool; stopping : option bool }.

(** [makeResolvable]: the promise of a resolvable. *)
Inductive Resolvable := Unresolved | Resolved.

(** An element of [finalizationPromises]: the promise returned by a
    guide's [finalize()], or a [Promise.resolve(ok)]. *)
Inductive PromRef :=
| PGuide (i : nat)
| PResolve (ok : bool).

(** The activation of [start]. *)
Inductive StartAct :=
| StartIdle
| StartAwaiting (i : nat) (options : option StartOptions)
| StartReturned.

(** The activation of the async function inside [stop]. *)
Inductive StopAct :=
| StopIdle
| StopAwaitingInterrupt
| StopAwaitingBarrier (i : nat) (rest : list nat) (proms : list PromRef)
| StopAwaitingAll (proms : list PromRef)
| StopReturned
| StopRejected (e : ModstackError).

(** The closure of [makeLifecycle]. *)
Record Lifecycle := {
  modGuides : list ModGuide;
  phase : Phase;
  interruptStart : option Resolvable;
  stopped_ : option bool;              (* stopped.promise: resolved with {ok} *)
  startAct : StartAct;
  startPromise : Promise StartResult;
  stopAct : StopAct;
  trace : list Event;
}.

(** ** Assignments to the closure variables *)

Definition set_cfg (v : JsVal) (g : ModGuide) : ModGuide :=
  {| g_name := g_name g; g_mod := g_mod g; g_depMap := g_depMap g;
     g_cfg := v; g_inst := g_inst g; g_dependents := g_dependents g;
     g_finalize := g_finalize g;
     g_finalizationPromise := g_finalizationPromise g;
     g_status := g_status g; g_state := g_state g;
     g_initialize := g_initialize g |}.

Definition set_result (v : JsVal) (f : option FinalizeFn) (s : option StatusFn)
    (g : ModGuide) : ModGuide :=
  {| g_name := g_name g; g_mod := g_mod g; g_depMap := g_depMap g;
     g_cfg := g_cfg g; g_inst := v; g_dependents := g_dependents g;
     g_finalize := f;
     g_finalizationPromise := g_finalizationPromise g;
     g_status := s; g_state := g_state g;
     g_initialize := g_initialize g |}.

Definition push_dependent (d : nat) (g : ModGuide) : ModGuide :=
  {| g_name := g_name g; g_mod := g_mod g; g_depMap := g_depMap g;
     g_cfg := g_cfg g; g_inst := g_inst g;
     g_dependents := g_dependents g ++ [d];
     g_finalize := g_finalize g;
     g_finalizationPromise := g_finalizationPromise g;
     g_status := g_status g; g_state := g_state g;
     g_initialize := g_initialize g |}.

Definition set_finalizationPromise (p : FinAct) (g : ModGuide) : ModGuide :=
  {| g_name := g_name g; g_mod := g_mod g; g_depMap := g_depMap g;
     g_cfg := g_cfg g; g_inst := g_inst g; g_dependents := g_dependents g;
     g_finalize := g_finalize g;
     g_finalizationPromise := Some p;
     g_status := g_status g; g_state := g_state g;
     g_initialize := g_initialize g |}.

Definition set_state (s : ModState) (g : ModGuide) : ModGuide :=
  {| g_name := g_name g; g_mod := g_mod g; g_depMap := g_depMap g;
     g_cfg := g_cfg g; g_inst := g_inst g; g_dependents := g_dependents g;
     g_finalize := g_finalize g;
     g_finalizationPromise := g_finalizationPromise g;
     g_status := g_status g; g_state := s;
     g_initialize := g_initialize g |}.

Definition set_initialize (a : InitAct) (g : ModGuide) : ModGuide :=
  {| g_name := g_name g; g_mod := g_mod g; g_depMap := g_depMap g;
     g_cfg := g_cfg g; g_inst := g_inst g; g_dependents := g_dependents g;
     g_finalize := g_finalize g;
     g_finalizationPromise := g_finalizationPromise g;
     g_status := g_status g; g_state := g_state g;
     g_initialize := a |}.

Definition set_modGuides (gs : list ModGuide) (lc : Lifecycle) : Lifecycle :=
  {| modGuides := gs; phase := phase lc; interruptStart := interruptStart lc;
     stopped_ := stopped_ lc; startAct := startAct lc;
     startPromise := startPromise lc; stopAct := stopAct lc;
     trace := trace lc |}.

Definition set_phase (p : Phase) (lc : Lifecycle) : Lifecycle :=
  {| modGuides := modGuides lc; phase := p; interruptStart := interruptStart lc;
     stopped_ := stopped_ lc; startAct := startAct lc;
     startPromise := startPromise lc; stopAct := stopAct lc;
     trace := trace lc |}.

Definition set_interruptStart (r : option Resolvable) (lc : Lifecycle) : Lifecycle :=
  {| modGuides := modGuides lc; phase := phase lc; interruptStart := r;
     stopped_ := stopped_ lc; startAct := startAct lc;
     startPromise := startPromise lc; stopAct := stopAct lc;
     trace := trace lc |}.

Definition set_stopped (r : option bool) (lc : Lifecycle) : Lifecycle :=
  {| modGuides := modGuides lc; phase := phase lc;
     interruptStart := interruptStart lc;
     stopped_ := r; startAct := startAct lc;
     startPromise := startPromise lc; stopAct := stopAct lc;
     trace := trace lc |}.

Definition set_start (a : StartAct) (p : Promise StartResult) (lc : Lifecycle)
    : Lifecycle :=
  {| modGuides := modGuides lc; phase := phase lc;
     interruptStart := interruptStart lc;
     stopped_ := stopped_ lc; startAct := a;
     startPromise := p; stopAct := stopAct lc;
     trace := trace lc |}.

Definition set_stopAct (a : StopAct) (lc : Lifecycle) : Lifecycle :=
  {| modGuides := modGuides lc; phase := phase lc;
     interruptStart := interruptStart lc;
     stopped_ := stopped_ lc; startAct := startAct lc;
     startPromise := startPromise lc; stopAct := a;
     trace := trace lc |}.

Definition emit (e : Event) (lc : Lifecycle) : Lifecycle :=
  {| modGuides := modGuides lc; phase := phase lc;
     interruptStart := interruptStart lc;
     stopped_ := stopped_ lc; startAct := startAct lc;
     startPromise := startPromise lc; stopAct := stopAct lc;
     trace := trace lc ++ [e] |}.

(** An assignment inside the closure of guide [i]. *)
Definition on_guide (i : nat) (f : ModGuide → ModGuide) (lc : Lifecycle) : Lifecycle :=
  set_modGuides (alter f i (modGuides lc)) lc.

Definition logger_info (msg : string) : Lifecycle → Lifecycle := emit (Logged Info msg).
Definition logger_error (msg : string) : Lifecycle → Lifecycle := emit (Logged Error msg).

(** ** The module guide: [makeModState] *)

Definition makeModState (name : string) (m : Mod) (depMap : list nat) : ModGuide :=
  {| g_name := name; g_mod := m; g_depMap := depMap;
     g_cfg := VUndefined; g_inst := VUndefined; g_dependents := [];
     g_finalize := None; g_finalizationPromise := None;
     g_status := None; g_state := s_added;
     g_initialize := InitNotCalled |}.

(** [obj[key]] on an object given by its own properties: [None] is
    [undefined]. *)
Definition property {A} (key : string) (obj : list (string * A)) : option A :=
  snd <$> find (λ kv, String.eqb kv.1 key) obj.

Definition truthy_flag (o : option bool) : bool :=
  match o with Some b => b | None => false end.

Module Guide.

Definition getName (g : ModGuide) : string := g_name g.

(** [mod.options ?? {}] *)
Definition getOptions (g : ModGuide) : ModOptions :=
  match mod_options (g_mod g) with
  | Some o => o
  | None => {| orderedFinalization := None |}
  end.

(** [finalized()]: throws while [finalizationPromise] is unset,
    otherwise returns [finalizationPromise.then(() => {})], which
    settles as [finalizationPromise] does. *)
Definition finalized (g : ModGuide) : Completion (Promise unit) :=
  match g_finalizationPromise g with
  | None =>
      Throw {| code := "not_finalizing";
               message := "Cannot wait for finalization when not finalizing." |}
  | Some (FinFulfilled _) => Normal (Fulfilled ())
  | Some (FinRejected e) => Normal (Rejected e)
  | Some _ => Normal Pending
  end.

Definition configure (i : nat) (envVars : EnvVars) (lc : Lifecycle)
    : CfgResult * Lifecycle :=
  let lc := emit (Called GuideConfigure i) lc in
  match modGuides lc !! i with
  | None => (CfgResOk, lc)
  | Some g =>
      match mod_configure (g_mod g) with
      | None =>
          let lc := on_guide i (set_cfg VNull) lc in
          (CfgResOk, on_guide i (set_state s_configured) lc)
      | Some f =>
          let lc := on_guide i (set_state s_configuring) lc in
          match f envVars with
          | CfgOk value =>
              let lc := on_guide i (set_cfg value) lc in
              (CfgResOk, on_guide i (set_state s_configured) lc)
          | CfgFail failure =>
              (CfgResFail failure, on_guide i (set_state s_configuration_failed) lc)
          | CfgThrow err =>
              (CfgResFail [err], on_guide i (set_state s_configuration_failed) lc)
          end
      end
  end.

Definition getInstance (i : nat) (dependent : nat) (lc : Lifecycle)
    : Completion JsVal * Lifecycle :=
  match modGuides lc !! i with
  | None => (Normal VUndefined, lc)
  | Some g =>
      if is_undefined (g_inst g) then
        (Throw {| code := "uninitialized_instance";
                  message := "Uninitialized instance cannot be retrieved." |}, lc)
      else
        (Normal (g_inst g), on_guide i (push_dependent dependent) lc)
  end.

(** [Object.keys(depMap).map((key) => depMap[key].getInstance({ finalized }))] *)
Fixpoint selectDeps (deps : list nat) (dependent : nat) (lc : Lifecycle)
    : Completion (list JsVal) * Lifecycle :=
  match deps with
  | [] => (Normal [], lc)
  | d :: deps' =>
      match getInstance d dependent lc with
      | (Throw e, lc) => (Throw e, lc)
      | (Normal v, lc) =>
          match selectDeps deps' dependent lc with
          | (Throw e, lc) => (Throw e, lc)
          | (Normal vs, lc) => (Normal (v :: vs), lc)
          end
      end
  end.

(** [initialize()] up to its [await]: either it is suspended at
    [await mod.initialize(cfg, selectedDeps)], or it has returned
    [inst ?? null] (no config), or a [getInstance] threw. *)
Definition initialize (i : nat) (lc : Lifecycle) : Lifecycle :=
  match modGuides lc !! i with
  | None => lc
  | Some g =>
      if negb (is_undefined (g_cfg g)) then
        let lc := on_guide i (set_state s_initializing) lc in
        let lc := logger_info ("[" +:+ g_name g +:+ "] Initializing module.") lc in
        match selectDeps (g_depMap g) i lc with
        | (Throw e, lc) => on_guide i (set_initialize (InitRejected e)) lc
        | (Normal _, lc) =>
            let lc := emit (Called ModInitialize i) lc in
            on_guide i (set_initialize InitAwaiting) lc
        end
      else
        on_guide i (set_initialize (InitFulfilled (coalesce (g_inst g) VNull))) lc
  end.

(** The rest of [initialize()], once the promise of [mod.initialize]
    has settled with [o]. *)
Definition initialize_resume (i : nat) (o : InitOutcome) (lc : Lifecycle)
    : Lifecycle :=
  match modGuides lc !! i with
  | None => lc
  | Some g =>
      let lc :=
        match o with
        | InitReturns instance fin status =>
            let lc := on_guide i (set_result instance fin status) lc in
            let lc := on_guide i (set_state s_initialized) lc in
            logger_info ("[" +:+ g_name g +:+ "] Initialization successful.") lc
        | InitThrows =>
            let lc := on_guide i (set_state s_initialization_failed) lc in
            logger_error ("[" +:+ g_name g +:+ "] Initialization failed.") lc
        end in
      match modGuides lc !! i with
      | None => lc
      | Some g' =>
          on_guide i (set_initialize (InitFulfilled (coalesce (g_inst g') VNull))) lc
      end
  end.

(** The end of the inner function of [finalize]: the state, the log
    line and the [return finalizationResult]. *)
Definition finalize_finish (i : nat) (finalizationResult : bool) (lc : Lifecycle)
    : Lifecycle :=
  match modGuides lc !! i with
  | None => lc
  | Some g =>
      let lc := on_guide i
        (set_state (if finalizationResult then s_finalized else s_finalization_failed)) lc in
      let lc := logger_info
        ("[" +:+ g_name g +:+ "] Finalization finished" +:+
         (if finalizationResult then "" else " with errors") +:+ ".") lc in
      on_guide i (set_finalizationPromise (FinFulfilled finalizationResult)) lc
  end.

(** From [state = 'finalizing'] on: calls the descriptor's [finalize]
    and suspends at its [await], or finishes with [true] when there is
    none. *)
Definition finalize_proceed (i : nat) (lc : Lifecycle) : Lifecycle :=
  match modGuides lc !! i with
  | None => lc
  | Some g =>
      let lc := on_guide i (set_state s_finalizing) lc in
      let lc := logger_info ("[" +:+ g_name g +:+ "] Finalizing module.") lc in
      match g_finalize g with
      | Some _ =>
          let lc := emit (Called ModFinalize i) lc in
          on_guide i (set_finalizationPromise FinAwaitingCallback) lc
      | None => finalize_finish i true lc
      end
  end.

(** [dependents.map((dep) => dep.finalized())]: the first throw, if any. *)
Fixpoint dependents_finalized (deps : list nat) (lc : Lifecycle)
    : Completion unit :=
  match deps with
  | [] => Normal ()
  | d :: deps' =>
      match modGuides lc !! d with
      | None => dependents_finalized deps' lc
      | Some gd =>
          match finalized gd with
          | Throw e => Throw e
          | Normal _ => dependents_finalized deps' lc
          end
      end
  end.

(** [finalize()]: memoised in [finalizationPromise]; the first call
    runs the inner async function up to its first [await]. *)
Definition finalize (i : nat) (lc : Lifecycle) : Lifecycle :=
  match modGuides lc !! i with
  | None => lc
  | Some g =>
      match g_finalizationPromise g with
      | Some _ => lc
      | None =>
          if negb (truthy (g_inst g)) then
            on_guide i (set_finalizationPromise (FinFulfilled true)) lc
          else
            match g_dependents g with
            | _ :: _ =>
                let lc := on_guide i (set_state s_awaiting_finalization) lc in
                let lc := logger_info
                  ("[" +:+ g_name g +:+
                   "] Waiting for dependent modules to finish finalization.") lc in
                match dependents_finalized (g_dependents g) lc with
                | Throw e => on_guide i (set_finalizationPromise (FinRejected e)) lc
                | Normal _ =>
                    on_guide i (set_finalizationPromise FinAwaitingDependents) lc
                end
            | [] => finalize_proceed i lc
            end
      end
  end.

(** The state of the promise [Promise.all(dependents.map(...))]. *)
Fixpoint all_finalized (deps : list nat) (lc : Lifecycle) : Promise unit :=
  match deps with
  | [] => Fulfilled ()
  | d :: deps' =>
      match g_finalizationPromise <$> modGuides lc !! d with
      | Some (Some (FinRejected e)) => Rejected e
      | Some (Some (FinFulfilled _)) => all_finalized deps' lc
      | _ =>
          match all_finalized deps' lc with
          | Rejected e => Rejected e
          | _ => Pending
          end
      end
  end.

(** Resumption after [await Promise.all(...)]. *)
Definition finalize_resume_dependents (i : nat) (lc : Lifecycle)
    : option Lifecycle :=
  match modGuides lc !! i with
  | None => None
  | Some g =>
      match g_finalizationPromise g with
      | Some FinAwaitingDependents =>
          match all_finalized (g_dependents g) lc with
          | Pending => None
          | Fulfilled _ => Some (finalize_proceed i lc)
          | Rejected e =>
              Some (on_guide i (set_finalizationPromise (FinRejected e)) lc)
          end
      | _ => None
      end
  end.

(** [await finalize().catch(() => false) ?? true] *)
Definition finalizationResult (o : FinOutcome) : bool :=
  match o with
  | FinRejects => false
  | FinResolves None => true
  | FinResolves (Some b) => b
  end.

(** Resumption after [await finalize()...]. *)
Definition finalize_resume_callback (i : nat) (o : FinOutcome) (lc : Lifecycle)
    : option Lifecycle :=
  match modGuides lc !! i with
  | None => None
  | Some g =>
      match g_finalizationPromise g with
      | Some FinAwaitingCallback => Some (finalize_finish i (finalizationResult o) lc)
      | _ => None
      end
  end.

Record Status := { st_state : ModState; st_status : StatusObj }.

(** [status()]: [{ state, status: status?.() ?? {} }]; a [StatusFn]
    returns a record, never a nullish value. *)
Definition status (g : ModGuide) : Status :=
  {| st_state := g_state g;
     st_status := match g_status g with Some f => f () | None => [] end |}.

End Guide.

(** ** The lifecycle engine: [makeLifecycle] *)

Definition makeLifecycle (guides : list ModGuide) : Lifecycle :=
  {| modGuides := guides; phase := p_loading; interruptStart := None;
     stopped_ := None; startAct := StartIdle; startPromise := Pending;
     stopAct := StopIdle; trace := [] |}.

(** The result of the engine's [configure]: [{ok:true}] or
    [{ok:false, failure}]. *)
Definition prefixed (name : string) (f : string) : string :=
  "[" +:+ name +:+ "] " +:+ f.

Module Engine.

Definition changePhase (newPhase : Phase) (allowedCurrentPhases : option (list Phase))
    (lc : Lifecycle) : Completion unit * Lifecycle :=
  let change :=
    (Normal (),
     logger_info ("Lifecycle phase changed to '" +:+ Phase_name newPhase +:+ "'.")
       (set_phase newPhase lc)) in
  match allowedCurrentPhases with
  | Some allowed =>
      if negb (existsb (Phase_eqb (phase lc)) allowed) then
        let errorMsg :=
          "Cannot change lifecycle phase to '" +:+ Phase_name newPhase +:+
          "' from current phase '" +:+ Phase_name (phase lc) +:+ "'." in
        (Throw {| code := "phase.incorrect"; message := errorMsg |},
         logger_error errorMsg lc)
      else change
  | None => change
  end.

(** [modGuide.getOptions().orderedFinalization], as a condition. *)
Definition ordered (i : nat) (lc : Lifecycle) : bool :=
  match modGuides lc !! i with
  | Some g => truthy_flag (orderedFinalization (Guide.getOptions g))
  | None => false
  end.

(** The [for] loop of [stop] from the guides [todo] on, up to its next
    [await]: the one in front of an [orderedFinalization] guide, or the
    one after the loop. *)
Fixpoint finalize_loop (todo : list nat) (finalizationPromises : list PromRef)
    (lc : Lifecycle) : Lifecycle :=
  match todo with
  | [] => set_stopAct (StopAwaitingAll finalizationPromises) lc
  | i :: rest =>
      if ordered i lc then
        set_stopAct (StopAwaitingBarrier i rest finalizationPromises) lc
      else
        finalize_loop rest (finalizationPromises ++ [PGuide i]) (Guide.finalize i lc)
  end.

(** [[...modGuides].reverse()], by position. *)
Definition reversedModGuides (lc : Lifecycle) : list nat :=
  rev (seq 0 (length (modGuides lc))).

Definition finalize_all (lc : Lifecycle) : Lifecycle :=
  let lc := logger_info "Finalization of all modules." lc in
  finalize_loop (reversedModGuides lc) [] lc.

Definition stop (lc : Lifecycle) : Completion unit * Lifecycle :=
  if negb (Phase_eqb (phase lc) p_stopping) && negb (Phase_eqb (phase lc) p_stopped) then
    let lc :=
      if Phase_eqb (phase lc) p_starting
      then set_interruptStart (Some Unresolved) lc else lc in
    match changePhase p_stopping (Some [p_ready; p_starting_failed; p_starting]) lc with
    | (Throw e, lc) => (Throw e, lc)
    | (Normal _, lc) =>
        match interruptStart lc with
        | Some _ =>
            let lc := logger_info
              "Waiting before stopping until starting is interrupted." lc in
            (Normal (), set_stopAct StopAwaitingInterrupt lc)
        | None => (Normal (), finalize_all lc)
        end
    end
  else (Normal (), lc).

(** The state of the promise of one element of [finalizationPromises]. *)
Definition prom_state (lc : Lifecycle) (p : PromRef) : Promise bool :=
  match p with
  | PResolve ok => Fulfilled ok
  | PGuide i =>
      match g_finalizationPromise <$> modGuides lc !! i with
      | Some (Some (FinFulfilled ok)) => Fulfilled ok
      | Some (Some (FinRejected e)) => Rejected e
      | _ => Pending
      end
  end.

(** The state of [Promise.all(finalizationPromises)]. *)
Fixpoint promise_all (ps : list PromRef) (lc : Lifecycle) : Promise (list bool) :=
  match ps with
  | [] => Fulfilled []
  | p :: ps' =>
      match prom_state lc p, promise_all ps' lc with
      | Rejected e, _ => Rejected e
      | _, Rejected e => Rejected e
      | Fulfilled ok, Fulfilled oks => Fulfilled (ok :: oks)
      | _, _ => Pending
      end
  end.

(** [.every((ok) => ok)] *)
Definition every_ok (oks : list bool) : bool := forallb id oks.

(** [stopped.resolve({ ok })]: a promise resolves once. *)
Definition resolve_stopped (ok : bool) (lc : Lifecycle) : Lifecycle :=
  match stopped_ lc with
  | None => set_stopped (Some ok) lc
  | Some _ => lc
  end.

(** Resumption of the async function of [stop] at the [await] it is
    suspended at. *)
Definition stop_resume (lc : Lifecycle) : option Lifecycle :=
  match stopAct lc with
  | StopAwaitingInterrupt =>
      match interruptStart lc with
      | Some Resolved => Some (finalize_all lc)
      | _ => None
      end
  | StopAwaitingBarrier i rest finalizationPromises =>
      match promise_all finalizationPromises lc with
      | Pending => None
      | Rejected e => Some (set_stopAct (StopRejected e) lc)
      | Fulfilled oks =>
          let finalizationOk := every_ok oks in
          let finalizationPromises := [PResolve finalizationOk] in
          Some (finalize_loop rest (finalizationPromises ++ [PGuide i])
                  (Guide.finalize i lc))
      end
  | StopAwaitingAll finalizationPromises =>
      match promise_all finalizationPromises lc with
      | Pending => None
      | Rejected e => Some (set_stopAct (StopRejected e) lc)
      | Fulfilled oks =>
          let finalizationOk := every_ok oks in
          let lc := snd (changePhase
                           (if finalizationOk then p_stopped else p_stopping_failed)
                           None lc) in
          Some (set_stopAct StopReturned (resolve_stopped finalizationOk lc))
      end
  | _ => None
  end.

(** [modGuides.map((modGuide) => [modGuide.getName(), modGuide.configure(envVars)])] *)
Fixpoint configure_guides (idxs : list nat) (envVars : EnvVars) (lc : Lifecycle)
    : list (string * CfgResult) * Lifecycle :=
  match idxs with
  | [] => ([], lc)
  | i :: idxs' =>
      let name := match modGuides lc !! i with
                  | Some g => Guide.getName g | None => "" end in
      let '(r, lc) := Guide.configure i envVars lc in
      let '(rs, lc) := configure_guides idxs' envVars lc in
      ((name, r) :: rs, lc)
  end.

Definition failures_of (r : string * CfgResult) : list string :=
  match r.2 with
  | CfgResOk => []
  | CfgResFail failure => map (prefixed r.1) failure
  end.

Definition configure (envVars : EnvVars) (lc : Lifecycle)
    : Completion CfgResult * Lifecycle :=
  match changePhase p_configuring (Some [p_loading]) lc with
  | (Throw e, lc) => (Throw e, lc)
  | (Normal _, lc) =>
      let '(configResults, lc) :=
        configure_guides (seq 0 (length (modGuides lc))) envVars lc in
      let result :=
        if forallb (λ r, cfg_ok r.2) configResults
        then CfgResOk
        else CfgResFail (concat (map failures_of configResults)) in
      let lc := snd (changePhase
                       (if cfg_ok result then p_configured else p_configuration_failed)
                       None lc) in
      (Normal result, lc)
  end.

(** The head of the [for] loop of [start] at guide [i]: calls its
    [initialize()] and suspends at the [await], or leaves the loop. *)
Definition start_loop (i : nat) (options : option StartOptions) (lc : Lifecycle)
    : Lifecycle :=
  if (i <? length (modGuides lc))%nat then
    set_start (StartAwaiting i options) Pending (Guide.initialize i lc)
  else
    let lc := snd (changePhase p_ready None lc) in
    set_start StartReturned (Fulfilled {| started := true; stopping := None |}) lc.

(** [start(options)]: an async function, so a throw of its body is a
    rejected promise. *)
Definition start (options : option StartOptions) (lc : Lifecycle)
    : Completion (Promise StartResult) * Lifecycle :=
  match changePhase p_starting (Some [p_configured]) lc with
  | (Throw e, lc) => (Normal (Rejected e), lc)
  | (Normal _, lc) =>
      let lc := logger_info "Starting initialization of all modules." lc in
      let lc := start_loop 0 options lc in
      (Normal (startPromise lc), lc)
  end.

(** [options?.autoStopOnError], as a condition. *)
Definition wants_autoStop (options : option StartOptions) : bool :=
  match options with
  | Some o => truthy_flag (autoStopOnError o)
  | None => false
  end.

(** Resumption of [start] after [await modGuide.initialize()]. *)
Definition start_resume (lc : Lifecycle) : option Lifecycle :=
  match startAct lc with
  | StartAwaiting i options =>
      match g_initialize <$> modGuides lc !! i with
      | Some (InitFulfilled inst) =>
          match interruptStart lc with
          | Some _ =>
              let lc := set_interruptStart (Some Resolved) lc in
              Some (set_start StartReturned
                      (Fulfilled {| started := false; stopping := Some true |}) lc)
          | None =>
              if negb (truthy inst) then
                let lc := snd (changePhase p_starting_failed None lc) in
                if wants_autoStop options then
                  match stop lc with
                  | (Throw e, lc) => Some (set_start StartReturned (Rejected e) lc)
                  | (Normal _, lc) =>
                      Some (set_start StartReturned
                              (Fulfilled {| started := false; stopping := Some true |}) lc)
                  end
                else
                  Some (set_start StartReturned
                          (Fulfilled {| started := false; stopping := Some false |}) lc)
              else Some (start_loop (S i) options lc)
          end
      | Some (InitRejected e) => Some (set_start StartReturned (Rejected e) lc)
      | _ => None
      end
  | _ => None
  end.


(** The values of the properties of the object [status()] returns. *)
Inductive StatusValue :=
| SPhase (p : Phase)
| SModules (entries : list (string * Guide.Status)).

(** [status()]: the object literal, property by property;
    [Object.fromEntries] of the [name, status] pairs is kept as the
    list of entries. *)
Definition status (lc : Lifecycle) : list (string * StatusValue) :=
  [("phase", SPhase (phase lc));
   ("modules",
    SModules (map (λ g, (Guide.getName g, Guide.status g)) (modGuides lc)))].

End Engine.

(** ** Runs *)

(** What can happen next: a call of the engine's interface, the promise
    of a descriptor's [initialize] or [finalize] settling (with the rest
    of the guide's function that awaits it), or a suspended activation
    resuming. *)
Inductive Action :=
| CallConfigure (envVars : EnvVars)
| CallStart (options : option StartOptions)
| CallStop
| SettleInitialize (i : nat) (o : InitOutcome)
| SettleFinalize (i : nat) (o : FinOutcome)
| ResumeFinalize (i : nat)
| ResumeStart
| ResumeStop.

Definition exec (a : Action) (lc : Lifecycle) : option Lifecycle :=
  match a with
  | CallConfigure envVars => Some (Engine.configure envVars lc).2
  | CallStart options => Some (Engine.start options lc).2
  | CallStop => Some (Engine.stop lc).2
  | SettleInitialize i o =>
      match g_initialize <$> modGuides lc !! i with
      | Some InitAwaiting => Some (Guide.initialize_resume i o lc)
      | _ => None
      end
  | SettleFinalize i o => Guide.finalize_resume_callback i o lc
  | ResumeFinalize i => Guide.finalize_resume_dependents i lc
  | ResumeStart => Engine.start_resume lc
  | ResumeStop => Engine.stop_resume lc
  end.

Fixpoint run (acts : list Action) (lc : Lifecycle) : option Lifecycle :=
  match acts with
  | [] => Some lc
  | a :: acts' =>
      match exec a lc with
      | Some lc' => run acts' lc'
      | None => None
      end
  end.

(** A registration: [add(name, mod, depKeys)], the dependencies by
    position in the stack. *)
Record Registration := {
  r_name : string;
  r_mod : Mod;
  r_deps : list nat;
}.

Definition guides_of (rs : list Registration) : list ModGuide :=
  map (λ r, makeModState (r_name r) (r_mod r) (r_deps r)) rs.

(** [add] resolves dependency names against the guides registered so
    far: a guide depends on earlier guides only. *)
Definition well_formed (rs : list Registration) : Prop :=
  ∀ i r, rs !! i = Some r → Forall (λ d, d < i) (r_deps r).

Definition reachable (rs : list Registration) (lc : Lifecycle) : Prop :=
  ∃ acts, run acts (makeLifecycle (guides_of rs)) = Some lc.

(** ** The phase error *)

(** The error [changePhase] throws when [newPhase] is refused. *)
Definition phase_error (newPhase : Phase) (lc : Lifecycle) : ModstackError :=
  {| code := "phase.incorrect";
     message := "Cannot change lifecycle phase to '" +:+ Phase_name newPhase +:+
                "' from current phase '" +:+ Phase_name (phase lc) +:+ "'." |}.

(** ** A stack of three modules *)

Module Sample.

Definition plainMod : Mod :=
  {| mod_configure := Some (λ _, CfgOk VNull); mod_options := None |}.

(** A module without [configure] and with [orderedFinalization]. *)
Definition orderedMod : Mod :=
  {| mod_configure := None;
     mod_options := Some {| orderedFinalization := Some true |} |}.

(** [b] depends on [a]. *)
Definition stack : list Registration :=
  [ {| r_name := "first"; r_mod := orderedMod; r_deps := [] |};
    {| r_name := "a"; r_mod := plainMod; r_deps := [] |};
    {| r_name := "b"; r_mod := plainMod; r_deps := [1] |} ].

Definition noEnv : EnvVars := λ _, None.

Definition instance : InitOutcome := InitReturns (VObj 0) (Some FinalizeCallback) None.

(** The closure after the actions [acts] on the fresh engine. *)
Definition after (acts : list Action) : Lifecycle :=
  default (makeLifecycle (guides_of stack))
          (run acts (makeLifecycle (guides_of stack))).

(** The guide at position [i]. *)
Definition guide (i : nat) (lc : Lifecycle) : ModGuide :=
  default (makeModState "" plainMod []) (modGuides lc !! i).

Definition fresh : Lifecycle := after [].

Definition configured : Lifecycle := after [CallConfigure noEnv].

(** [start()] awaits the [initialize()] of the first guide. *)
Definition starting : Lifecycle := after [CallConfigure noEnv; CallStart None].

(** That [initialize()] has resolved, [start] has not resumed yet. *)
Definition first_settled : Lifecycle :=
  after [CallConfigure noEnv; CallStart None; SettleInitialize 0 instance].


(** [stop()] was called while the first guide initialized, and its
    [mod.initialize] threw. *)
Definition interrupted_failure : Lifecycle :=
  after [CallConfigure noEnv; CallStart None; CallStop;
         SettleInitialize 0 InitThrows].

(** The [mod.initialize] of the first guide threw. *)
Definition first_failed : Lifecycle :=
  after [CallConfigure noEnv; CallStart None; SettleInitialize 0 InitThrows].

(** All guides are initialized and [stop()] was called: the finalize
    pass has called the [finalize()] of [b] and of [a], and waits at
    the first guide, whose finalization is ordered. *)
Definition stopping : Lifecycle :=
  after [CallConfigure noEnv; CallStart None; SettleInitialize 0 instance;
         ResumeStart; SettleInitialize 1 instance; ResumeStart;
         SettleInitialize 2 instance; ResumeStart; CallStop].

(** All guides are initialized and [start] has returned: the phase is
    [ready]. *)
Definition ready : Lifecycle :=
  after [CallConfigure noEnv; CallStart None; SettleInitialize 0 instance;
         ResumeStart; SettleInitialize 1 instance; ResumeStart;
         SettleInitialize 2 instance; ResumeStart].

(** The first guide got the instance [0]. *)
Definition zero_instance : Lifecycle :=
  after [CallConfigure noEnv; CallStart None;
         SettleInitialize 0 (InitReturns (VNum 0) None None)].

(** The same, [stop()] having been called before the instance came. *)
Definition zero_interrupted : Lifecycle :=
  after [CallConfigure noEnv; CallStart None; CallStop;
         SettleInitialize 0 (InitReturns (VNum 0) None None)].

End Sample.

Close Scope string_scope.

(** ** Observations on runs *)

Definition is_call (f : Fn) (i : nat) (e : Event) : bool :=
  match e, f with
  | Called GuideConfigure j, GuideConfigure
  | Called ModInitialize j, ModInitialize
  | Called ModFinalize j, ModFinalize => (i =? j)%nat
  | _, _ => false
  end.

(** How many times [f] of guide [i] was called in a trace. *)
Definition calls_in (f : Fn) (i : nat) (t : list Event) : nat :=
  length (filter (λ e, is_call f i e = true) t).

Definition calls (f : Fn) (i : nat) (lc : Lifecycle) : nat :=
  calls_in f i (trace lc).

Definition fin_settled (g : ModGuide) : Prop :=
  ∃ ok, g_finalizationPromise g = Some (FinFulfilled ok).

Definition fin_succeeded (g : ModGuide) : Prop :=
  g_finalizationPromise g = Some (FinFulfilled true).

Definition fin_issued (g : ModGuide) : Prop :=
  g_finalizationPromise g ≠ None.

Definition init_called (g : ModGuide) : Prop :=
  g_initialize g ≠ InitNotCalled.

(** The states of the finalize protocol. *)
Definition in_finalization (s : ModState) : bool :=
  match s with
  | s_awaiting_finalization | s_finalizing | s_finalized | s_finalization_failed => true
  | _ => false
  end.


Definition is_ordered (g : ModGuide) : bool :=
  truthy_flag (orderedFinalization (Guide.getOptions g)).

Definition interrupted : StartResult := {| started := false; stopping := Some true |}.

(** The closure after the [let] variables of guide [i] were assigned to
    give [g], and [evs] was logged. *)
Definition put (i : nat) (g : ModGuide) (evs : list Event) (lc : Lifecycle) : Lifecycle :=
  {| modGuides := <[i := g]> (modGuides lc); phase := phase lc;
     interruptStart := interruptStart lc; stopped_ := stopped_ lc;
     startAct := startAct lc; startPromise := startPromise lc;
     stopAct := stopAct lc; trace := trace lc ++ evs |}.

(** The closure with the guides replaced by [gs] and [evs] logged. *)
Definition upd (gs : list ModGuide) (evs : list Event) (lc : Lifecycle) : Lifecycle :=
  {| modGuides := gs; phase := phase lc;
     interruptStart := interruptStart lc; stopped_ := stopped_ lc;
     startAct := startAct lc; startPromise := startPromise lc;
     stopAct := stopAct lc; trace := trace lc ++ evs |}.

Definition with_dependents (l : list nat) (g : ModGuide) : ModGuide :=
  {| g_name := g_name g; g_mod := g_mod g; g_depMap := g_depMap g;
     g_cfg := g_cfg g; g_inst := g_inst g;
     g_dependents := l;
     g_finalize := g_finalize g;
     g_finalizationPromise := g_finalizationPromise g;
     g_status := g_status g; g_state := g_state g;
     g_initialize := g_initialize g |}.

(** ** The invariant of the engine *)

Section Invariant.
Variable rs : list Registration.

Record guide_ok (lc : Lifecycle) (i : nat) (g : ModGuide) : Prop := {
  gk_static :
    rs !! i = Some {| r_name := g_name g; r_mod := g_mod g; r_deps := g_depMap g |};
  gk_dependents : ∀ d, d ∈ g_dependents g →
    i < d ∧ ∃ gd, modGuides lc !! d = Some gd ∧ init_called gd;
  gk_earlier : init_called g → ∀ j, j < i →
    ∃ gj v, modGuides lc !! j = Some gj ∧
            g_initialize gj = InitFulfilled v ∧ truthy v = true;
  gk_init :
    match g_initialize g with
    | InitNotCalled | InitAwaiting => g_inst g = VUndefined ∧ g_finalize g = None
    | InitFulfilled v => v = coalesce (g_inst g) VNull
    | InitRejected _ => False
    end;
  gk_fin :
    match g_finalizationPromise g with
    | None => in_finalization (g_state g) = false
    | Some FinAwaitingDependents =>
        g_state g = s_awaiting_finalization ∧ truthy (g_inst g) = true
    | Some FinAwaitingCallback =>
        g_state g = s_finalizing ∧ truthy (g_inst g) = true ∧ g_finalize g ≠ None
    | Some (FinFulfilled ok) =>
        (truthy (g_inst g) = true ∧
         g_state g = if ok then s_finalized else s_finalization_failed) ∨
        (truthy (g_inst g) = false ∧ ok = true ∧ in_finalization (g_state g) = false)
    | Some (FinRejected _) => False
    end;
  gk_wait :
    g_finalizationPromise g = Some FinAwaitingCallback ∨ fin_settled g →
    ∀ d, d ∈ g_dependents g → ∃ gd, modGuides lc !! d = Some gd ∧ fin_settled gd;
  gk_ordered : is_ordered g = true → fin_issued g →
    ∀ j gj, i < j → modGuides lc !! j = Some gj → fin_settled gj;
  gk_init_calls :
    calls ModInitialize i lc ≤ 1 ∧
    (g_initialize g = InitNotCalled → calls ModInitialize i lc = 0);
  gk_fin_calls :
    calls ModFinalize i lc ≤ 1 ∧
    (g_finalizationPromise g = None ∨
     g_finalizationPromise g = Some FinAwaitingDependents →
     calls ModFinalize i lc = 0);
  gk_falsy : truthy (g_inst g) = false → calls ModFinalize i lc = 0;
}.

Definition none_issued (lc : Lifecycle) : Prop :=
  ∀ i g, modGuides lc !! i = Some g → g_finalizationPromise g = None.

Definition not_started (lc : Lifecycle) : Prop :=
  ∀ i g, modGuides lc !! i = Some g →
    g_initialize g = InitNotCalled ∧ g_dependents g = [].

Definition none_awaiting (lc : Lifecycle) : Prop :=
  ∀ i g, modGuides lc !! i = Some g → g_initialize g ≠ InitAwaiting.

(** [start] is suspended at the [await] of guide [i]'s [initialize()]. *)
Definition awaiting_at (lc : Lifecycle) (i : nat) : Prop :=
  (∃ g, modGuides lc !! i = Some g ∧ init_called g) ∧
  (∀ j g, modGuides lc !! j = Some g → g_initialize g = InitAwaiting → j = i) ∧
  (∀ j g, i < j → modGuides lc !! j = Some g → g_initialize g = InitNotCalled).

(** [start] has returned. *)
Definition start_done (lc : Lifecycle) : Prop :=
  startAct lc = StartReturned ∧ none_awaiting lc ∧
  match interruptStart lc with
  | None => ∃ r, startPromise lc = Fulfilled r
  | Some Resolved => startPromise lc = Fulfilled interrupted
  | Some Unresolved => False
  end.

(** The finalize pass has issued the [finalize()] of the guides from
    position [k] up, and [proms] is its [finalizationPromises]: the
    promises of the guides in [k, b), behind the one barrier promise
    that stands for the guides from [b] up, if a barrier was passed. *)
Definition pass_ok (lc : Lifecycle) (k : nat) (proms : list PromRef) : Prop :=
  (∀ j g, modGuides lc !! j = Some g → (fin_issued g ↔ k ≤ j)) ∧
  ∃ b head, k ≤ b ≤ length (modGuides lc) ∧
    proms = head ++ map PGuide (rev (seq k (b - k))) ∧
    ((head = [] ∧ b = length (modGuides lc)) ∨
     (∃ ok, head = [PResolve ok] ∧
        (∀ j g, b ≤ j → modGuides lc !! j = Some g → fin_settled g) ∧
        (ok = true ↔ ∀ j g, b ≤ j → modGuides lc !! j = Some g → fin_succeeded g))).

Definition ctl_ok (lc : Lifecycle) : Prop :=
  match phase lc with
  | p_loading | p_configuring | p_configuration_failed | p_configured =>
      startAct lc = StartIdle ∧ startPromise lc = Pending ∧
      stopAct lc = StopIdle ∧ interruptStart lc = None ∧ stopped_ lc = None ∧
      not_started lc ∧ none_issued lc
  | p_starting =>
      (∃ i o, startAct lc = StartAwaiting i o ∧ awaiting_at lc i) ∧
      startPromise lc = Pending ∧
      stopAct lc = StopIdle ∧ interruptStart lc = None ∧ stopped_ lc = None ∧
      none_issued lc
  | p_ready | p_starting_failed =>
      start_done lc ∧ interruptStart lc = None ∧
      stopAct lc = StopIdle ∧ stopped_ lc = None ∧ none_issued lc
  | p_stopping =>
      stopped_ lc = None ∧
      match stopAct lc with
      | StopAwaitingInterrupt =>
          none_issued lc ∧
          match interruptStart lc with
          | Some Unresolved =>
              (∃ i o, startAct lc = StartAwaiting i o ∧ awaiting_at lc i) ∧
              startPromise lc = Pending
          | Some Resolved => start_done lc
          | None => False
          end
      | StopAwaitingBarrier i rest proms =>
          start_done lc ∧ rest = rev (seq 0 i) ∧
          i < length (modGuides lc) ∧ pass_ok lc (S i) proms
      | StopAwaitingAll proms => start_done lc ∧ pass_ok lc 0 proms
      | _ => False
      end
  | p_stopped | p_stopping_failed =>
      stopAct lc = StopReturned ∧ start_done lc ∧
      ∃ ok, stopped_ lc = Some ok ∧
        phase lc = (if ok then p_stopped else p_stopping_failed) ∧
        (∀ j g, modGuides lc !! j = Some g → fin_settled g) ∧
        (ok = true ↔ ∀ j g, modGuides lc !! j = Some g → fin_succeeded g)
  end.

(** The finalize pass is suspended at one of its [await]s. *)
Definition pass_shape (lc : Lifecycle) : Prop :=
  match stopAct lc with
  | StopAwaitingBarrier i rest proms =>
      rest = rev (seq 0 i) ∧ i < length (modGuides lc) ∧ pass_ok lc (S i) proms
  | StopAwaitingAll proms => pass_ok lc 0 proms
  | _ => False
  end.

(** [g'] is [g] further along in its finalization: nothing else has
    changed, and nothing at all once the outcome was there. *)
Definition fin_moved (g g' : ModGuide) : Prop :=
  g_name g' = g_name g ∧ g_mod g' = g_mod g ∧ g_depMap g' = g_depMap g ∧
  g_cfg g' = g_cfg g ∧ g_inst g' = g_inst g ∧
  g_dependents g' = g_dependents g ∧ g_finalize g' = g_finalize g ∧
  g_status g' = g_status g ∧ g_initialize g' = g_initialize g ∧
  (fin_issued g → fin_issued g') ∧
  (fin_settled g → g' = g).

(** [lc'] is [lc] but for the finalization of guides and the
    activation of [stop]. *)
Definition same_start (lc lc' : Lifecycle) : Prop :=
  phase lc' = phase lc ∧ interruptStart lc' = interruptStart lc ∧
  stopped_ lc' = stopped_ lc ∧ startAct lc' = startAct lc ∧
  startPromise lc' = startPromise lc ∧
  length (modGuides lc') = length (modGuides lc) ∧
  ∀ j g', modGuides lc' !! j = Some g' →
    ∃ g, modGuides lc !! j = Some g ∧ fin_moved g g'.

(** [lc'] has the engine's own variables as [lc] has them. *)
Definition same_engine (lc lc' : Lifecycle) : Prop :=
  phase lc' = phase lc ∧ interruptStart lc' = interruptStart lc ∧
  stopped_ lc' = stopped_ lc ∧ startAct lc' = startAct lc ∧
  startPromise lc' = startPromise lc ∧ stopAct lc' = stopAct lc.

(** What one step keeps: a raised interrupt, the stopped signal, a
    returned [start], a settled guide, the result of a guide's
    [initialize()] with its instance, and, once [start] no longer
    advances, a guide never initialized. *)
Definition follows (lc lc' : Lifecycle) : Prop :=
  length (modGuides lc') = length (modGuides lc) ∧
  (interruptStart lc ≠ None → interruptStart lc' ≠ None) ∧
  (∀ ok, stopped_ lc = Some ok → stopped_ lc' = Some ok) ∧
  ((startAct lc' = startAct lc ∧ startPromise lc' = startPromise lc) ∨
   (∃ i o, startAct lc = StartAwaiting i o ∧ startAct lc' = StartReturned) ∨
   (interruptStart lc = None ∧ startAct lc ≠ StartReturned)) ∧
  (∀ j g, modGuides lc !! j = Some g →
     ∃ g', modGuides lc' !! j = Some g' ∧
       (fin_settled g → g' = g) ∧
       (fin_issued g → fin_issued g') ∧
       (∀ v, g_initialize g = InitFulfilled v →
          g_initialize g' = InitFulfilled v ∧ g_inst g' = g_inst g) ∧
       (g_initialize g = InitNotCalled →
          g_initialize g' = InitNotCalled ∨
          (interruptStart lc = None ∧ startAct lc ≠ StartReturned))).

(** The invariant of the guides, and with it that of the engine. *)
Record ginv (lc : Lifecycle) : Prop := {
  inv_length : length (modGuides lc) = length rs;
  inv_guides : ∀ i g, modGuides lc !! i = Some g → guide_ok lc i g;
  inv_calls : ∀ i f, length (modGuides lc) ≤ i → f ≠ GuideConfigure → calls f i lc = 0;
}.

Definition inv (lc : Lifecycle) : Prop := ginv lc ∧ ctl_ok lc.
End Invariant.

(** ** Definitions for the proofs *)

(** The guide after its [configure(envVars)]. *)
Definition g_configured (envVars : EnvVars) (g : ModGuide) : ModGuide :=
  match mod_configure (g_mod g) with
  | None => set_state s_configured (set_cfg VNull g)
  | Some f =>
      match f envVars with
      | CfgOk value => set_state s_configured (set_cfg value (set_state s_configuring g))
      | _ => set_state s_configuration_failed (set_state s_configuring g)
      end
  end.

(** What the guide's [configure(envVars)] returns: [{ok: true}], or
    [{ok: false, failure}] with the descriptor's failure strings or the
    one string of what it threw. *)
Definition g_configure_result (envVars : EnvVars) (g : ModGuide) : CfgResult :=
  match mod_configure (g_mod g) with
  | None => CfgResOk
  | Some f =>
      match f envVars with
      | CfgOk _ => CfgResOk
      | CfgFail failure => CfgResFail failure
      | CfgThrow err => CfgResFail [err]
      end
  end.

(** The guide after the rest of its [initialize()], the promise of
    [mod.initialize] having settled with [o]. *)
Definition g_settled (o : InitOutcome) (g : ModGuide) : ModGuide :=
  match o with
  | InitReturns instance fin status =>
      set_initialize (InitFulfilled (coalesce instance VNull))
        (set_state s_initialized (set_result instance fin status g))
  | InitThrows =>
      set_initialize (InitFulfilled (coalesce (g_inst g) VNull))
        (set_state s_initialization_failed g)
  end.

(** The guide after the end of its [finalize()] with the result [ok]. *)
Definition g_finish (ok : bool) (g : ModGuide) : ModGuide :=
  set_finalizationPromise (FinFulfilled ok)
    (set_state (if ok then s_finalized else s_finalization_failed) g).

(** The guide after its [finalize()] has gone on from
    [state = 'finalizing']: suspended at the descriptor's [finalize], or
    finished without one. *)
Definition g_proceed (g : ModGuide) : ModGuide :=
  match g_finalize g with
  | Some _ => set_finalizationPromise FinAwaitingCallback (set_state s_finalizing g)
  | None => g_finish true (set_state s_finalizing g)
  end.

(** The calls of [f] of guide [j] among the events of the [finalize()]
    of guide [i], which calls the descriptor's [finalize] or not. *)
Definition finalize_calls (f : Fn) (j i : nat) (called : bool) : nat :=
  match f with
  | ModFinalize => if called && (j =? i)%nat then 1 else 0
  | _ => 0
  end.

(** The guide after the first call of its [finalize()]. *)
Definition g_finalize_called (g : ModGuide) : ModGuide :=
  if negb (truthy (g_inst g)) then set_finalizationPromise (FinFulfilled true) g
  else
    match g_dependents g with
    | [] => g_proceed g
    | _ :: _ =>
        set_finalizationPromise FinAwaitingDependents
          (set_state s_awaiting_finalization g)
    end.

(** The closure after [selectDeps]: every guide keeps all but its
    [dependents], which gain [i] once for each time the guide is named. *)
Definition deps_pushed (i : nat) (deps : list nat) (gs gs' : list ModGuide) : Prop :=
  length gs' = length gs ∧
  ∀ j g, gs !! j = Some g →
    ∃ l, gs' !! j = Some (with_dependents l g) ∧
         ∀ x, x ∈ l ↔ x ∈ g_dependents g ∨ (x = i ∧ j ∈ deps).

(** The guide [j] of the closure after [initialize()] of guide [i] has
    called [mod.initialize]. *)
Definition g_initializing (i j : nat) (l : list nat) (g : ModGuide) : ModGuide :=
  if decide (j = i)
  then set_initialize InitAwaiting (set_state s_initializing (with_dependents l g))
  else with_dependents l g.

(** [lc'] has the guides of [lc] further along: what was called stays
    called, what was settled stays settled. *)
Definition grows (lc lc' : Lifecycle) : Prop :=
  length (modGuides lc') = length (modGuides lc) ∧
  ∀ j g, modGuides lc !! j = Some g →
    ∃ g', modGuides lc' !! j = Some g' ∧
      (init_called g → init_called g') ∧
      (∀ v, g_initialize g = InitFulfilled v → g_initialize g' = InitFulfilled v) ∧
      (fin_settled g → fin_settled g').

(** The guides of [lc'] have the results of [initialize()] that the
    guides of [lc] have, with the same instances. *)
Definition init_kept (lc lc' : Lifecycle) : Prop :=
  ∀ j g, modGuides lc !! j = Some g →
    ∃ g', modGuides lc' !! j = Some g' ∧
      ∀ v, g_initialize g = InitFulfilled v →
        g_initialize g' = InitFulfilled v ∧ g_inst g' = g_inst g.


(** What stays of a state in all the states that follow it. *)
Definition keeps (lc lc' : Lifecycle) : Prop :=
  (∀ ok, stopped_ lc = Some ok → stopped_ lc' = Some ok) ∧
  ∀ j g, modGuides lc !! j = Some g →
    ∃ g', modGuides lc' !! j = Some g' ∧
      (fin_settled g → g' = g) ∧ (fin_issued g → fin_issued g') ∧
      (∀ v, g_initialize g = InitFulfilled v →
         g_initialize g' = InitFulfilled v ∧ g_inst g' = g_inst g).


(** The calls of a trace, in order. *)
Definition called (t : list Event) : list (Fn * nat) :=
  omap (λ e, match e with Called f i => Some (f, i) | Logged _ _ => None end) t.


(** The calls of [changePhase] in [configure], [start] and [stop], put
    together: the phases the engine can be in at any time after it was
    in [p]. *)
Definition phase_after (p : Phase) : list Phase :=
  match p with
  | p_loading =>
      [p_loading; p_configuring; p_configuration_failed; p_configured; p_starting;
       p_starting_failed; p_ready; p_stopping; p_stopping_failed; p_stopped]
  | p_configuring =>
      [p_configuring; p_configuration_failed; p_configured; p_starting;
       p_starting_failed; p_ready; p_stopping; p_stopping_failed; p_stopped]
  | p_configuration_failed => [p_configuration_failed]
  | p_configured =>
      [p_configured; p_starting; p_starting_failed; p_ready; p_stopping;
       p_stopping_failed; p_stopped]
  | p_starting =>
      [p_starting; p_starting_failed; p_ready; p_stopping; p_stopping_failed;
       p_stopped]
  | p_starting_failed => [p_starting_failed; p_stopping; p_stopping_failed; p_stopped]
  | p_ready => [p_ready; p_stopping; p_stopping_failed; p_stopped]
  | p_stopping => [p_stopping; p_stopping_failed; p_stopped]
  | p_stopping_failed => [p_stopping_failed]
  | p_stopped => [p_stopped]
  end.

Definition phase_leb (p q : Phase) : bool := existsb (Phase_eqb q) (phase_after p).







(** The first module's [mod.initialize] threw and [start] has returned:
    the phase is [starting_failed]. *)
Definition sample_start_failed : Lifecycle :=
  Sample.after [CallConfigure Sample.noEnv; CallStart None;
                SettleInitialize 0 InitThrows; ResumeStart].

(** All modules were initialized, [stop()] was called and every
    finalization succeeded: the phase is [stopped]. *)
Definition sample_stopped : Lifecycle :=
  Sample.after [CallConfigure Sample.noEnv; CallStart None;
                SettleInitialize 0 Sample.instance; ResumeStart;
                SettleInitialize 1 Sample.instance; ResumeStart;
                SettleInitialize 2 Sample.instance; ResumeStart; CallStop;
                SettleFinalize 2 (FinResolves None); ResumeFinalize 1;
                SettleFinalize 1 (FinResolves None); ResumeStop;
                SettleFinalize 0 (FinResolves None); ResumeStop].
















(** ** The builder: [makeModstack] and [modstack] *)

Module Builder.

(** An object with string keys: its own enumerable properties, in
    the order of their creation. *)
Abbreviation Obj A := (list (string * A)) (only parsing).

Definition digit (c : Ascii.ascii) : option N :=
  let n := Ascii.N_of_ascii c in
  if ((48 <=? n) && (n <=? 57))%N then Some (n - 48)%N else None.

Fixpoint decimal (acc : N) (s : string) : option N :=
  match s with
  | EmptyString => Some acc
  | String c s' =>
      match digit c with
      | Some d => decimal (10 * acc + d)%N s'
      | None => None
      end
  end.

(** The array index a property key stands for, if any: the key is the
    canonical decimal string of an integer below [2^32 - 1] (48 is
    the code of the digit zero). *)
Definition array_index (key : string) : option N :=
  match key with
  | EmptyString => None
  | String c rest =>
      if (Ascii.N_of_ascii c =? 48)%N then
        match rest with EmptyString => Some 0%N | _ => None end
      else
        match decimal 0 key with
        | Some n => if (n <? 4294967295)%N then Some n else None
        | None => None
        end
  end.

Fixpoint insert_by_index {A} (n : N) (x : A) (l : list (N * A)) : list (N * A) :=
  match l with
  | [] => [(n, x)]
  | (m, y) :: l' =>
      if (n <=? m)%N then (n, x) :: l else (m, y) :: insert_by_index n x l'
  end.

(** The own properties in the order [Object.keys], [Object.values]
    and the spread syntax visit them: the array indices in ascending
    numeric order, then the other keys in the order of creation. *)
Definition own_properties {A} (o : Obj A) : list (string * A) :=
  let indexed := omap (λ kv, (λ n, (n, kv)) <$> array_index kv.1) o in
  map snd (foldr (λ p acc, insert_by_index p.1 p.2 acc) [] indexed) ++
  filter (λ kv, array_index kv.1 = None) o.

(** Defining the property [key]: an existing one keeps its place. *)
Fixpoint define {A} (key : string) (v : A) (o : Obj A) : Obj A :=
  match o with
  | [] => [(key, v)]
  | (k, x) :: o' =>
      if String.eqb k key then (k, v) :: o' else (k, x) :: define key v o'
  end.

(** [Object.fromEntries(entries)] *)
Definition fromEntries {A} (entries : list (string * A)) : Obj A :=
  foldl (λ o kv, define kv.1 kv.2 o) [] entries.

(** [{...o}] *)
Definition spread {A} (o : Obj A) : Obj A := fromEntries (own_properties o).

(** [Object.values(o)] *)
Definition values {A} (o : Obj A) : list A := map snd (own_properties o).

(** A guide made by [add]: [makeModState(logger, name, mod,
    depModGuides)].  The guide objects are told apart by [b_id], the
    number of guides made before; a member of [depModGuides] is the
    guide found under the name, or no guide ([None]) when [modGuides]
    has no own property of that name. *)
Record BGuide := {
  b_id : nat;
  b_name : string;
  b_mod : Mod;
  b_depMap : Obj (option nat);
}.

(** The builder: the argument [modGuides] of [makeModstack]. *)
Record Builder := {
  modGuides : Obj BGuide;
  made : nat;
}.

(** [add(name, mod, depKeys)] *)
Definition add (name : string) (m : Mod) (depKeys : Obj string) (b : Builder)
    : Builder :=
  let depModGuides :=
    fromEntries
      (map (λ kv, (kv.1, b_id <$> property kv.2 (modGuides b)))
           (own_properties depKeys)) in
  {| modGuides :=
       define name {| b_id := made b; b_name := name; b_mod := m;
                      b_depMap := depModGuides |}
              (spread (modGuides b));
     made := S (made b) |}.

(** The position of the guide [id] in the array of guides. *)
Definition position (id : nat) (gs : list BGuide) : option nat :=
  fst <$> list_find (λ g, b_id g = id) gs.

(** A guide of the array as a registration of the engine: its
    dependencies in the order [Object.keys(depMap)], by position.
    There is none when a member of its [depMap] is no guide of the
    array. *)
Definition registration (gs : list BGuide) (g : BGuide) : option Registration :=
  deps ← mapM (λ kv, id ← kv.2; position id gs) (own_properties (b_depMap g));
  Some {| r_name := b_name g; r_mod := b_mod g; r_deps := deps |}.

(** [complete()]: the guides [Object.values(modGuides)] that
    [makeLifecycle] gets. *)
Definition complete (b : Builder) : option (list Registration) :=
  let gs := values (modGuides b) in
  mapM (registration gs) gs.

(** [lifecycleDep.mod]: no [configure], [orderedFinalization]. *)
Definition lifecycleMod : Mod :=
  {| mod_configure := None;
     mod_options := Some {| orderedFinalization := Some true |} |}.

(** [modstack({ logger })] *)
Definition modstack : Builder :=
  add "lifecycle"%string lifecycleMod [] {| modGuides := []; made := 0 |}.

(** A call [add(name, mod, depKeys)]. *)
Record AddCall := {
  a_name : string;
  a_mod : Mod;
  a_depKeys : Obj string;
}.

(** [modstack({ logger }).add(...).add(...)] *)
Definition build (adds : list AddCall) : Builder :=
  foldl (λ b a, add (a_name a) (a_mod a) (a_depKeys a) b) modstack adds.

End Builder.

(** What the types of [add] allow, the names [names] being registered:
    a name not yet registered, and for the dependencies an object
    whose values are registered names. *)
Fixpoint typed (names : list string) (adds : list Builder.AddCall) : Prop :=
  match adds with
  | [] => True
  | a :: adds' =>
      (Builder.a_name a ∉ names) ∧
      NoDup (map fst (Builder.a_depKeys a)) ∧
      Forall (λ kv, kv.2 ∈ names) (Builder.a_depKeys a) ∧
      typed (names ++ [Builder.a_name a]) adds'
  end.

(** The guides [gs], made one after the other under the names [names],
    none an array index, are the properties of the builder. *)
Definition built (names : list string) (gs : list Builder.BGuide)
    (b : Builder.Builder) : Prop :=
  Builder.modGuides b = map (λ g, (Builder.b_name g, g)) gs ∧
  map Builder.b_name gs = names ∧
  map Builder.b_id gs = seq 0 (length gs) ∧
  Builder.made b = length gs ∧
  NoDup names ∧
  Forall (λ n, Builder.array_index n = None) names ∧
  Forall (λ g, Builder.own_properties (Builder.b_depMap g) = Builder.b_depMap g) gs.

(** The guide [g] was made by the call [a], [names] being registered:
    its [depMap] has, in the order of the keys of [depKeys], the guides
    under the names given. *)
Definition made_by (names : list string) (a : Builder.AddCall)
    (g : Builder.BGuide) : Prop :=
  Builder.b_name g = Builder.a_name a ∧ Builder.b_mod g = Builder.a_mod a ∧
  Forall2 (λ kv' kv, kv'.1 = kv.1 ∧ ∃ j, kv'.2 = Some j ∧ names !! j = Some kv.2)
          (Builder.b_depMap g) (Builder.own_properties (Builder.a_depKeys a)).

(** The registration that stands for a guide whose [depMap] holds
    guides only, by position. *)
Definition registered (g : Builder.BGuide) : Registration :=
  {| r_name := Builder.b_name g; r_mod := Builder.b_mod g;
     r_deps := omap snd (Builder.b_depMap g) |}.

(** The own properties with an array index as key, with the index. *)
Definition indexed {A} (o : list (string * A)) : list (N * (string * A)) :=
  omap (λ kv, (λ n, (n, kv)) <$> Builder.array_index kv.1) o.

(** In ascending order of the index. *)
Definition by_index {A} (l : list (N * A)) : list (N * A) :=
  foldr (λ p acc, Builder.insert_by_index p.1 p.2 acc) [] l.

Fixpoint ascending {A} (l : list (N * A)) : Prop :=
  match l with
  | [] => True
  | p :: l' =>
      match l' with [] => True | q :: _ => (p.1 ≤ q.1)%N end ∧ ascending l'
  end.

(** Every guide of the builder is the property of its own name. *)
Definition named (b : Builder.Builder) : Prop :=
  ∀ kv, kv ∈ Builder.modGuides b → Builder.b_name kv.2 = kv.1.

(** Two modules added to [modstack()]: [a] depends on [lifecycle], and
    [b] on [a]. *)
Definition sample_adds : list Builder.AddCall :=
  [ {| Builder.a_name := "a"; Builder.a_mod := Sample.plainMod;
       Builder.a_depKeys := [("lifecycle", "lifecycle")] |};
    {| Builder.a_name := "b"; Builder.a_mod := Sample.plainMod;
       Builder.a_depKeys := [("a", "a")] |} ]%string.

(** A module [app], and then one under the name [0]. *)
Definition sample_index_adds : list Builder.AddCall :=
  [ {| Builder.a_name := "app"; Builder.a_mod := Sample.plainMod;
       Builder.a_depKeys := [] |};
    {| Builder.a_name := "0"; Builder.a_mod := Sample.plainMod;
       Builder.a_depKeys := [] |} ]%string.

(** The stack [complete()] makes of [sample_adds]. *)
Definition sample_built : list Registration :=
  default [] (Builder.complete (Builder.build sample_adds)).

(** The engine of that stack, [start()] awaiting the [initialize()] of
    [a]. *)
Definition sample_built_starting : Lifecycle :=
  default (makeLifecycle (guides_of sample_built))
    (run [CallConfigure Sample.noEnv; CallStart None;
          SettleInitialize 0 Sample.instance; ResumeStart]
         (makeLifecycle (guides_of sample_built))).

(** ** The proxy of the environment variables: [makeEnvProxy] *)

Module EnvProxy.

(** A property key: a string or a symbol with its description. *)
Inductive PropKey :=
| KString (s : string)
| KSymbol (id : nat) (description : option string).

Global Instance PropKey_eq_dec : EqDecision PropKey.
Proof. solve_decision. Defined.

(** [String(prop)], which for a symbol is what [prop.toString()] is. *)
Definition toString (prop : PropKey) : string :=
  match prop with
  | KString s => s
  | KSymbol _ description => "Symbol(" +:+ default "" description +:+ ")"
  end%string.

(** The object [envVars]: its own properties and what it inherits.
    Its properties are taken to be configurable, as those of an
    object literal or of [process.env] are, so that the proxy accepts
    what the traps answer. *)
Record Target := {
  own : list (PropKey * JsVal);
  inherited : PropKey → JsVal;
}.

(** [Object.hasOwn(target, prop)] *)
Definition hasOwn (t : Target) (prop : PropKey) : bool :=
  bool_decide (prop ∈ map fst (own t)).

(** [target[prop]] *)
Definition get_property (t : Target) (prop : PropKey) : JsVal :=
  match find (λ kv, bool_decide (kv.1 = prop)) (own t) with
  | Some kv => kv.2
  | None => inherited t prop
  end.

(** An entry of the access log. *)
Inductive EnvAccess :=
| ReadPresent (key : string) (value : JsVal)
| ReadAbsent (key : string)
| Check (key : string) (present : bool).

(** What is thrown: an [Error] of the proxy, or whatever the handler
    [onLockedAccess] threw. *)
Inductive Thrown :=
| Error (message : string)
| HandlerThrew (x : JsVal).

Inductive Outcome (A : Type) :=
| Returns (a : A)
| Throws (t : Thrown).
Arguments Returns {A} a.
Arguments Throws {A} t.

(** [options?.onLockedAccess]: called with the key, it answers or
    throws; it is taken not to use the proxy itself. *)
Inductive HandlerAnswer :=
| Answers (v : JsVal)
| Fails (x : JsVal).

Definition Handler := string → HandlerAnswer.

(** The closure of [makeEnvProxy]. *)
Record State := {
  target : Target;
  onLockedAccess : option Handler;
  locked : bool;
  envAccessLog : list EnvAccess;
}.

Definition makeEnvProxy (envVars : Target) (handler : option Handler) : State :=
  {| target := envVars; onLockedAccess := handler; locked := false;
     envAccessLog := [] |}.

Definition push (e : EnvAccess) (st : State) : State :=
  {| target := target st; onLockedAccess := onLockedAccess st;
     locked := locked st; envAccessLog := envAccessLog st ++ [e] |}.

Definition unallowed (key : string) : Thrown :=
  Error ("Unallowed access to env var '" +:+ key +:+
         "' outside configuration phase.")%string.

Definition checkLock (key : string) (st : State) : Outcome unit :=
  if locked st then
    match onLockedAccess st with
    | None => Throws (unallowed key)
    | Some handler =>
        match handler key with
        | Answers v => if negb (truthy v) then Throws (unallowed key) else Returns ()
        | Fails x => Throws (HandlerThrew x)
        end
    end
  else Returns ().

(** The trap [get] *)
Definition get (prop : PropKey) (st : State) : Outcome JsVal * State :=
  let strProp := toString prop in
  match checkLock strProp st with
  | Throws t => (Throws t, st)
  | Returns _ =>
      let value := get_property (target st) (KString strProp) in
      let present := hasOwn (target st) prop in
      (Returns value,
       push (if present then ReadPresent strProp value else ReadAbsent strProp) st)
  end.

(** The trap [has] *)
Definition has (prop : PropKey) (st : State) : Outcome bool * State :=
  let strProp := toString prop in
  match checkLock strProp st with
  | Throws t => (Throws t, st)
  | Returns _ =>
      let present := hasOwn (target st) (KString strProp) in
      (Returns present, push (Check strProp present) st)
  end.

(** The trap [set] *)
Definition set (prop : PropKey) (st : State) : Outcome unit * State :=
  (Throws (Error ("Cannot set property " +:+ toString prop +:+
                  " on read-only env vars proxy.")%string), st).

Definition lock (st : State) : State :=
  {| target := target st; onLockedAccess := onLockedAccess st;
     locked := true; envAccessLog := envAccessLog st |}.

Definition accessLog (st : State) : list EnvAccess := envAccessLog st.

(** What is done with the proxy: [vars[prop]], [prop in vars],
    [vars[prop] = value] and [lock()]. *)
Inductive Op :=
| OpGet (prop : PropKey)
| OpHas (prop : PropKey)
| OpSet (prop : PropKey) (value : JsVal)
| OpLock.

(** What an operation gave. *)
Inductive Result :=
| Got (v : JsVal)
| Had (present : bool)
| Done
| Threw (t : Thrown).

Definition step (op : Op) (st : State) : Result * State :=
  match op with
  | OpGet prop =>
      match get prop st with
      | (Returns v, st) => (Got v, st)
      | (Throws t, st) => (Threw t, st)
      end
  | OpHas prop =>
      match has prop st with
      | (Returns b, st) => (Had b, st)
      | (Throws t, st) => (Threw t, st)
      end
  | OpSet prop _ =>
      match set prop st with
      | (Returns _, st) => (Done, st)
      | (Throws t, st) => (Threw t, st)
      end
  | OpLock => (Done, lock st)
  end.

Fixpoint run (ops : list Op) (st : State) : list Result * State :=
  match ops with
  | [] => ([], st)
  | op :: ops' =>
      let '(r, st) := step op st in
      let '(rs, st) := run ops' st in
      (r :: rs, st)
  end.

End EnvProxy.

(** The entry an access leaves in the log when it returns: its key,
    and the value or the presence it returned. *)
Definition entry (t : EnvProxy.Target) (a : EnvProxy.Op * EnvProxy.Result)
    : option EnvProxy.EnvAccess :=
  match a with
  | (EnvProxy.OpGet prop, EnvProxy.Got v) =>
      Some (if EnvProxy.hasOwn t prop
            then EnvProxy.ReadPresent (EnvProxy.toString prop) v
            else EnvProxy.ReadAbsent (EnvProxy.toString prop))
  | (EnvProxy.OpHas prop, EnvProxy.Had present) =>
      Some (EnvProxy.Check (EnvProxy.toString prop) present)
  | _ => None
  end.

(** The operation names its property by a string. *)
Definition string_keyed (op : EnvProxy.Op) : Prop :=
  match op with
  | EnvProxy.OpGet (EnvProxy.KSymbol _ _) | EnvProxy.OpHas (EnvProxy.KSymbol _ _)
  | EnvProxy.OpSet (EnvProxy.KSymbol _ _) _ => False
  | _ => True
  end.

(** The entry says of the object what is the case. *)
Definition truthful (t : EnvProxy.Target) (e : EnvProxy.EnvAccess) : Prop :=
  match e with
  | EnvProxy.ReadPresent key value =>
      EnvProxy.hasOwn t (EnvProxy.KString key) = true ∧
      EnvProxy.get_property t (EnvProxy.KString key) = value
  | EnvProxy.ReadAbsent key => EnvProxy.hasOwn t (EnvProxy.KString key) = false
  | EnvProxy.Check key present => present = EnvProxy.hasOwn t (EnvProxy.KString key)
  end.

(** What an operation on a locked proxy without handler gives: an
    access throws the error that it is not allowed, an assignment the
    error of the read-only proxy. *)
Definition refused (a : EnvProxy.Op * EnvProxy.Result) : Prop :=
  match a with
  | (EnvProxy.OpGet prop, r) | (EnvProxy.OpHas prop, r) =>
      r = EnvProxy.Threw (EnvProxy.unallowed (EnvProxy.toString prop))
  | (EnvProxy.OpSet prop _, r) => ∃ message, r = EnvProxy.Threw (EnvProxy.Error message)
  | (EnvProxy.OpLock, r) => r = EnvProxy.Done
  end.

(** An object with the variable [PORT]. *)
Definition sample_env : EnvProxy.Target :=
  {| EnvProxy.own := [(EnvProxy.KString "PORT", VStr "8080")];
     EnvProxy.inherited := λ _, VUndefined |}.

(** A read, a check, [lock()] and a read again. *)
Definition sample_ops : list EnvProxy.Op :=
  [EnvProxy.OpGet (EnvProxy.KString "PORT"); EnvProxy.OpHas (EnvProxy.KString "HOST");
   EnvProxy.OpLock; EnvProxy.OpGet (EnvProxy.KString "PORT")].

(** [start] has returned or was interrupted. *)
Definition start_over (lc : Lifecycle) : Prop :=
  interruptStart lc ≠ None ∨ startAct lc = StartReturned.

(** * Properties *)

(** ** A guide's update in canonical form *)

Lemma on_guide_put i f g lc :
  modGuides lc !! i = Some g → on_guide i f lc = put i (f g) [] lc.
Proof.
  intros H. destruct lc; simpl in *. unfold on_guide, put, set_modGuides; simpl.
  f_equal.
  - apply list_eq. intros j. destruct (decide (i = j)) as [->|Hne].
    + rewrite list_lookup_alter_eq, list_lookup_insert_eq, H; [done|].
      by eapply lookup_lt_Some.
    + by rewrite list_lookup_alter_ne, list_lookup_insert_ne.
  - by rewrite app_nil_r.
Qed.

Lemma emit_put i g evs e lc : emit e (put i g evs lc) = put i g (evs ++ [e]) lc.
Proof. unfold emit, put; simpl. f_equal. by rewrite app_assoc. Qed.

Lemma put_put i g g' evs evs' lc :
  put i g' evs' (put i g evs lc) = put i g' (evs ++ evs') lc.
Proof.
  unfold put; simpl. f_equal.
  - by rewrite list_insert_insert_eq.
  - by rewrite app_assoc.
Qed.

Lemma lookup_put_eq i g evs lc g0 :
  modGuides lc !! i = Some g0 → modGuides (put i g evs lc) !! i = Some g.
Proof. intros. simpl. apply list_lookup_insert_eq. by eapply lookup_lt_Some. Qed.

Lemma lookup_put_ne i j g evs lc :
  i ≠ j → modGuides (put i g evs lc) !! j = modGuides lc !! j.
Proof. intros. simpl. by apply list_lookup_insert_ne. Qed.

Lemma length_put i g evs lc :
  length (modGuides (put i g evs lc)) = length (modGuides lc).
Proof. simpl. apply length_insert. Qed.

Lemma lookup_put i j g evs lc g0 gj :
  modGuides lc !! i = Some g0 →
  modGuides (put i g evs lc) !! j = Some gj →
  (j = i ∧ gj = g) ∨ (j ≠ i ∧ modGuides lc !! j = Some gj).
Proof.
  intros H0 H. destruct (decide (i = j)) as [->|Hne].
  - left. erewrite lookup_put_eq in H by done. by inversion H.
  - right. rewrite lookup_put_ne in H by done. done.
Qed.

Lemma on_guide_put_put i f g evs lc g0 :
  modGuides lc !! i = Some g0 → on_guide i f (put i g evs lc) = put i (f g) evs lc.
Proof.
  intros H. erewrite on_guide_put by (by eapply lookup_put_eq).
  by rewrite put_put, app_nil_r.
Qed.

Lemma put_id i g lc : modGuides lc !! i = Some g → put i g [] lc = lc.
Proof.
  intros H. destruct lc; unfold put; simpl in *. f_equal.
  - by apply list_insert_id.
  - by rewrite app_nil_r.
Qed.

Lemma elem_of_rev {A} (x : A) (l : list A) : x ∈ rev l ↔ x ∈ l.
Proof. rewrite !list_elem_of_In. symmetry. apply in_rev. Qed.

Lemma elem_of_map {A B} (f : A → B) (l : list A) (y : B) :
  y ∈ map f l ↔ ∃ x, y = f x ∧ x ∈ l.
Proof. apply (list_elem_of_fmap f l y). Qed.

(** ** Calls in a trace *)

Lemma calls_in_app f i t1 t2 : calls_in f i (t1 ++ t2) = calls_in f i t1 + calls_in f i t2.
Proof. unfold calls_in. by rewrite filter_app, length_app. Qed.

Lemma calls_put f j i g evs lc :
  calls f j (put i g evs lc) = calls f j lc + calls_in f j evs.
Proof. unfold calls. simpl. apply calls_in_app. Qed.

Lemma calls_emit f j e lc :
  calls f j (emit e lc) = calls f j lc + calls_in f j [e].
Proof. unfold calls. simpl. apply calls_in_app. Qed.

Lemma calls_in_nil f j : calls_in f j [] = 0.
Proof. done. Qed.

Lemma calls_in_cons f j e t :
  calls_in f j (e :: t) = (if is_call f j e then 1 else 0) + calls_in f j t.
Proof.
  unfold calls_in. rewrite filter_cons.
  destruct (is_call f j e); by destruct (decide _).
Qed.

Ltac calls_simpl :=
  cbn [app]; rewrite ?calls_in_app, ?calls_in_cons, ?calls_in_nil; cbn [is_call].

Lemma calls_in_logged f j lvl msg : calls_in f j [Logged lvl msg] = 0.
Proof. done. Qed.

Lemma calls_in_called f j f' i :
  calls_in f j [Called f' i] = if is_call f j (Called f' i) then 1 else 0.
Proof.
  unfold calls_in. rewrite filter_cons, filter_nil.
  destruct (is_call f j (Called f' i)); by destruct (decide _).
Qed.

(** ** The guide's functions in canonical form *)

(** Brings a sequence of assignments and log lines of guide [i] into
    one [put]. *)
Ltac norm_put H :=
  unfold logger_info, logger_error;
  repeat first
    [ rewrite (on_guide_put_put _ _ _ _ _ _ H)
    | rewrite (on_guide_put _ _ _ _ H)
    | rewrite emit_put
    | rewrite put_put
    | rewrite (lookup_put_eq _ _ _ _ _ H) ].

Lemma configure_put i envVars lc g :
  modGuides lc !! i = Some g →
  Guide.configure i envVars lc =
    (g_configure_result envVars g,
     put i (g_configured envVars g) [Called GuideConfigure i] lc).
Proof.
  intros H. unfold Guide.configure, g_configure_result, g_configured.
  assert (Hp : emit (Called GuideConfigure i) lc = put i g [Called GuideConfigure i] lc).
  { rewrite <- (put_id i g lc) at 1 by done. by rewrite emit_put. }
  rewrite Hp. norm_put H.
  destruct (mod_configure (g_mod g)) as [f|]; [destruct (f envVars)|];
    by norm_put H.
Qed.

Lemma initialize_resume_put i o lc g :
  modGuides lc !! i = Some g →
  ∃ lvl msg, Guide.initialize_resume i o lc = put i (g_settled o g) [Logged lvl msg] lc.
Proof.
  intros H. unfold Guide.initialize_resume. rewrite H.
  destruct o as [instance fin status|]; do 2 eexists; norm_put H; reflexivity.
Qed.

Lemma finalize_finish_put i ok lc g :
  modGuides lc !! i = Some g →
  ∃ msg, Guide.finalize_finish i ok lc = put i (g_finish ok g) [Logged Info msg] lc.
Proof.
  intros H. unfold Guide.finalize_finish. rewrite H.
  eexists. norm_put H. reflexivity.
Qed.

Lemma finalize_proceed_put i lc g :
  modGuides lc !! i = Some g →
  ∃ evs, Guide.finalize_proceed i lc = put i (g_proceed g) evs lc ∧
    ∀ f j, calls_in f j evs = finalize_calls f j i (bool_decide (g_finalize g ≠ None)).
Proof.
  intros H. unfold Guide.finalize_proceed, g_proceed. rewrite H.
  destruct (g_finalize g) as [fn|].
  - norm_put H. eexists; split; [reflexivity|].
    intros f j. calls_simpl. by destruct f.
  - norm_put H.
    edestruct (finalize_finish_put i true) as [msg Hf];
      [by eapply lookup_put_eq|].
    rewrite Hf. norm_put H. eexists; split; [reflexivity|].
    intros f j. calls_simpl. by destruct f.
Qed.



Lemma upd_id lc : upd (modGuides lc) [] lc = lc.
Proof. destruct lc; unfold upd; simpl. f_equal. by rewrite app_nil_r. Qed.

Lemma emit_upd gs evs e lc : emit e (upd gs evs lc) = upd gs (evs ++ [e]) lc.
Proof. unfold emit, upd; simpl. f_equal. by rewrite app_assoc. Qed.

Lemma on_guide_upd i f gs evs lc : on_guide i f (upd gs evs lc) = upd (alter f i gs) evs lc.
Proof. done. Qed.

Lemma with_dependents_id g : with_dependents (g_dependents g) g = g.
Proof. by destruct g. Qed.

(** [dependents.map((dep) => dep.finalized())] does not throw when the
    [finalize()] of every dependent has been called. *)
Lemma dependents_finalized_ok deps lc :
  (∀ d gd, d ∈ deps → modGuides lc !! d = Some gd → fin_issued gd) →
  Guide.dependents_finalized deps lc = Normal ().
Proof.
  induction deps as [|d deps IH]; intros H; simpl; [done|].
  destruct (modGuides lc !! d) as [gd|] eqn:Hd.
  - assert (fin_issued gd) as Hi by (eapply H; [left|done]).
    unfold Guide.finalized. unfold fin_issued in Hi.
    destruct (g_finalizationPromise gd) as [[]|]; try done;
      apply IH; intros d' gd' Hin Hl; apply (H d' gd'); (by right) || done.
  - apply IH; intros d' gd' Hin Hl; apply (H d' gd'); (by right) || done.
Qed.

Lemma dependents_finalized_ext deps lc lc' :
  (∀ d, d ∈ deps → modGuides lc' !! d = modGuides lc !! d) →
  Guide.dependents_finalized deps lc' = Guide.dependents_finalized deps lc.
Proof.
  induction deps as [|d deps IH]; intros H; simpl; [done|].
  rewrite (H d) by left. rewrite IH; [done|]. intros; apply H; by right.
Qed.

Lemma finalize_memo i lc g :
  modGuides lc !! i = Some g → fin_issued g → Guide.finalize i lc = lc.
Proof.
  intros H Hi. unfold Guide.finalize. rewrite H. unfold fin_issued in Hi.
  by destruct (g_finalizationPromise g).
Qed.

Lemma finalize_put i lc g :
  modGuides lc !! i = Some g →
  g_finalizationPromise g = None →
  (∀ d, d ∈ g_dependents g →
     d ≠ i ∧ ∀ gd, modGuides lc !! d = Some gd → fin_issued gd) →
  ∃ evs, Guide.finalize i lc = put i (g_finalize_called g) evs lc ∧
    ∀ f j, calls_in f j evs =
      finalize_calls f j i
        (truthy (g_inst g) && bool_decide (g_dependents g = []) &&
         bool_decide (g_finalize g ≠ None)).
Proof.
  intros H Hn Hd. unfold Guide.finalize, g_finalize_called. rewrite H, Hn.
  destruct (truthy (g_inst g)); simpl.
  - destruct (g_dependents g) as [|d0 ds] eqn:Hds.
    + destruct (finalize_proceed_put i lc g H) as (evs & -> & Hc).
      eexists; split; [done|]. intros f j. by rewrite Hc.
    + norm_put H.
      rewrite dependents_finalized_ok.
      * norm_put H. eexists; split; [reflexivity|].
        intros f j. calls_simpl. by destruct f.
      * intros d gd Hin Hl. destruct (Hd d Hin) as [Hne Hi].
        rewrite lookup_put_ne in Hl by done. by apply Hi.
  - norm_put H. eexists; split; [reflexivity|]. intros f j. by destruct f.
Qed.

(** The promise [Promise.all(dependents.map(...))]. *)
Lemma all_finalized_fulfilled deps lc u :
  Guide.all_finalized deps lc = Fulfilled u →
  ∀ d, d ∈ deps → ∃ gd, modGuides lc !! d = Some gd ∧ fin_settled gd.
Proof.
  induction deps as [|d deps IH]; simpl; intros H x Hx.
  - by apply elem_of_nil in Hx.
  - destruct (modGuides lc !! d) as [gd|] eqn:Hd; simpl in H.
    + destruct (g_finalizationPromise gd) as [[]|] eqn:Hf;
        try (destruct (Guide.all_finalized deps lc); done).
      apply elem_of_cons in Hx as [->|Hx]; [|by apply IH].
      exists gd. split; [done|]. by eexists.
    + destruct (Guide.all_finalized deps lc); done.
Qed.


Lemma all_finalized_rejected deps lc e :
  Guide.all_finalized deps lc = Rejected e →
  ∃ d gd e', d ∈ deps ∧ modGuides lc !! d = Some gd ∧
             g_finalizationPromise gd = Some (FinRejected e').
Proof.
  revert e. induction deps as [|d deps IH]; simpl; intros e H; [done|].
  assert (Hrec : ∀ e0, Guide.all_finalized deps lc = Rejected e0 →
    ∃ d0 gd e', d0 ∈ d :: deps ∧ modGuides lc !! d0 = Some gd ∧
                g_finalizationPromise gd = Some (FinRejected e')).
  { intros e0 He0. destruct (IH _ He0) as (d' & gd' & e'' & ? & ? & ?).
    exists d', gd', e''. split; [by right|done]. }
  destruct (modGuides lc !! d) as [gd|] eqn:Hd; simpl in H.
  - destruct (g_finalizationPromise gd) as [[| |ok|e']|] eqn:Hf.
    1,2,5: destruct (Guide.all_finalized deps lc) eqn:Ha; try done;
      by eapply Hrec.
    + by eapply Hrec.
    + exists d, gd, e'. split; [left|done].
  - destruct (Guide.all_finalized deps lc) eqn:Ha; try done. by eapply Hrec.
Qed.

(** The promise [Promise.all(finalizationPromises)]. *)
Lemma promise_all_fulfilled ps lc oks :
  Engine.promise_all ps lc = Fulfilled oks →
  Forall2 (λ p ok, Engine.prom_state lc p = Fulfilled ok) ps oks.
Proof.
  revert oks. induction ps as [|p ps IH]; simpl; intros oks H.
  - inversion H. constructor.
  - destruct (Engine.prom_state lc p) eqn:Hp; try done;
      destruct (Engine.promise_all ps lc) eqn:Ha; try done.
    inversion H; subst. constructor; [done|]. by apply IH.
Qed.

Lemma promise_all_settled ps lc oks :
  Forall2 (λ p ok, Engine.prom_state lc p = Fulfilled ok) ps oks →
  Engine.promise_all ps lc = Fulfilled oks.
Proof.
  induction 1 as [|p ok ps oks Hp _ IH]; simpl; [done|]. by rewrite Hp, IH.
Qed.

Lemma promise_all_rejected ps lc e :
  Engine.promise_all ps lc = Rejected e →
  ∃ p e', p ∈ ps ∧ Engine.prom_state lc p = Rejected e'.
Proof.
  revert e. induction ps as [|p ps IH]; simpl; intros e H; [done|].
  destruct (Engine.prom_state lc p) eqn:Hp.
  - destruct (Engine.promise_all ps lc) eqn:Ha; try done.
    destruct (IH _ eq_refl) as (p' & e' & ? & ?). exists p', e'. split; [by right|done].
  - destruct (Engine.promise_all ps lc) eqn:Ha; try done.
    destruct (IH _ eq_refl) as (p' & e' & ? & ?). exists p', e'. split; [by right|done].
  - exists p, e0. split; [left|done].
Qed.


(** ** [initialize] *)

Lemma getInstance_ok d i lc g :
  modGuides lc !! d = Some g → is_undefined (g_inst g) = false →
  Guide.getInstance d i lc = (Normal (g_inst g), on_guide d (push_dependent i) lc).
Proof. intros H Hu. unfold Guide.getInstance. by rewrite H, Hu. Qed.

Lemma selectDeps_ok deps i lc :
  (∀ d, d ∈ deps → ∃ g, modGuides lc !! d = Some g ∧ is_undefined (g_inst g) = false) →
  ∃ vs gs', Guide.selectDeps deps i lc = (Normal vs, upd gs' [] lc) ∧
            deps_pushed i deps (modGuides lc) gs'.
Proof.
  revert lc. induction deps as [|d deps IH]; intros lc H; simpl.
  - exists [], (modGuides lc). rewrite upd_id. split; [done|]. split; [done|].
    intros j g Hj. exists (g_dependents g). rewrite with_dependents_id.
    split; [done|]. intros x. split; [by left|]. intros [?|[_ ?]]; [done|].
    by apply elem_of_nil in H0.
  - destruct (H d) as (gd & Hd & Hu); [left|].
    rewrite (getInstance_ok _ _ _ _ Hd Hu).
    destruct (IH (on_guide d (push_dependent i) lc)) as (vs & gs' & -> & Hlen & Hp).
    { intros d' Hd'. destruct (H d') as (g' & Hg' & Hu'); [by right|].
      simpl. destruct (decide (d = d')) as [->|Hne].
      - rewrite list_lookup_alter_eq, Hg'. simpl. eexists; split; [done|]. done.
      - rewrite list_lookup_alter_ne by done. by exists g'. }
    exists (g_inst gd :: vs), gs'. split.
    { done. }
    simpl in Hlen. rewrite length_alter in Hlen. split; [done|].
    intros j g Hj. simpl in Hp.
    destruct (decide (d = j)) as [->|Hne].
    + destruct (Hp j (push_dependent i g)) as (l & Hl & Hx).
      { by rewrite list_lookup_alter_eq, Hj. }
      exists l. split; [done|]. intros x. rewrite Hx. simpl.
      rewrite elem_of_app, list_elem_of_singleton, elem_of_cons. intuition auto.
    + destruct (Hp j g) as (l & Hl & Hx).
      { by rewrite list_lookup_alter_ne. }
      exists l. split; [done|]. intros x. rewrite Hx, elem_of_cons. intuition auto; congruence.
Qed.

Lemma initialize_unconfigured i lc g :
  modGuides lc !! i = Some g → is_undefined (g_cfg g) = true →
  Guide.initialize i lc =
    put i (set_initialize (InitFulfilled (coalesce (g_inst g) VNull)) g) [] lc.
Proof.
  intros H Hu. unfold Guide.initialize. rewrite H, Hu. simpl.
  by rewrite (on_guide_put _ _ _ _ H).
Qed.

Lemma initialize_configured i lc g :
  modGuides lc !! i = Some g → is_undefined (g_cfg g) = false →
  (∀ d, d ∈ g_depMap g →
     ∃ gd, modGuides lc !! d = Some gd ∧ is_undefined (g_inst gd) = false) →
  ∃ gs' msg,
    Guide.initialize i lc = upd gs' [Logged Info msg; Called ModInitialize i] lc ∧
    length gs' = length (modGuides lc) ∧
    ∀ j gj, modGuides lc !! j = Some gj →
      ∃ l, gs' !! j = Some (g_initializing i j l gj) ∧
           ∀ x, x ∈ l ↔ x ∈ g_dependents gj ∨ (x = i ∧ j ∈ g_depMap g).
Proof.
  intros H Hu Hd. unfold Guide.initialize. rewrite H, Hu. simpl.
  set (lc1 := logger_info _ _).
  destruct (selectDeps_ok (g_depMap g) i lc1) as (vs & gs1 & -> & Hlen & Hp).
  { intros d Hin. destruct (Hd d Hin) as (gd & Hgd & Hud).
    subst lc1. simpl. destruct (decide (i = d)) as [->|Hne].
    - rewrite list_lookup_alter_eq, Hgd. simpl. by eexists.
    - rewrite list_lookup_alter_ne by done. by eexists. }
  exists (alter (set_initialize InitAwaiting) i gs1). eexists. split; [|split].
  - subst lc1. unfold logger_info, emit, on_guide, upd, set_modGuides; simpl.
    f_equal. by rewrite app_nil_r, <- app_assoc.
  - rewrite length_alter, Hlen. subst lc1. simpl. by rewrite length_alter.
  - intros j gj Hj. unfold g_initializing. subst lc1. simpl in Hp.
    destruct (decide (j = i)) as [->|Hne].
    + destruct (Hp i (set_state s_initializing gj)) as (l & Hl & Hx).
      { by rewrite list_lookup_alter_eq, Hj. }
      exists l. rewrite list_lookup_alter_eq, Hl. done.
    + destruct (Hp j gj) as (l & Hl & Hx).
      { by rewrite list_lookup_alter_ne. }
      exists l. rewrite list_lookup_alter_ne by done. done.
Qed.

(** ** [changePhase] *)

Lemma changePhase_free newPhase lc :
  ∃ msg, Engine.changePhase newPhase None lc =
         (Normal (), emit (Logged Info msg) (set_phase newPhase lc)).
Proof. by eexists. Qed.

Lemma changePhase_allowed newPhase allowed lc :
  existsb (Phase_eqb (phase lc)) allowed = true →
  ∃ msg, Engine.changePhase newPhase (Some allowed) lc =
         (Normal (), emit (Logged Info msg) (set_phase newPhase lc)).
Proof. intros H. unfold Engine.changePhase. rewrite H. by eexists. Qed.

Lemma changePhase_refused newPhase allowed lc :
  existsb (Phase_eqb (phase lc)) allowed = false →
  ∃ e msg, code e = "phase.incorrect"%string ∧
    Engine.changePhase newPhase (Some allowed) lc = (Throw e, emit (Logged Error msg) lc).
Proof.
  intros H. unfold Engine.changePhase. rewrite H. simpl.
  do 2 eexists. split; [|reflexivity]. done.
Qed.

Lemma Phase_eqb_eq a b : Phase_eqb a b = true ↔ a = b.
Proof. destruct a, b; simpl; split; congruence. Qed.

(** ** Transfer of the invariant's parts between closures *)

Lemma grows_back lc lc' j g' :
  grows lc lc' → modGuides lc' !! j = Some g' →
  ∃ g, modGuides lc !! j = Some g ∧
      (init_called g → init_called g') ∧
      (∀ v, g_initialize g = InitFulfilled v → g_initialize g' = InitFulfilled v) ∧
      (fin_settled g → fin_settled g').
Proof.
  intros [Hlen Hg] Hj.
  destruct (lookup_lt_is_Some_2 (modGuides lc) j) as [g Hl].
  { rewrite <- Hlen. by eapply lookup_lt_Some. }
  exists g. split; [done|].
  destruct (Hg j g Hl) as (g'' & Hl' & ?). by simplify_eq.
Qed.

Lemma grows_put i g g' evs lc :
  modGuides lc !! i = Some g →
  (init_called g → init_called g') →
  (∀ v, g_initialize g = InitFulfilled v → g_initialize g' = InitFulfilled v) →
  (fin_settled g → fin_settled g') →
  grows lc (put i g' evs lc).
Proof.
  intros H H1 H2 H3. split; [apply length_put|].
  intros j gj Hj. destruct (decide (i = j)) as [->|Hne].
  - exists g'. erewrite lookup_put_eq by done. by simplify_eq.
  - exists gj. rewrite lookup_put_ne by done. done.
Qed.

Section Transfer.
Variable rs : list Registration.

Lemma guide_ok_grows lc lc' i g :
  grows lc lc' →
  (∀ f, f ≠ GuideConfigure → calls f i lc' = calls f i lc) →
  guide_ok rs lc i g → guide_ok rs lc' i g.
Proof.
  intros Hg Hc
    [gk_static gk_dependents gk_earlier gk_init gk_fin gk_wait gk_ordered
     gk_init_calls gk_fin_calls gk_falsy].
  constructor; try done.
  - intros d Hd. destruct (gk_dependents d Hd) as (? & gd & Hgd & ?).
    split; [done|]. destruct Hg as [_ Hg].
    destruct (Hg d gd Hgd) as (gd' & ? & ? & _). exists gd'. auto.
  - intros Hi j Hj. destruct (gk_earlier Hi j Hj) as (gj & v & Hgj & Hv & Ht).
    destruct Hg as [_ Hg].
    destruct (Hg j gj Hgj) as (gj' & ? & _ & Hf & _). exists gj', v. auto.
  - intros Hw d Hd. destruct (gk_wait Hw d Hd) as (gd & Hgd & Hs).
    destruct Hg as [_ Hg].
    destruct (Hg d gd Hgd) as (gd' & ? & _ & _ & Hf). exists gd'. auto.
  - intros Ho Hi j gj' Hj Hl.
    destruct (grows_back _ _ _ _ Hg Hl) as (gj & Hgj & _ & _ & Hf).
    apply Hf. by eapply gk_ordered.
  - by rewrite !Hc.
  - by rewrite !Hc.
  - intros Hf. rewrite Hc by done. by apply gk_falsy.
Qed.

Lemma calls_put_other f j i g evs lc :
  (∀ f, calls_in f j evs = 0) → calls f j (put i g evs lc) = calls f j lc.
Proof. intros H. rewrite calls_put, H. lia. Qed.
End Transfer.

(** ** The control predicates under an update of one guide *)

Lemma none_issued_put i g' evs lc :
  none_issued lc → g_finalizationPromise g' = None →
  none_issued (put i g' evs lc).
Proof.
  intros H Hn j gj Hj. simpl in Hj.
  destruct (decide (i = j)) as [->|Hne].
  - apply list_lookup_insert_Some in Hj as [(_ & <- & _)|[? _]]; done.
  - rewrite list_lookup_insert_ne in Hj by done. by eapply H.
Qed.

Lemma not_started_put i g' evs lc :
  not_started lc → g_initialize g' = InitNotCalled → g_dependents g' = [] →
  not_started (put i g' evs lc).
Proof.
  intros H Hn Hd j gj Hj. simpl in Hj.
  destruct (decide (i = j)) as [->|Hne].
  - apply list_lookup_insert_Some in Hj as [(_ & <- & _)|[? _]]; done.
  - rewrite list_lookup_insert_ne in Hj by done. by eapply H.
Qed.

Lemma none_awaiting_put i g' evs lc :
  none_awaiting lc → g_initialize g' ≠ InitAwaiting →
  none_awaiting (put i g' evs lc).
Proof.
  intros H Hn j gj Hj. simpl in Hj.
  destruct (decide (i = j)) as [->|Hne].
  - apply list_lookup_insert_Some in Hj as [(_ & <- & _)|[? _]]; done.
  - rewrite list_lookup_insert_ne in Hj by done. by eapply H.
Qed.

Lemma start_done_put i g' evs lc :
  start_done lc → g_initialize g' ≠ InitAwaiting → start_done (put i g' evs lc).
Proof.
  intros (? & ? & ?) Hn. split; [done|]. split; [|done].
  by apply none_awaiting_put.
Qed.

Lemma awaiting_at_put i k g g' evs lc :
  modGuides lc !! i = Some g →
  awaiting_at lc k →
  (init_called g → init_called g') →
  (g_initialize g' = InitAwaiting → g_initialize g = InitAwaiting) →
  (g_initialize g = InitNotCalled → g_initialize g' = InitNotCalled) →
  awaiting_at (put i g' evs lc) k.
Proof.
  intros Hi ((gk & Hk & Hc) & Ha & Hn) H1 H2 H3. split; [|split].
  - destruct (decide (i = k)) as [->|Hne].
    + exists g'. erewrite lookup_put_eq by done. split; [done|].
      apply H1. by simplify_eq.
    + exists gk. by rewrite lookup_put_ne.
  - intros j gj Hj Hw. destruct (lookup_put _ _ _ _ _ _ _ Hi Hj) as [[-> ->]|[? ?]].
    + eapply Ha; [done|]. by apply H2.
    + by eapply Ha.
  - intros j gj Hlt Hj. destruct (lookup_put _ _ _ _ _ _ _ Hi Hj) as [[-> ->]|[? ?]].
    + apply H3. by eapply Hn.
    + by eapply Hn.
Qed.

Lemma pass_ok_put_same i g g' evs lc k proms :
  modGuides lc !! i = Some g →
  g_finalizationPromise g' = g_finalizationPromise g →
  pass_ok lc k proms → pass_ok (put i g' evs lc) k proms.
Proof.
  intros Hi Hf (Hiss & b & head & Hb & Hpr & Hh).
  assert (Hsame : ∀ j gj, modGuides (put i g' evs lc) !! j = Some gj →
            ∃ gj0, modGuides lc !! j = Some gj0 ∧
                   g_finalizationPromise gj = g_finalizationPromise gj0).
  { intros j gj Hj. destruct (lookup_put _ _ _ _ _ _ _ Hi Hj) as [[-> ->]|[? ?]];
      eauto. }
  split.
  - intros j gj Hj. destruct (Hsame j gj Hj) as (gj0 & H0 & He).
    unfold fin_issued. rewrite He. by apply Hiss.
  - exists b, head. rewrite length_put. split; [done|]. split; [done|].
    destruct Hh as [?|(ok & ? & Hs & Hok)]; [by left|right].
    exists ok. split; [done|]. split.
    + intros j gj Hbj Hj. destruct (Hsame j gj Hj) as (gj0 & H0 & He).
      unfold fin_settled. rewrite He. by eapply Hs.
    + rewrite Hok. split.
      * intros Hall j gj Hbj Hj. destruct (Hsame j gj Hj) as (gj0 & H0 & He).
        unfold fin_succeeded. rewrite He. by eapply Hall.
      * intros Hall j gj Hbj Hj.
        destruct (decide (i = j)) as [->|Hne].
        -- simplify_eq. unfold fin_succeeded. rewrite <- Hf.
           eapply Hall; [done|]. by eapply lookup_put_eq.
        -- eapply Hall; [done|]. by rewrite lookup_put_ne.
Qed.

(** ** Where the engine is, from what a guide is doing *)

Section Preservation.
Variable rs : list Registration.
Hypothesis wf : well_formed rs.

(** A guide suspended in [initialize()] is the one [start] awaits. *)
Lemma awaiting_mode lc i g :
  ctl_ok lc → modGuides lc !! i = Some g → g_initialize g = InitAwaiting →
  none_issued lc ∧ stopped_ lc = None ∧ startPromise lc = Pending ∧
  awaiting_at lc i ∧ (∃ o, startAct lc = StartAwaiting i o) ∧
  ((phase lc = p_starting ∧ interruptStart lc = None ∧ stopAct lc = StopIdle) ∨
   (phase lc = p_stopping ∧ interruptStart lc = Some Unresolved ∧
    stopAct lc = StopAwaitingInterrupt)).
Proof.
  intros Hc Hi Ha. unfold ctl_ok in Hc.
  assert (Hna : ¬ none_awaiting lc) by (intros Hn; by eapply Hn).
  assert (Hns : ¬ not_started lc).
  { intros Hn. destruct (Hn i g Hi) as [Hx _]. congruence. }
  assert (Hsd : ¬ start_done lc) by (intros (_ & ? & _); done).
  assert (Hat : ∀ k, awaiting_at lc k → k = i).
  { intros k (_ & Hk & _). symmetry. by eapply Hk. }
  destruct (phase lc) eqn:Hp; try (by destruct Hc as (_ & _ & _ & _ & _ & ? & _));
    try (by destruct Hc as (? & _)); try (by destruct Hc as (_ & ? & _)).
  - destruct Hc as ((k & o & Hs & Hk) & ? & ? & ? & ? & ?).
    pose proof (Hat k Hk) as ->.
    do 4 (split; [done|]). split; [eauto|]. by left.
  - destruct Hc as (? & Hc). destruct (stopAct lc) eqn:Hst; try done.
    + destruct Hc as (? & Hc). destruct (interruptStart lc) as [[]|] eqn:Hint; try done.
      destruct Hc as ((k & o & Hs & Hk) & ?).
      pose proof (Hat k Hk) as ->.
      do 4 (split; [done|]). split; [eauto|]. by right.
    + by destruct Hc as (? & _).
    + by destruct Hc as (? & _).
Qed.

Lemma settle_initialize_guide lc i o g evs :
  ginv rs lc → modGuides lc !! i = Some g → g_initialize g = InitAwaiting →
  g_finalizationPromise g = None →
  (∀ f j, calls_in f j evs = 0) →
  guide_ok rs (put i (g_settled o g) evs lc) i (g_settled o g).
Proof.
  intros Hinv Hi Ha Hfp Hev.
  destruct (inv_guides _ _ Hinv i g Hi)
    as [gk_static gk_dependents gk_earlier gk_init gk_fin gk_wait gk_ordered
     gk_init_calls gk_fin_calls gk_falsy].
  constructor.
  - by destruct o.
  - intros d Hd. assert (d ∈ g_dependents g) as Hd' by (by destruct o).
    destruct (gk_dependents d Hd') as (Hlt & gd & Hgd & Hc).
    split; [done|]. exists gd. rewrite lookup_put_ne by lia. done.
  - intros _ j Hj. destruct gk_earlier with (j := j) as (gj & v & ? & ? & ?);
      [unfold init_called; congruence|done|].
    exists gj, v. rewrite lookup_put_ne by lia. done.
  - by destruct o.
  - assert (g_finalizationPromise (g_settled o g) = None) as -> by (by destruct o).
    by destruct o.
  - intros [Hw|[ok Hw]]; destruct o; simpl in Hw; congruence.
  - intros _ Hiss. exfalso. apply Hiss. by destruct o.
  - rewrite calls_put, Hev, Nat.add_0_r. split; [apply gk_init_calls|].
    by destruct o.
  - rewrite calls_put, Hev, Nat.add_0_r. split; [apply gk_fin_calls|].
    intros _. apply gk_fin_calls. by left.
  - intros _. rewrite calls_put, Hev, Nat.add_0_r. apply gk_fin_calls. by left.
Qed.

(** The invariant of the guides after an update of one guide. *)
Lemma ginv_put lc i g g' evs :
  ginv rs lc → modGuides lc !! i = Some g →
  (init_called g → init_called g') →
  (∀ v, g_initialize g = InitFulfilled v → g_initialize g' = InitFulfilled v) →
  (fin_settled g → fin_settled g') →
  (∀ f j, f ≠ GuideConfigure → j ≠ i → calls_in f j evs = 0) →
  guide_ok rs (put i g' evs lc) i g' →
  ginv rs (put i g' evs lc).
Proof.
  intros Hinv Hi H1 H2 H3 Hev Hg. constructor.
  - rewrite length_put. apply Hinv.
  - intros j gj Hj. destruct (lookup_put _ _ _ _ _ _ _ Hi Hj) as [[-> ->]|[Hne Hl]].
    + done.
    + eapply guide_ok_grows; [by eapply grows_put| |by apply Hinv].
      intros f Hf. rewrite calls_put, Hev by done. lia.
  - intros j f Hj Hf. rewrite length_put in Hj.
    rewrite calls_put, Hev; [|done|].
    + rewrite Nat.add_0_r. by apply Hinv.
    + apply lookup_lt_Some in Hi. lia.
Qed.

(** The invariant of the guides after a change of the engine's own
    variables. *)
Lemma ginv_ext lc lc' :
  modGuides lc' = modGuides lc →
  (∀ f i, f ≠ GuideConfigure → calls f i lc' = calls f i lc) →
  ginv rs lc → ginv rs lc'.
Proof.
  intros Hm Hcalls Hinv. constructor.
  - rewrite Hm. apply Hinv.
  - intros j gj Hj. rewrite Hm in Hj.
    eapply guide_ok_grows; [|by auto|by apply Hinv].
    split; [by rewrite Hm|]. intros k gk Hk. exists gk. by rewrite Hm.
  - intros j f Hj Hf. rewrite Hm in Hj. rewrite Hcalls by done. by apply Hinv.
Qed.

Lemma inv_settle_initialize lc i o g lvl msg :
  inv rs lc → modGuides lc !! i = Some g → g_initialize g = InitAwaiting →
  inv rs (put i (g_settled o g) [Logged lvl msg] lc).
Proof.
  intros [Hinv Hctl] Hi Ha.
  destruct (awaiting_mode lc i g Hctl Hi Ha)
    as (Hni & Hst & Hsp & Hat & (so & Hso) & Hmode).
  assert (Hfp : g_finalizationPromise (g_settled o g) = None).
  { rewrite <- (Hni i g Hi). by destruct o. }
  assert (Hat' : awaiting_at (put i (g_settled o g) [Logged lvl msg] lc) i).
  { eapply awaiting_at_put; [done|done|..].
    - by destruct o.
    - by destruct o.
    - intros Hn. congruence. }
  split.
  - eapply ginv_put; try done.
    + by destruct o.
    + intros v Hv. congruence.
    + intros [ok Hok]. rewrite (Hni i g Hi) in Hok. done.
    + apply settle_initialize_guide; try done. by eapply Hni.
  - unfold ctl_ok. simpl.
    destruct Hmode as [(-> & -> & ->)|(-> & -> & ->)].
    + split; [eauto|]. do 4 (split; [done|]). by apply none_issued_put.
    + split; [done|]. split; [by apply none_issued_put|]. eauto.
Qed.

(** A guide with dependents has a truthy instance: a dependent was
    initialized only after the guide's [initialize()] gave one. *)
Lemma dependents_truthy lc i g d :
  ginv rs lc → modGuides lc !! i = Some g → d ∈ g_dependents g →
  truthy (g_inst g) = true.
Proof.
  intros Hinv Hi Hd.
  destruct (gk_dependents _ _ _ _ (inv_guides _ _ Hinv i g Hi) d Hd)
    as (Hlt & gd & Hgd & Hc).
  destruct (gk_earlier _ _ _ _ (inv_guides _ _ Hinv d gd Hgd) Hc i Hlt)
    as (gi & v & Hgi & Hv & Ht).
  simplify_eq.
  pose proof (gk_init _ _ _ _ (inv_guides _ _ Hinv i g Hi)) as Hin.
  rewrite Hv in Hin. subst v. unfold coalesce in Ht.
  by destruct (nullish (g_inst g)).
Qed.

(** A guide whose finalization is under way places the engine in the
    finalize pass. *)
Lemma pending_mode lc i g :
  ctl_ok lc → modGuides lc !! i = Some g → fin_issued g → ¬ fin_settled g →
  phase lc = p_stopping ∧ stopped_ lc = None ∧ start_done lc ∧
  ((∃ k rest proms, stopAct lc = StopAwaitingBarrier k rest proms ∧
      rest = rev (seq 0 k) ∧ k < length (modGuides lc) ∧ pass_ok lc (S k) proms) ∨
   (∃ proms, stopAct lc = StopAwaitingAll proms ∧ pass_ok lc 0 proms)).
Proof.
  intros Hc Hi Hiss Hns. unfold ctl_ok in Hc.
  assert (Hni : ¬ none_issued lc) by (intros Hn; apply Hiss; by eapply Hn).
  destruct (phase lc) eqn:Hp;
    try (by destruct Hc as (_ & _ & _ & _ & _ & _ & ?)).
  - by destruct Hc as (_ & _ & _ & _ & _ & ?).
  - by destruct Hc as (_ & _ & _ & _ & ?).
  - by destruct Hc as (_ & _ & _ & _ & ?).
  - destruct Hc as (? & Hc). destruct (stopAct lc) eqn:Hst; try done.
    + by destruct Hc as (? & _).
    + destruct Hc as (? & ? & ? & ?). do 3 (split; [done|]). left. eauto 10.
    + destruct Hc as (? & ?). do 3 (split; [done|]). right. eauto.
  - destruct Hc as (_ & _ & ok & _ & _ & Hs & _). exfalso. by eapply Hns, Hs.
  - destruct Hc as (_ & _ & ok & _ & _ & Hs & _). exfalso. by eapply Hns, Hs.
Qed.

(** The pass after an issued, unsettled guide has moved on. *)
Lemma pass_ok_advance i g g' evs lc k proms :
  modGuides lc !! i = Some g →
  fin_issued g → ¬ fin_settled g → fin_issued g' →
  pass_ok lc k proms → pass_ok (put i g' evs lc) k proms.
Proof.
  intros Hi Hiss Hns Hiss' (Hk & b & head & Hb & Hpr & Hh). split.
  - intros j gj Hj. destruct (lookup_put _ _ _ _ _ _ _ Hi Hj) as [[-> ->]|[? ?]].
    + split; [|done]. intros _. by apply (Hk i g).
    + by apply Hk.
  - exists b, head. rewrite length_put. split; [done|]. split; [done|].
    destruct Hh as [?|(ok & ? & Hs & Hok)]; [by left|right].
    assert (Hib : ¬ b ≤ i) by (intros Hbi; by eapply Hns, Hs).
    exists ok. split; [done|]. split.
    + intros j gj Hbj Hj. rewrite lookup_put_ne in Hj by lia. by eapply Hs.
    + rewrite Hok. split; intros Hall j gj Hbj Hj.
      * rewrite lookup_put_ne in Hj by lia. by eapply Hall.
      * eapply Hall; [done|]. by rewrite lookup_put_ne by lia.
Qed.

(** The guide after [await finalize()...] has given [ok]. *)
Lemma finish_guide lc i ok g evs :
  ginv rs lc → modGuides lc !! i = Some g →
  g_finalizationPromise g = Some FinAwaitingCallback →
  (∀ f j, calls_in f j evs = 0) →
  guide_ok rs (put i (g_finish ok g) evs lc) i (g_finish ok g).
Proof.
  intros Hinv Hi Hfp Hev.
  destruct (inv_guides _ _ Hinv i g Hi)
    as [gk_static gk_dependents gk_earlier gk_init gk_fin gk_wait gk_ordered
     gk_init_calls gk_fin_calls gk_falsy].
  rewrite Hfp in gk_fin. destruct gk_fin as (Hst & Htr & Hfn).
  constructor; simpl; try done.
  - intros d Hd. destruct (gk_dependents d Hd) as (Hlt & gd & Hgd & Hc).
    split; [done|]. exists gd. rewrite list_lookup_insert_ne by lia. done.
  - intros Hc j Hj. destruct (gk_earlier Hc j Hj) as (gj & v & ? & ? & ?).
    exists gj, v. rewrite list_lookup_insert_ne by lia. done.
  - by left.
  - intros _ d Hd. destruct (gk_wait (or_introl Hfp) d Hd) as (gd & Hgd & Hs).
    destruct (gk_dependents d Hd) as (Hlt & _).
    exists gd. rewrite list_lookup_insert_ne by lia. done.
  - intros Ho _ j gj Hlt Hj. rewrite list_lookup_insert_ne in Hj by lia.
    eapply gk_ordered; try done. unfold fin_issued. by rewrite Hfp.
  - rewrite calls_put, Hev, Nat.add_0_r. done.
  - rewrite calls_put, Hev, Nat.add_0_r. split; [apply gk_fin_calls|].
    intros [?|?]; done.
  - intros Hx. congruence.
Qed.

Lemma inv_settle_finalize lc i o g msg :
  inv rs lc → modGuides lc !! i = Some g →
  g_finalizationPromise g = Some FinAwaitingCallback →
  inv rs (put i (g_finish (Guide.finalizationResult o) g) [Logged Info msg] lc).
Proof.
  intros [Hinv Hctl] Hi Hfp.
  assert (Hiss : fin_issued g) by (unfold fin_issued; congruence).
  assert (Hns : ¬ fin_settled g) by (intros [ok Hok]; congruence).
  destruct (pending_mode lc i g Hctl Hi Hiss Hns) as (Hph & Hst & Hsd & Hmode).
  assert (Hsd' : ∀ evs, start_done (put i (g_finish (Guide.finalizationResult o) g) evs lc)).
  { intros evs. apply start_done_put; [done|]. simpl.
    destruct Hsd as (_ & Hna & _). by eapply Hna. }
  split.
  - eapply ginv_put; try done.
    by apply finish_guide.
  - unfold ctl_ok. simpl. rewrite Hph. split; [done|].
    destruct Hmode as [(k & rest & proms & -> & ? & ? & ?)|(proms & -> & ?)].
    + split; [by apply Hsd'|]. split; [done|].
      rewrite length_insert. split; [done|].
      by eapply (pass_ok_advance i g).
    + split; [by apply Hsd'|].
      by eapply (pass_ok_advance i g).
Qed.

Lemma finalize_calls_other f j i b : j ≠ i → finalize_calls f j i b = 0.
Proof.
  intros Hne. unfold finalize_calls. destruct f; try done.
  destruct (Nat.eqb_spec j i); [done|]. by rewrite andb_false_r.
Qed.

Lemma finalize_calls_init j i b : finalize_calls ModInitialize j i b = 0.
Proof. done. Qed.

Lemma finalize_calls_le f j i b : finalize_calls f j i b ≤ 1.
Proof. unfold finalize_calls. destruct f; try lia. case_match; lia. Qed.

(** The guide from [state = 'finalizing'] on. *)
Lemma proceed_guide lc i g evs :
  ginv rs lc → modGuides lc !! i = Some g →
  g_finalizationPromise g = None ∨
    g_finalizationPromise g = Some FinAwaitingDependents →
  truthy (g_inst g) = true →
  (∀ d, d ∈ g_dependents g → ∃ gd, modGuides lc !! d = Some gd ∧ fin_settled gd) →
  (is_ordered g = true →
     ∀ j gj, i < j → modGuides lc !! j = Some gj → fin_settled gj) →
  (∀ f j, calls_in f j evs =
            finalize_calls f j i (bool_decide (g_finalize g ≠ None))) →
  guide_ok rs (put i (g_proceed g) evs lc) i (g_proceed g).
Proof.
  intros Hinv Hi Hfp Htr Hdeps Hord Hev.
  destruct (inv_guides _ _ Hinv i g Hi)
    as [gk_static gk_dependents gk_earlier gk_init gk_fin gk_wait gk_ordered
     gk_init_calls gk_fin_calls gk_falsy].
  assert (Hst : ∀ P : ModGuide → Prop,
    P (set_finalizationPromise FinAwaitingCallback (set_state s_finalizing g)) →
    P (g_finish true (set_state s_finalizing g)) → P (g_proceed g)).
  { intros P H1 H2. unfold g_proceed. by destruct (g_finalize g). }
  constructor.
  - by apply Hst.
  - intros d Hd. assert (d ∈ g_dependents g) as Hd'.
    { revert Hd. by apply Hst. }
    destruct (gk_dependents d Hd') as (Hlt & gd & Hgd & Hc).
    split; [done|]. exists gd. rewrite lookup_put_ne by lia. done.
  - intros Hc j Hj. destruct (gk_earlier) with (j := j) as (gj & v & ? & ? & ?);
      [revert Hc; by apply Hst|done|].
    exists gj, v. rewrite lookup_put_ne by lia. done.
  - revert gk_init. by apply Hst.
  - unfold g_proceed. destruct (g_finalize g) eqn:Hfn; simpl.
    + rewrite Hfn. done.
    + by left.
  - intros _ d Hd. assert (d ∈ g_dependents g) as Hd'.
    { revert Hd. by apply Hst. }
    destruct (Hdeps d Hd') as (gd & Hgd & Hs).
    destruct (gk_dependents d Hd') as (Hlt & _).
    exists gd. rewrite lookup_put_ne by lia. done.
  - intros Ho _ j gj Hlt Hj. rewrite lookup_put_ne in Hj by lia.
    eapply Hord; try done. revert Ho. by apply Hst.
  - rewrite calls_put, Hev, finalize_calls_init, Nat.add_0_r.
    split; [apply gk_init_calls|]. intros Hn. apply gk_init_calls.
    revert Hn. by apply Hst.
  - rewrite calls_put, Hev.
    replace (calls ModFinalize i lc) with 0 by (symmetry; by apply gk_fin_calls).
    split; [apply finalize_calls_le|].
    unfold g_proceed. destruct (g_finalize g); simpl; intros [?|?]; done.
  - intros Hx. exfalso. revert Hx. apply Hst; simpl; congruence.
Qed.

Lemma inv_resume_finalize lc i g evs :
  inv rs lc → modGuides lc !! i = Some g →
  g_finalizationPromise g = Some FinAwaitingDependents →
  (∀ d, d ∈ g_dependents g → ∃ gd, modGuides lc !! d = Some gd ∧ fin_settled gd) →
  (∀ f j, calls_in f j evs =
            finalize_calls f j i (bool_decide (g_finalize g ≠ None))) →
  inv rs (put i (g_proceed g) evs lc).
Proof.
  intros [Hinv Hctl] Hi Hfp Hdeps Hev.
  assert (Hiss : fin_issued g) by (unfold fin_issued; congruence).
  assert (Hns : ¬ fin_settled g) by (intros [ok Hok]; congruence).
  destruct (pending_mode lc i g Hctl Hi Hiss Hns) as (Hph & Hst & Hsd & Hmode).
  pose proof (inv_guides _ _ Hinv i g Hi) as Hg.
  assert (Htr : truthy (g_inst g) = true).
  { pose proof (gk_fin _ _ _ _ Hg) as Hf. rewrite Hfp in Hf. apply Hf. }
  assert (Hiss' : fin_issued (g_proceed g)).
  { unfold g_proceed, fin_issued. by destruct (g_finalize g). }
  assert (Hin : g_initialize (g_proceed g) = g_initialize g).
  { unfold g_proceed. by destruct (g_finalize g). }
  assert (Hsd' : start_done (put i (g_proceed g) evs lc)).
  { apply start_done_put; [done|]. rewrite Hin.
    destruct Hsd as (_ & Hna & _). by eapply Hna. }
  split.
  - eapply ginv_put; try done.
    + unfold init_called. by rewrite Hin.
    + by rewrite Hin.
    + intros f j _ Hne. by rewrite Hev, finalize_calls_other.
    + apply proceed_guide; auto.
      intros Ho j gj Hlt Hj. by eapply (gk_ordered _ _ _ _ Hg).
  - unfold ctl_ok. simpl. rewrite Hph. split; [done|].
    destruct Hmode as [(k & rest & proms & -> & ? & ? & ?)|(proms & -> & ?)].
    + split; [done|]. split; [done|].
      rewrite length_insert. split; [done|].
      by eapply (pass_ok_advance i g).
    + split; [done|].
      by eapply (pass_ok_advance i g).
Qed.

(** A guide whose finalization moved, all else being as it was. *)
Lemma guide_ok_update lc i g g' evs :
  ginv rs lc → modGuides lc !! i = Some g →
  g_name g' = g_name g → g_mod g' = g_mod g → g_depMap g' = g_depMap g →
  g_dependents g' = g_dependents g → g_initialize g' = g_initialize g →
  g_inst g' = g_inst g → g_finalize g' = g_finalize g →
  match g_finalizationPromise g' with
  | None => in_finalization (g_state g') = false
  | Some FinAwaitingDependents =>
      g_state g' = s_awaiting_finalization ∧ truthy (g_inst g') = true
  | Some FinAwaitingCallback =>
      g_state g' = s_finalizing ∧ truthy (g_inst g') = true ∧ g_finalize g' ≠ None
  | Some (FinFulfilled ok) =>
      (truthy (g_inst g') = true ∧
       g_state g' = if ok then s_finalized else s_finalization_failed) ∨
      (truthy (g_inst g') = false ∧ ok = true ∧ in_finalization (g_state g') = false)
  | Some (FinRejected _) => False
  end →
  (g_finalizationPromise g' = Some FinAwaitingCallback ∨ fin_settled g' →
   ∀ d, d ∈ g_dependents g → ∃ gd, modGuides lc !! d = Some gd ∧ fin_settled gd) →
  (is_ordered g = true → fin_issued g' →
   ∀ j gj, i < j → modGuides lc !! j = Some gj → fin_settled gj) →
  (∀ j, calls_in ModInitialize j evs = 0) →
  calls ModFinalize i lc + calls_in ModFinalize i evs ≤ 1 →
  (g_finalizationPromise g' = None ∨
   g_finalizationPromise g' = Some FinAwaitingDependents →
   calls ModFinalize i lc + calls_in ModFinalize i evs = 0) →
  (truthy (g_inst g') = false →
   calls ModFinalize i lc + calls_in ModFinalize i evs = 0) →
  guide_ok rs (put i g' evs lc) i g'.
Proof.
  intros Hinv Hi Hn Hm Hdm Hd Hin Hinst Hfn Hfin Hwait Hord Hci Hcf1 Hcf2 Hcf3.
  destruct (inv_guides _ _ Hinv i g Hi)
    as [gk_static gk_dependents gk_earlier gk_init gk_fin gk_wait gk_ordered
     gk_init_calls gk_fin_calls gk_falsy].
  constructor.
  - by rewrite Hn, Hm, Hdm.
  - intros d Hd'. rewrite Hd in Hd'.
    destruct (gk_dependents d Hd') as (Hlt & gd & Hgd & Hc).
    split; [done|]. exists gd. rewrite lookup_put_ne by lia. done.
  - unfold init_called. rewrite Hin. intros Hc j Hj.
    destruct (gk_earlier Hc j Hj) as (gj & v & ? & ? & ?).
    exists gj, v. rewrite lookup_put_ne by lia. done.
  - by rewrite Hin, Hinst, Hfn.
  - done.
  - intros Hw d Hd'. rewrite Hd in Hd'.
    destruct (Hwait Hw d Hd') as (gd & Hgd & Hs).
    destruct (gk_dependents d Hd') as (Hlt & _).
    exists gd. rewrite lookup_put_ne by lia. done.
  - intros Ho Hiss j gj Hlt Hj. rewrite lookup_put_ne in Hj by lia.
    eapply Hord; try done. unfold is_ordered, Guide.getOptions in *.
    by rewrite <- Hm.
  - rewrite calls_put, Hci, Nat.add_0_r, Hin. done.
  - by rewrite calls_put.
  - by rewrite calls_put.
Qed.

(** [finalize()] of a guide not yet finalizing, in the finalize pass:
    every later guide's [finalize()] has been called. *)
Lemma finalize_issue lc i g :
  ginv rs lc → modGuides lc !! i = Some g →
  g_finalizationPromise g = None →
  (∀ j gj, i < j → modGuides lc !! j = Some gj → fin_issued gj) →
  (is_ordered g = true →
     ∀ j gj, i < j → modGuides lc !! j = Some gj → fin_settled gj) →
  ∃ g' evs, Guide.finalize i lc = put i g' evs lc ∧
    fin_issued g' ∧ fin_moved g g' ∧
    ginv rs (put i g' evs lc).
Proof.
  intros Hinv Hi Hfp Hlater Hord.
  assert (Hns : ¬ fin_settled g) by (intros [ok Hok]; congruence).
  pose proof (inv_guides _ _ Hinv i g Hi) as Hg.
  destruct (finalize_put i lc g Hi Hfp) as (evs & Hfin & Hev).
  { intros d Hd. destruct (gk_dependents _ _ _ _ Hg d Hd) as (Hlt & _).
    split; [lia|]. intros gd Hgd. by eapply Hlater. }
  exists (g_finalize_called g), evs. split; [done|].
  assert (Hc0 : calls ModFinalize i lc = 0).
  { apply (gk_fin_calls _ _ _ _ Hg). by left. }
  assert (Hfn0 : in_finalization (g_state g) = false).
  { pose proof (gk_fin _ _ _ _ Hg) as Hf. by rewrite Hfp in Hf. }
  unfold g_finalize_called in *.
  destruct (truthy (g_inst g)) eqn:Htr; simpl in *.
  - destruct (g_dependents g) as [|d0 ds] eqn:Hds.
    + assert (Hiss : fin_issued (g_proceed g)).
      { unfold g_proceed, fin_issued. by destruct (g_finalize g). }
      assert (Hin : g_initialize (g_proceed g) = g_initialize g).
      { unfold g_proceed. by destruct (g_finalize g). }
      split; [done|]. split.
      { unfold g_proceed. destruct (g_finalize g); by repeat split. }
      eapply ginv_put; try done.
      * unfold init_called. by rewrite Hin.
      * by rewrite Hin.
      * intros f j _ Hne. by rewrite Hev, finalize_calls_other.
      * apply proceed_guide; auto.
        rewrite Hds. intros d Hd. by apply elem_of_nil in Hd.
    + split; [unfold fin_issued; done|]. split; [by repeat split|].
      eapply ginv_put; try done.
      * intros f j _ Hne. by rewrite Hev, finalize_calls_other.
      * eapply guide_ok_update; try done; simpl.
        -- intros [?|[ok ?]]; done.
        -- intros Ho _. by apply Hord.
        -- rewrite Hev, Hc0. simpl. lia.
        -- intros _. rewrite Hev, Hc0. done.
        -- intros Hx. congruence.
  - split; [unfold fin_issued; done|]. split; [by repeat split|].
    eapply ginv_put; try done.
    + intros f j _ Hne. by rewrite Hev, finalize_calls_other.
    + eapply guide_ok_update; try done; simpl.
      * by right.
      * intros _ d Hd. pose proof (dependents_truthy lc i g d Hinv Hi Hd). congruence.
      * intros Ho _. by apply Hord.
      * rewrite Hev, Hc0. simpl. lia.
      * intros [?|?]; done.
      * intros _. rewrite Hev, Hc0. done.
Qed.

Lemma pass_ok_issue i g g' evs lc proms :
  modGuides lc !! i = Some g → fin_issued g' →
  pass_ok lc (S i) proms →
  pass_ok (put i g' evs lc) i (proms ++ [PGuide i]).
Proof.
  intros Hi Hiss (Hk & b & head & Hb & Hpr & Hh). split.
  - intros j gj Hj. destruct (lookup_put _ _ _ _ _ _ _ Hi Hj) as [[-> ->]|[? ?]].
    + split; [lia|done].
    + rewrite (Hk j gj) by done. lia.
  - exists b, head. rewrite length_put. split; [lia|]. split.
    + rewrite Hpr, <- app_assoc. f_equal.
      replace (b - i) with (S (b - S i)) by lia.
      simpl. by rewrite map_app.
    + destruct Hh as [?|(ok & ? & Hs & Hok)]; [by left|right].
      exists ok. split; [done|]. split.
      * intros j gj Hbj Hj. rewrite lookup_put_ne in Hj by lia. by eapply Hs.
      * rewrite Hok. split; intros Hall j gj Hbj Hj.
        -- rewrite lookup_put_ne in Hj by lia. by eapply Hall.
        -- eapply Hall; [done|]. by rewrite lookup_put_ne by lia.
Qed.

Lemma fin_moved_refl g : fin_moved g g.
Proof. by repeat split. Qed.

Lemma fin_moved_trans g1 g2 g3 : fin_moved g1 g2 → fin_moved g2 g3 → fin_moved g1 g3.
Proof.
  intros (? & ? & ? & ? & ? & ? & ? & ? & ? & ? & H12)
         (? & ? & ? & ? & ? & ? & ? & ? & ? & ? & H23).
  do 9 (split; [congruence|]). split; [auto|].
  intros Hs. rewrite <- (H12 Hs). apply H23. by rewrite (H12 Hs).
Qed.

Lemma same_start_refl lc : same_start lc lc.
Proof. do 6 (split; [done|]). intros j g Hj. exists g. split; [done|apply fin_moved_refl]. Qed.

Lemma same_start_trans lc1 lc2 lc3 :
  same_start lc1 lc2 → same_start lc2 lc3 → same_start lc1 lc3.
Proof.
  intros (? & ? & ? & ? & ? & ? & H12) (? & ? & ? & ? & ? & ? & H23).
  do 6 (split; [congruence|]).
  intros j g3 Hj. destruct (H23 j g3 Hj) as (g2 & Hg2 & ?).
  destruct (H12 j g2 Hg2) as (g1 & ? & ?). exists g1. split; [done|].
  by eapply fin_moved_trans.
Qed.

Lemma same_start_put lc i g g' evs :
  modGuides lc !! i = Some g → fin_moved g g' →
  same_start lc (put i g' evs lc).
Proof.
  intros Hi Hin. do 5 (split; [done|]). split; [apply length_put|].
  intros j gj Hj. destruct (lookup_put _ _ _ _ _ _ _ Hi Hj) as [[-> ->]|[? ?]].
  - eauto.
  - exists gj. split; [done|apply fin_moved_refl].
Qed.

(** A change of the engine's log and of the activation of [stop]. *)
Lemma same_start_ctl lc lc' :
  modGuides lc' = modGuides lc → phase lc' = phase lc →
  interruptStart lc' = interruptStart lc → stopped_ lc' = stopped_ lc →
  startAct lc' = startAct lc → startPromise lc' = startPromise lc →
  same_start lc lc'.
Proof.
  intros Hm ? ? ? ? ?. do 5 (split; [done|]). rewrite Hm. split; [done|].
  intros j g Hj. exists g. split; [done|apply fin_moved_refl].
Qed.

(** The loop of the finalize pass, from its head at guide [k - 1]
    down to its next [await]. *)
Lemma finalize_loop_pass k : ∀ proms lc,
  ginv rs lc → k ≤ length (modGuides lc) → pass_ok lc k proms →
  ginv rs (Engine.finalize_loop (rev (seq 0 k)) proms lc) ∧
  same_start lc (Engine.finalize_loop (rev (seq 0 k)) proms lc) ∧
  pass_shape (Engine.finalize_loop (rev (seq 0 k)) proms lc).
Proof.
  induction k as [|k IH]; intros proms lc Hinv Hk Hp.
  - simpl. split; [|split].
    + apply (ginv_ext lc); [done|by intros|done].
    + by apply same_start_ctl.
    + done.
  - rewrite seq_S, rev_app_distr. simpl.
    destruct (lookup_lt_is_Some_2 (modGuides lc) k) as [g Hg]; [lia|].
    unfold Engine.ordered. rewrite Hg.
    fold (is_ordered g). destruct (is_ordered g) eqn:Ho.
    + split; [|split].
      * apply (ginv_ext lc); [done|by intros|done].
      * by apply same_start_ctl.
      * unfold pass_shape. simpl. split; [done|]. split; [lia|done].
    + pose proof Hp as (Hiss & Hrest).
      assert (Hfp : g_finalizationPromise g = None).
      { destruct (g_finalizationPromise g) eqn:Hf; [|done].
        assert (fin_issued g) as Hx by (unfold fin_issued; congruence).
        apply (Hiss k g Hg) in Hx. lia. }
      assert (Hlater : ∀ j gj, k < j → modGuides lc !! j = Some gj → fin_issued gj).
      { intros j gj Hlt Hj. apply (Hiss j gj Hj). lia. }
      assert (Hord : is_ordered g = true →
        ∀ j gj, k < j → modGuides lc !! j = Some gj → fin_settled gj)
        by (intros; congruence).
      destruct (finalize_issue lc k g Hinv Hg Hfp Hlater Hord)
        as (g' & evs & -> & Hiss' & Hin & Hinv').
      destruct (IH (proms ++ [PGuide k]) (put k g' evs lc)) as (H1 & H2 & H3).
      * done.
      * rewrite length_put. lia.
      * by eapply pass_ok_issue.
      * split; [done|]. split; [|done].
        eapply same_start_trans; [|done]. by eapply same_start_put.
Qed.

Lemma prom_state_guide lc j ok :
  Engine.prom_state lc (PGuide j) = Fulfilled ok ↔
  ∃ g, modGuides lc !! j = Some g ∧ g_finalizationPromise g = Some (FinFulfilled ok).
Proof.
  simpl. destruct (modGuides lc !! j) as [g|]; simpl.
  - destruct (g_finalizationPromise g) as [[]|] eqn:Hf; split;
      try done; try (intros (? & ? & ?); simplify_eq; done).
    intros; simplify_eq. eauto.
  - split; [done|]. by intros (? & ? & ?).
Qed.

Lemma every_ok_all ps lc oks :
  Forall2 (λ p ok, Engine.prom_state lc p = Fulfilled ok) ps oks →
  (Engine.every_ok oks = true ↔
     ∀ p, p ∈ ps → Engine.prom_state lc p = Fulfilled true) ∧
  (∀ p, p ∈ ps → ∃ ok, Engine.prom_state lc p = Fulfilled ok).
Proof.
  induction 1 as [|p ok ps oks Hp _ [IH1 IH2]]; simpl.
  - split; [|intros p Hp; by apply elem_of_nil in Hp].
    split; [|done]. intros _ p Hp. by apply elem_of_nil in Hp.
  - split.
    + unfold Engine.every_ok in *. simpl. rewrite andb_true_iff, IH1. split.
      * intros [Hok Hall] q Hq. apply elem_of_cons in Hq as [->|Hq]; [|by apply Hall].
        unfold id in Hok. by subst.
      * intros Hall. split.
        -- assert (p ∈ p :: ps) as Hh by left.
           specialize (Hall p Hh). rewrite Hp in Hall. by inversion Hall.
        -- intros q Hq. apply Hall. by right.
    + intros q Hq. apply elem_of_cons in Hq as [->|Hq]; [eauto|by apply IH2].
Qed.

(** What [await Promise.all(finalizationPromises)] having resumed
    says of the guides whose [finalize()] was called. *)
Lemma pass_all_settled lc k proms oks :
  pass_ok lc k proms → Engine.promise_all proms lc = Fulfilled oks →
  (∀ j gj, k ≤ j → modGuides lc !! j = Some gj → fin_settled gj) ∧
  (Engine.every_ok oks = true ↔
     ∀ j gj, k ≤ j → modGuides lc !! j = Some gj → fin_succeeded gj).
Proof.
  intros (Hk & b & head & Hb & Hpr & Hh) Hall.
  apply promise_all_fulfilled, every_ok_all in Hall as [Hev Hset].
  assert (Hin : ∀ j, k ≤ j < b → PGuide j ∈ proms).
  { intros j Hj. rewrite Hpr. apply elem_of_app. right.
    apply elem_of_map. exists j. split; [done|].
    apply elem_of_rev, elem_of_seq. lia. }
  assert (Hge : ∀ j gj, b ≤ j → modGuides lc !! j = Some gj →
            ∃ ok, head = [PResolve ok] ∧
              (∀ j g, b ≤ j → modGuides lc !! j = Some g → fin_settled g) ∧
              (ok = true ↔ ∀ j g, b ≤ j → modGuides lc !! j = Some g → fin_succeeded g)).
  { intros j gj Hbj Hj. destruct Hh as [[_ ->]|(ok & ? & ? & ?)]; [|eauto].
    apply lookup_lt_Some in Hj. lia. }
  split.
  - intros j gj Hkj Hj. destruct (decide (j < b)) as [Hlt|Hnlt].
    + destruct (Hset (PGuide j)) as (ok & Hok); [apply Hin; lia|].
      apply prom_state_guide in Hok as (g & ? & ?). simplify_eq. by exists ok.
    + destruct (Hge j gj) as (ok & _ & Hs & _); [lia|done|]. eapply Hs; [|done]. lia.
  - rewrite Hev. split.
    + intros Hp j gj Hkj Hj. destruct (decide (j < b)) as [Hlt|Hnlt].
      * specialize (Hp (PGuide j)). rewrite prom_state_guide in Hp.
        destruct Hp as (g & ? & ?); [apply Hin; lia|]. by simplify_eq.
      * destruct (Hge j gj) as (ok & Hhead & _ & Hok); [lia|done|].
        assert (ok = true) as Hokt.
        { specialize (Hp (PResolve ok)). simpl in Hp.
          assert (Fulfilled ok = Fulfilled true) as Hx; [|by inversion Hx].
          apply Hp. rewrite Hpr, Hhead. apply elem_of_app. left. by left. }
        apply (proj1 Hok Hokt j gj); [lia|done].
    + intros Hs p Hp. rewrite Hpr in Hp. apply elem_of_app in Hp as [Hp|Hp].
      * destruct Hh as [[-> _]|(ok & -> & _ & Hok)]; [by apply elem_of_nil in Hp|].
        apply list_elem_of_singleton in Hp as ->. simpl. f_equal.
        apply Hok. intros j g Hbj Hj. eapply Hs; [|done]. lia.
      * apply elem_of_map in Hp as (j & -> & Hj).
        apply elem_of_rev, elem_of_seq in Hj.
        destruct (lookup_lt_is_Some_2 (modGuides lc) j) as [g Hg]; [lia|].
        apply prom_state_guide. exists g. split; [done|].
        eapply Hs; [|done]. lia.
Qed.

Lemma inv_logged lc lvl msg : inv rs lc → inv rs (emit (Logged lvl msg) lc).
Proof.
  intros [Hinv Hctl]. split; [|exact Hctl].
  apply (ginv_ext lc); [done| |done]. intros f i _.
  by rewrite calls_emit, calls_in_logged, Nat.add_0_r.
Qed.

Lemma ginv_logged lc lvl msg : ginv rs lc → ginv rs (emit (Logged lvl msg) lc).
Proof.
  intros Hinv. apply (ginv_ext lc); [done| |done]. intros f i _.
  by rewrite calls_emit, calls_in_logged, Nat.add_0_r.
Qed.

Lemma fin_moved_initialize g g' : fin_moved g g' → g_initialize g' = g_initialize g.
Proof. by intros (? & ? & ? & ? & ? & ? & ? & ? & ? & ? & ?). Qed.

Lemma none_awaiting_same lc lc' :
  same_start lc lc' → none_awaiting lc → none_awaiting lc'.
Proof.
  intros (_ & _ & _ & _ & _ & _ & Hg) Hna j g' Hj Hw.
  destruct (Hg j g' Hj) as (g & ? & Heq%fin_moved_initialize).
  eapply Hna; [done|]. congruence.
Qed.

Lemma start_done_same lc lc' : same_start lc lc' → start_done lc → start_done lc'.
Proof.
  intros Hs (? & Hna & Hint). pose proof Hs as (_ & Hi & _ & Ha & Hp & _).
  split; [congruence|]. split.
  - by eapply none_awaiting_same.
  - rewrite Hi, Hp. done.
Qed.

Lemma ctl_ok_pass lc :
  phase lc = p_stopping → stopped_ lc = None → start_done lc → pass_shape lc →
  ctl_ok lc.
Proof.
  intros Hp Hs Hd Hsh. unfold ctl_ok, pass_shape in *. rewrite Hp.
  split; [done|]. by destruct (stopAct lc).
Qed.

(** The whole finalize pass, from its start to its first [await]. *)
Lemma finalize_all_pass lc :
  ginv rs lc → none_issued lc →
  ginv rs (Engine.finalize_all lc) ∧ same_start lc (Engine.finalize_all lc) ∧
  pass_shape (Engine.finalize_all lc).
Proof.
  intros Hinv Hni. unfold Engine.finalize_all, Engine.reversedModGuides, logger_info.
  set (lc1 := emit _ lc).
  destruct (finalize_loop_pass (length (modGuides lc1)) [] lc1) as (H1 & H2 & H3).
  - by apply ginv_logged.
  - done.
  - split.
    + intros j g Hj. unfold fin_issued. rewrite (Hni j g Hj).
      apply lookup_lt_Some in Hj. split; [done|]. subst lc1; simpl in *. lia.
    + exists (length (modGuides lc1)), []. split; [lia|].
      rewrite Nat.sub_diag. split; [done|]. by left.
  - split; [done|]. split; [|done].
    eapply same_start_trans; [|done]. by apply same_start_ctl.
Qed.

Lemma inv_stop lc : inv rs lc → inv rs (Engine.stop lc).2.
Proof.
  intros [Hinv Hctl]. unfold Engine.stop.
  destruct (phase lc) eqn:Hp; simpl; try done;
    try (unfold Engine.changePhase; simpl; rewrite Hp; simpl;
         by apply inv_logged).
  - (* starting: the interrupt *)
    unfold ctl_ok in Hctl. rewrite Hp in Hctl.
    destruct Hctl as (Hs & Hsp & Hst & Hint & Hsd & Hni).
    unfold Engine.changePhase. simpl. rewrite Hp. simpl.
    split.
    + apply (ginv_ext lc); [done| |done]. intros f i _. unfold calls. simpl.
      rewrite <- !app_assoc, calls_in_app. calls_simpl. lia.
    + unfold ctl_ok. simpl. done.
  - (* starting_failed *)
    unfold ctl_ok in Hctl. rewrite Hp in Hctl.
    destruct Hctl as (Hsd & Hint & Hst & Hstp & Hni).
    unfold Engine.changePhase. simpl. rewrite Hp. simpl. rewrite Hint.
    set (lc1 := logger_info _ _).
    destruct (finalize_all_pass lc1) as (H1 & H2 & H3).
    { by apply ginv_logged, (ginv_ext lc). }
    { done. }
    split; [done|]. pose proof H2 as (Hph & ? & Hsp & ?). simpl.
    apply ctl_ok_pass; [by rewrite Hph|by rewrite Hsp| |done].
    eapply start_done_same; [exact H2|exact Hsd].
  - (* ready *)
    unfold ctl_ok in Hctl. rewrite Hp in Hctl.
    destruct Hctl as (Hsd & Hint & Hst & Hstp & Hni).
    unfold Engine.changePhase. simpl. rewrite Hp. simpl. rewrite Hint.
    set (lc1 := logger_info _ _).
    destruct (finalize_all_pass lc1) as (H1 & H2 & H3).
    { by apply ginv_logged, (ginv_ext lc). }
    { done. }
    split; [done|]. pose proof H2 as (Hph & ? & Hsp & ?). simpl.
    apply ctl_ok_pass; [by rewrite Hph|by rewrite Hsp| |done].
    eapply start_done_same; [exact H2|exact Hsd].
Qed.

Lemma prom_never_rejected lc p e :
  ginv rs lc → Engine.prom_state lc p ≠ Rejected e.
Proof.
  intros Hinv Hr. destruct p as [j|ok]; simpl in Hr; [|done].
  destruct (modGuides lc !! j) as [g|] eqn:Hj; simpl in Hr; [|done].
  pose proof (gk_fin _ _ _ _ (inv_guides _ _ Hinv j g Hj)) as Hf.
  by destruct (g_finalizationPromise g) as [[]|].
Qed.

Lemma promise_all_never_rejected lc ps e :
  ginv rs lc → Engine.promise_all ps lc ≠ Rejected e.
Proof.
  intros Hinv Hr. apply promise_all_rejected in Hr as (p & e' & _ & Hp).
  by eapply prom_never_rejected.
Qed.

(** The activation of [stop] places the engine. *)
Lemma stop_mode lc :
  ctl_ok lc →
  match stopAct lc with
  | StopIdle | StopReturned => True
  | StopAwaitingInterrupt =>
      phase lc = p_stopping ∧ stopped_ lc = None ∧ none_issued lc ∧
      match interruptStart lc with
      | Some Unresolved =>
          (∃ i o, startAct lc = StartAwaiting i o ∧ awaiting_at lc i) ∧
          startPromise lc = Pending
      | Some Resolved => start_done lc
      | None => False
      end
  | StopAwaitingBarrier i rest proms =>
      phase lc = p_stopping ∧ stopped_ lc = None ∧
      start_done lc ∧ rest = rev (seq 0 i) ∧
      i < length (modGuides lc) ∧ pass_ok lc (S i) proms
  | StopAwaitingAll proms =>
      phase lc = p_stopping ∧ stopped_ lc = None ∧
      start_done lc ∧ pass_ok lc 0 proms
  | StopRejected _ => False
  end.
Proof.
  intros Hc. unfold ctl_ok in Hc.
  destruct (phase lc) eqn:Hp.
  1-4: destruct Hc as (_ & _ & -> & _); done.
  1: destruct Hc as (_ & _ & -> & _); done.
  1,2: destruct Hc as (_ & _ & -> & _); done.
  2,3: destruct Hc as (-> & _); done.
  destruct Hc as (? & Hc). by destruct (stopAct lc).
Qed.

Lemma inv_stop_resume lc lc' :
  inv rs lc → Engine.stop_resume lc = Some lc' → inv rs lc'.
Proof.
  intros [Hinv Hctl] Hr. unfold Engine.stop_resume in Hr.
  pose proof (stop_mode lc Hctl) as Hm.
  destruct (stopAct lc) as [| |i rest proms|proms| |] eqn:Hst; try done.
  - (* after the interrupt *)
    destruct Hm as (Hp & Hstp & Hni & Hm).
    destruct (interruptStart lc) as [[]|] eqn:Hint; try done.
    inversion Hr; subst lc'.
    destruct (finalize_all_pass lc Hinv Hni) as (H1 & H2 & H3).
    split; [done|]. pose proof H2 as (Hph & ? & Hsp & ?).
    apply ctl_ok_pass; [by rewrite Hph, Hp|by rewrite Hsp| |done].
    by eapply start_done_same.
  - (* a barrier *)
    destruct Hm as (Hp & Hstp & Hsd & -> & Hi & Hpass).
    destruct (Engine.promise_all proms lc) as [|oks|e] eqn:Hall; try done.
    2: by apply promise_all_never_rejected in Hall.
    inversion Hr; subst lc'. clear Hr.
    destruct (pass_all_settled lc (S i) proms oks Hpass Hall) as [Hset Hok].
    destruct (lookup_lt_is_Some_2 (modGuides lc) i) as [g Hg]; [lia|].
    pose proof Hpass as (Hiss & _).
    assert (Hfp : g_finalizationPromise g = None).
    { destruct (g_finalizationPromise g) eqn:Hf; [|done].
      assert (fin_issued g) as Hx by (unfold fin_issued; congruence).
      apply (Hiss i g Hg) in Hx. lia. }
    assert (Hlater : ∀ j gj, i < j → modGuides lc !! j = Some gj → fin_issued gj).
    { intros j gj Hlt Hj. apply (Hiss j gj Hj). lia. }
    assert (Hord : is_ordered g = true →
      ∀ j gj, i < j → modGuides lc !! j = Some gj → fin_settled gj).
    { intros _ j gj Hlt Hj. eapply Hset; [|done]. lia. }
    destruct (finalize_issue lc i g Hinv Hg Hfp Hlater Hord)
      as (g' & evs & -> & Hiss' & Hin & Hinv').
    destruct (finalize_loop_pass i
                ([PResolve (Engine.every_ok oks)] ++ [PGuide i])
                (put i g' evs lc)) as (H1 & H2 & H3).
    { done. }
    { rewrite length_put. lia. }
    { eapply pass_ok_issue; [done|done|]. split; [done|].
      exists (S i), [PResolve (Engine.every_ok oks)].
      split; [lia|]. rewrite Nat.sub_diag. split; [done|]. right.
      exists (Engine.every_ok oks). done. }
    split; [done|].
    assert (Hss : same_start lc
      (Engine.finalize_loop (rev (seq 0 i))
         ([PResolve (Engine.every_ok oks)] ++ [PGuide i]) (put i g' evs lc))).
    { eapply same_start_trans; [|done]. by eapply same_start_put. }
    simpl app in *.
    pose proof Hss as (Hph & ? & Hsp & ?).
    apply ctl_ok_pass; [by rewrite Hph, Hp|by rewrite Hsp| |done].
    by eapply start_done_same.
  - (* the end of the pass *)
    destruct Hm as (Hp & Hstp & Hsd & Hpass).
    destruct (Engine.promise_all proms lc) as [|oks|e] eqn:Hall; try done.
    2: by apply promise_all_never_rejected in Hall.
    inversion Hr; subst lc'. clear Hr.
    destruct (pass_all_settled lc 0 proms oks Hpass Hall) as [Hset Hok].
    split.
    + apply (ginv_ext lc); [| |done].
      * unfold Engine.resolve_stopped. simpl. by rewrite Hstp.
      * intros f j _. unfold Engine.resolve_stopped. simpl. rewrite Hstp.
        unfold calls. simpl. by rewrite calls_in_app, calls_in_logged, Nat.add_0_r.
    + unfold ctl_ok, Engine.resolve_stopped. simpl. rewrite Hstp. simpl.
      assert (Hsd' : ∀ p msg,
        start_done (set_stopAct StopReturned (set_stopped (Some (Engine.every_ok oks))
                      (logger_info msg (set_phase p lc))))) by (intros; exact Hsd).
      destruct (Engine.every_ok oks) eqn:Hev; simpl.
      * split; [done|]. split; [apply Hsd'|]. exists true. split; [done|].
        split; [done|]. split.
        -- intros j g Hj. eapply Hset; [|done]. lia.
        -- split; [|done]. intros _ j g Hj. eapply Hok; [done| |done]. lia.
      * split; [done|]. split; [apply Hsd'|]. exists false. split; [done|].
        split; [done|]. split.
        -- intros j g Hj. eapply Hset; [|done]. lia.
        -- split; [done|]. intros Hs. apply (proj2 Hok).
           intros j g _ Hj. by eapply Hs.
Qed.

(** ** [start] *)

Lemma put_is_upd i g evs lc : put i g evs lc = upd (<[i := g]> (modGuides lc)) evs lc.
Proof. done. Qed.

Lemma truthy_defined v : truthy (coalesce v VNull) = true → is_undefined v = false.
Proof. by destruct v. Qed.

(** [initialize()] of the next guide in the loop of [start]: the
    guides before it have given truthy instances, and neither it nor
    any guide after it has been initialized. *)
Lemma initialize_next lc k g :
  ginv rs lc → none_issued lc → modGuides lc !! k = Some g →
  (∀ j gj, j < k → modGuides lc !! j = Some gj →
     ∃ v, g_initialize gj = InitFulfilled v ∧ truthy v = true) →
  (∀ j gj, k ≤ j → modGuides lc !! j = Some gj → g_initialize gj = InitNotCalled) →
  ginv rs (Guide.initialize k lc) ∧ none_issued (Guide.initialize k lc) ∧
  awaiting_at (Guide.initialize k lc) k ∧ same_engine lc (Guide.initialize k lc).
Proof.
  intros Hinv Hni Hk Hbefore Hafter.
  pose proof (inv_guides _ _ Hinv k g Hk) as Hg.
  pose proof (Hafter k g (le_n _) Hk) as Hnc.
  destruct (is_undefined (g_cfg g)) eqn:Hu.
  - (* no config: [initialize()] returns [inst ?? null] at once *)
    rewrite (initialize_unconfigured _ _ _ Hk Hu).
    split; [|split; [|split; [|done]]].
    + eapply ginv_put; try done.
      * intros v Hv. congruence.
      * destruct Hg as
          [gk_static gk_dependents gk_earlier gk_init gk_fin gk_wait gk_ordered
           gk_init_calls gk_fin_calls gk_falsy].
        constructor; simpl; try done.
        -- intros d Hd. destruct (gk_dependents d Hd) as (Hlt & gd & Hgd & Hc).
           split; [done|]. exists gd. rewrite list_lookup_insert_ne by lia. done.
        -- intros _ j Hj. destruct (lookup_lt_is_Some_2 (modGuides lc) j) as [gj Hgj].
           { apply lookup_lt_Some in Hk. lia. }
           destruct (Hbefore j gj Hj Hgj) as (v & ? & ?).
           exists gj, v. rewrite list_lookup_insert_ne by lia. done.
        -- intros Hw d Hd. exfalso. unfold fin_settled in Hw. simpl in Hw.
           rewrite (Hni k g Hk) in Hw. destruct Hw as [?|[? ?]]; done.
        -- intros _ Hiss. exfalso. apply Hiss. by apply (Hni k g).
        -- rewrite calls_put. simpl. rewrite Nat.add_0_r.
           split; [apply gk_init_calls|done].
        -- rewrite calls_put. simpl. by rewrite Nat.add_0_r.
        -- intros Hx. rewrite calls_put. simpl. rewrite Nat.add_0_r. by apply gk_falsy.
    + apply none_issued_put; [done|]. by apply (Hni k g).
    + split; [|split].
      * eexists. erewrite lookup_put_eq by done. done.
      * intros j gj Hj Hw. destruct (lookup_put _ _ _ _ _ _ _ Hk Hj) as [[-> ->]|[? Hl]];
          [done|].
        destruct (decide (j < k)) as [Hlt|Hge].
        -- destruct (Hbefore j gj Hlt Hl) as (v & ? & ?). congruence.
        -- rewrite (Hafter j gj) in Hw by (done || lia). done.
      * intros j gj Hlt Hj. rewrite lookup_put_ne in Hj by lia.
        apply (Hafter j gj); [lia|done].
  - (* [mod.initialize] is called *)
    destruct (initialize_configured k lc g Hk Hu) as (gs & msg & -> & Hlen & Hgs).
    { intros d Hd. pose proof (gk_static _ _ _ _ Hg) as Hs.
      pose proof (wf k _ Hs) as Hwf. simpl in Hwf.
      rewrite Forall_forall in Hwf. specialize (Hwf d Hd).
      destruct (lookup_lt_is_Some_2 (modGuides lc) d) as [gd Hgd].
      { apply lookup_lt_Some in Hk. lia. }
      exists gd. split; [done|].
      destruct (Hbefore d gd Hwf Hgd) as (v & Hv & Ht).
      pose proof (gk_init _ _ _ _ (inv_guides _ _ Hinv d gd Hgd)) as Hin.
      rewrite Hv in Hin. subst v. by apply truthy_defined. }
    set (lc' := upd gs _ lc).
    assert (Hdeps : ∀ d, d ∈ g_depMap g → d < k).
    { intros d Hd. pose proof (gk_static _ _ _ _ Hg) as Hs.
      pose proof (wf k _ Hs) as Hwf. simpl in Hwf.
      rewrite Forall_forall in Hwf. by apply Hwf. }
    assert (Hback : ∀ j gj', gs !! j = Some gj' →
      ∃ gj l, modGuides lc !! j = Some gj ∧ gj' = g_initializing k j l gj ∧
        ∀ x, x ∈ l ↔ x ∈ g_dependents gj ∨ (x = k ∧ j ∈ g_depMap g)).
    { intros j gj' Hj.
      destruct (lookup_lt_is_Some_2 (modGuides lc) j) as [gj Hgj].
      { rewrite <- Hlen. by eapply lookup_lt_Some. }
      destruct (Hgs j gj Hgj) as (l & Hl & Hx). exists gj, l.
      split; [done|]. split; [congruence|done]. }
    assert (Hk' : ∃ l, gs !! k = Some
              (set_initialize InitAwaiting (set_state s_initializing (with_dependents l g)))).
    { destruct (Hgs k g Hk) as (l & Hl & _). exists l.
      unfold g_initializing in Hl. by rewrite decide_True in Hl. }
    assert (Hgrow : grows lc lc').
    { split; [done|]. intros j gj Hgj. destruct (Hgs j gj Hgj) as (l & Hl & _).
      eexists. split; [exact Hl|]. unfold g_initializing.
      destruct (decide (j = k)) as [->|Hne]; simpl.
      - assert (gj = g) as -> by congruence. split; [done|]. split; [|done].
        intros v Hv. congruence.
      - done. }
    fold lc'. split; [|split; [|split; [|done]]].
    + constructor.
      * simpl. rewrite Hlen. apply Hinv.
      * intros j gj' Hj. simpl in Hj.
        destruct (Hback j gj' Hj) as (gj & l & Hgj & -> & Hx).
        pose proof (inv_guides _ _ Hinv j gj Hgj) as Hgj_ok.
        pose proof (Hni j gj Hgj) as Hfp.
        assert (Hother : ∀ f, calls f j lc' =
                   calls f j lc + calls_in f j [Called ModInitialize k]).
        { intros f. unfold calls, lc'. simpl. rewrite calls_in_app.
          calls_simpl. lia. }
        assert (Hdep : ∀ x, x ∈ l →
          j < x ∧ ∃ gd, modGuides lc' !! x = Some gd ∧ init_called gd).
        { intros x Hxl. apply Hx in Hxl as [Hold|[-> Hjd]].
          - destruct (gk_dependents _ _ _ _ Hgj_ok x Hold) as (? & gd & Hgd & Hc).
            split; [done|]. destruct Hgrow as [_ Hgrow].
            destruct (Hgrow x gd Hgd) as (gd' & ? & ? & _). exists gd'. auto.
          - split; [by apply Hdeps|]. destruct Hk' as (l' & Hl').
            eexists. split; [exact Hl'|]. done. }
        unfold g_initializing. destruct (decide (j = k)) as [->|Hne].
        -- assert (gj = g) as -> by congruence.
           destruct Hgj_ok as
             [gk_static gk_dependents gk_earlier gk_init gk_fin gk_wait gk_ordered
              gk_init_calls gk_fin_calls gk_falsy].
           constructor; simpl; try done.
           ++ intros _ j Hj'.
              destruct (lookup_lt_is_Some_2 (modGuides lc) j) as [gj Hgj'].
              { apply lookup_lt_Some in Hk. lia. }
              destruct (Hbefore j gj Hj' Hgj') as (v & Hv & ?).
              destruct Hgrow as [_ Hgrow].
              destruct (Hgrow j gj Hgj') as (gj' & ? & _ & Hf & _).
              exists gj', v. auto.
           ++ by rewrite Hnc in gk_init.
           ++ by rewrite Hfp.
           ++ unfold fin_settled. simpl. rewrite Hfp. intros [?|[? ?]]; done.
           ++ rewrite Hother. calls_simpl. rewrite Nat.eqb_refl.
              replace (calls ModInitialize k lc) with 0
                by (symmetry; by apply gk_init_calls).
              split; [lia|done].
           ++ rewrite Hother. calls_simpl. rewrite Nat.add_0_r. done.
           ++ intros Hfalsy. rewrite Hother. calls_simpl. rewrite Nat.add_0_r.
              by apply gk_falsy.
        -- assert (Hold : guide_ok rs lc' j gj).
           { eapply guide_ok_grows; [done| |done].
             intros f _. rewrite Hother. calls_simpl.
             destruct f; simpl; try lia.
             destruct (Nat.eqb_spec j k); [done|]. lia. }
           destruct Hold as
             [gk_static gk_dependents gk_earlier gk_init gk_fin gk_wait gk_ordered
              gk_init_calls gk_fin_calls gk_falsy].
           constructor; simpl; try done.
           ++ unfold fin_settled. simpl. rewrite Hfp. intros [?|[? ?]]; done.
      * intros j f Hj Hf. simpl in Hj. rewrite Hlen in Hj.
        unfold calls, lc'. simpl. rewrite calls_in_app. calls_simpl.
        fold (calls f j lc). rewrite (inv_calls _ _ Hinv j f Hj Hf).
        destruct f; simpl; try done.
        destruct (Nat.eqb_spec j k) as [->|]; [|done].
        apply lookup_lt_Some in Hk. lia.
    + intros j gj' Hj. simpl in Hj.
      destruct (Hback j gj' Hj) as (gj & l & Hgj & -> & Hx).
      unfold g_initializing. destruct (decide (j = k)); simpl; by apply (Hni j gj).
    + split; [|split].
      * destruct Hk' as (l & Hl). eexists. split; [exact Hl|]. done.
      * intros j gj' Hj Hw. simpl in Hj.
        destruct (Hback j gj' Hj) as (gj & l & Hgj & -> & Hx).
        unfold g_initializing in Hw. destruct (decide (j = k)); [done|].
        simpl in Hw. destruct (decide (j < k)) as [Hlt|Hge].
        -- destruct (Hbefore j gj Hlt Hgj) as (v & ? & ?). congruence.
        -- rewrite (Hafter j gj) in Hw by (done || lia). done.
      * intros j gj' Hlt Hj. simpl in Hj.
        destruct (Hback j gj' Hj) as (gj & l & Hgj & -> & Hx).
        unfold g_initializing. destruct (decide (j = k)); [lia|]. simpl.
        apply (Hafter j gj); [lia|done].
Qed.
(** [initialize()] of the next guide leaves the guides initialized
    before as they are, but for their dependents. *)
Lemma initialize_kept lc k g :
  ginv rs lc → modGuides lc !! k = Some g →
  (∀ j gj, j < k → modGuides lc !! j = Some gj →
     ∃ v, g_initialize gj = InitFulfilled v ∧ truthy v = true) →
  g_initialize g = InitNotCalled →
  ∀ j gj, modGuides lc !! j = Some gj →
    ∃ gj', modGuides (Guide.initialize k lc) !! j = Some gj' ∧
      ∀ v, g_initialize gj = InitFulfilled v →
        g_initialize gj' = InitFulfilled v ∧ g_inst gj' = g_inst gj.
Proof.
  intros Hinv Hk Hbefore Hnc j gj Hj.
  pose proof (inv_guides _ _ Hinv k g Hk) as Hg.
  destruct (is_undefined (g_cfg g)) eqn:Hu.
  - rewrite (initialize_unconfigured _ _ _ Hk Hu).
    destruct (decide (j = k)) as [->|Hne].
    + simplify_eq. eexists. erewrite lookup_put_eq by done.
      split; [done|]. intros v Hv. congruence.
    + exists gj. rewrite lookup_put_ne by done. done.
  - destruct (initialize_configured k lc g Hk Hu) as (gs & msg & -> & Hlen & Hgs).
    { intros d Hd. pose proof (gk_static _ _ _ _ Hg) as Hs.
      pose proof (wf k _ Hs) as Hwf. simpl in Hwf.
      rewrite Forall_forall in Hwf. specialize (Hwf d Hd).
      destruct (lookup_lt_is_Some_2 (modGuides lc) d) as [gd Hgd].
      { apply lookup_lt_Some in Hk. lia. }
      exists gd. split; [done|].
      destruct (Hbefore d gd Hwf Hgd) as (v & Hv & Ht).
      pose proof (gk_init _ _ _ _ (inv_guides _ _ Hinv d gd Hgd)) as Hin.
      rewrite Hv in Hin. subst v. by apply truthy_defined. }
    destruct (Hgs j gj Hj) as (l & Hl & _).
    eexists. split; [exact Hl|]. intros v Hv. unfold g_initializing.
    destruct (decide (j = k)) as [->|Hne]; [|done].
    simplify_eq. congruence.
Qed.
End Preservation.

(** The guides' invariant of a closure that has the guides of [lc] and
    more log lines. *)
Ltac ginv_from lc :=
  apply (ginv_ext _ lc);
    [ reflexivity
    | intros ? ? _; unfold calls; simpl;
      rewrite ?calls_in_app, ?calls_in_logged; lia
    | assumption ].

Section Preservation2.
Variable rs : list Registration.
Hypothesis wf : well_formed rs.

(** The head of the loop of [start] at guide [k]. *)
Lemma start_loop_inv lc k o :
  ginv rs lc → none_issued lc → phase lc = p_starting →
  interruptStart lc = None → stopAct lc = StopIdle → stopped_ lc = None →
  k ≤ length (modGuides lc) →
  (∀ j gj, j < k → modGuides lc !! j = Some gj →
     ∃ v, g_initialize gj = InitFulfilled v ∧ truthy v = true) →
  (∀ j gj, k ≤ j → modGuides lc !! j = Some gj → g_initialize gj = InitNotCalled) →
  inv rs (Engine.start_loop k o lc).
Proof.
  intros Hinv Hni Hp Hint Hst Hstp Hk Hbefore Hafter. unfold Engine.start_loop.
  destruct (Nat.ltb_spec k (length (modGuides lc))) as [Hlt|Hge].
  - destruct (lookup_lt_is_Some_2 (modGuides lc) k) as [g Hg]; [done|].
    destruct (initialize_next rs wf lc k g Hinv Hni Hg Hbefore Hafter)
      as (H1 & H2 & H3 & (E1 & E2 & E3 & E4 & E5 & E6)).
    split.
    + by apply (ginv_ext rs (Guide.initialize k lc)).
    + unfold ctl_ok. simpl. rewrite E1, Hp, E2, E3, E6.
      split; [eauto|]. done.
  - assert (k = length (modGuides lc)) as -> by lia.
    split.
    + apply (ginv_ext rs lc); [done| |done]. intros f i _.
      unfold calls. simpl. by rewrite calls_in_app, calls_in_logged, Nat.add_0_r.
    + unfold ctl_ok. simpl. split; [|done].
      unfold start_done. simpl. rewrite Hint.
      split; [done|]. split; [|eauto].
      intros j gj Hj Hw. destruct (Hbefore j gj) as (v & Hv & _); [|done|congruence].
      by eapply lookup_lt_Some.
Qed.

Lemma inv_start lc o : inv rs lc → inv rs (Engine.start o lc).2.
Proof.
  intros [Hinv Hctl]. unfold Engine.start, Engine.changePhase.
  destruct (phase lc) eqn:Hp; simpl; try (by apply inv_logged).
  unfold ctl_ok in Hctl. rewrite Hp in Hctl.
  destruct Hctl as (Hs & Hsp & Hst & Hint & Hstp & Hns & Hni).
  apply start_loop_inv; try done.
  - ginv_from lc.
  - simpl. lia.
  - intros j gj Hj. lia.
  - intros j gj _ Hj. by apply (Hns j gj).
Qed.

(** The activation of [start] places the engine. *)
Lemma start_mode lc i o :
  ctl_ok lc → startAct lc = StartAwaiting i o →
  awaiting_at lc i ∧ none_issued lc ∧ stopped_ lc = None ∧
  startPromise lc = Pending ∧
  ((phase lc = p_starting ∧ interruptStart lc = None ∧ stopAct lc = StopIdle) ∨
   (phase lc = p_stopping ∧ interruptStart lc = Some Unresolved ∧
    stopAct lc = StopAwaitingInterrupt)).
Proof.
  intros Hc Hs. unfold ctl_ok in Hc.
  assert (Hsd : ¬ start_done lc) by (intros (? & _); congruence).
  destruct (phase lc) eqn:Hp;
    try (destruct Hc as (? & _); congruence);
    try (by destruct Hc as (? & _));
    try (by destruct Hc as (_ & ? & _)).
  - destruct Hc as ((k & o' & Hk & Hat) & ? & ? & ? & ? & ?).
    assert (k = i) as -> by congruence. do 4 (split; [done|]). by left.
  - destruct Hc as (? & Hc). destruct (stopAct lc) eqn:Hst; try done.
    + destruct Hc as (? & Hc). destruct (interruptStart lc) as [[]|]; try done.
      destruct Hc as ((k & o' & Hk & Hat) & ?).
      assert (k = i) as -> by congruence. do 4 (split; [done|]). by right.
    + by destruct Hc as (? & _).
    + by destruct Hc as (? & _).
Qed.

Lemma inv_start_resume lc lc' :
  inv rs lc → Engine.start_resume lc = Some lc' → inv rs lc'.
Proof.
  intros [Hinv Hctl] Hr. unfold Engine.start_resume in Hr.
  destruct (startAct lc) as [|i o|] eqn:Hs; try done.
  destruct (start_mode lc i o Hctl Hs) as (Hat & Hni & Hstp & Hsp & Hmode).
  destruct (modGuides lc !! i) as [g|] eqn:Hg; simpl in Hr; [|done].
  pose proof (inv_guides _ _ Hinv i g Hg) as Hgi.
  destruct (g_initialize g) as [| |inst|e] eqn:Hin; try done.
  2: { pose proof (gk_init _ _ _ _ Hgi) as Hx. by rewrite Hin in Hx. }
  assert (Hna : none_awaiting lc).
  { intros j gj Hj Hw. destruct Hat as (_ & Ha & _).
    pose proof (Ha j gj Hj Hw) as ->. congruence. }
  destruct Hmode as [(Hp & Hint & Hst)|(Hp & Hint & Hst)]; rewrite Hint in Hr.
  - (* not interrupted *)
    destruct (truthy inst) eqn:Htr; simpl in Hr.
    + (* the next guide *)
      inversion Hr; subst lc'. apply start_loop_inv; try done.
      * apply lookup_lt_Some in Hg. lia.
      * intros j gj Hj Hgj. destruct (decide (j = i)) as [->|Hne].
        -- exists inst. split; [congruence|done].
        -- destruct (gk_earlier _ _ _ _ Hgi) with (j := j) as (gj' & v & ? & ? & ?);
             [unfold init_called; congruence|lia|].
           exists v. split; [congruence|done].
      * intros j gj Hj Hgj. destruct Hat as (_ & _ & Hlater).
        apply (Hlater j gj); [lia|done].
    + (* the guide gave no instance *)
      destruct (Engine.wants_autoStop o).
      * (* autoStopOnError: [stop()] starts the finalize pass *)
        unfold Engine.stop, Engine.changePhase in Hr. simpl in Hr.
        rewrite Hint in Hr. simpl in Hr.
        inversion Hr; subst lc'. clear Hr.
        set (lc1 := logger_info _ (set_phase p_stopping _)).
        destruct (finalize_all_pass rs lc1) as (H1 & H2 & H3).
        { subst lc1. ginv_from lc. }
        { done. }
        split.
        -- ginv_from (Engine.finalize_all lc1).
        -- pose proof H2 as (Hph & Hi2 & Hsp2 & ? & ? & ?).
           apply ctl_ok_pass; simpl; [by rewrite Hph|by rewrite Hsp2| |done].
           split; [done|]. split.
           ++ assert (none_awaiting (Engine.finalize_all lc1)) as Hna2
                by (eapply none_awaiting_same; [exact H2|exact Hna]).
              exact Hna2.
           ++ simpl. rewrite Hi2. simpl. rewrite Hint. eauto.
      * inversion Hr; subst lc'. clear Hr. split.
        -- ginv_from lc.
        -- unfold ctl_ok. simpl. split; [|done].
           unfold start_done. simpl. rewrite Hint. eauto.
  - (* interrupted: the start loop stops here *)
    inversion Hr; subst lc'. clear Hr. split.
    + ginv_from lc.
    + unfold ctl_ok. simpl. rewrite Hp, Hst. simpl. done.
Qed.

(** ** [configure] *)

Lemma configure_guide_pre i envVars lc :
  i < length (modGuides lc) →
  ginv rs lc → not_started lc → none_issued lc →
  ginv rs (Guide.configure i envVars lc).2 ∧
  not_started (Guide.configure i envVars lc).2 ∧
  none_issued (Guide.configure i envVars lc).2 ∧
  same_engine lc (Guide.configure i envVars lc).2 ∧
  length (modGuides (Guide.configure i envVars lc).2) = length (modGuides lc).
Proof.
  intros Hi Hinv Hns Hni.
  destruct (lookup_lt_is_Some_2 (modGuides lc) i) as [g Hg]; [done|].
  rewrite (configure_put _ _ _ _ Hg). simpl.
  pose proof (Hni i g Hg) as Hfp. destruct (Hns i g Hg) as [Hnc Hdep].
  pose proof (inv_guides _ _ Hinv i g Hg) as Hgi.
  assert (Hsame : ∀ P : ModGuide → Prop,
    (∀ c s, P (set_state s (set_cfg c g))) → (∀ s, P (set_state s g)) →
    P (g_configured envVars g)).
  { intros P H1 H2. unfold g_configured.
    destruct (mod_configure (g_mod g)) as [f|]; [destruct (f envVars)|];
      first [apply (H1 _ _) | apply (H2 _)]. }
  assert (Hfin : in_finalization (g_state (g_configured envVars g)) = false).
  { unfold g_configured.
    destruct (mod_configure (g_mod g)) as [f|]; [destruct (f envVars)|]; done. }
  assert (Hfp' : g_finalizationPromise (g_configured envVars g) = None).
  { pattern (g_configured envVars g). by apply Hsame. }
  assert (Hin' : g_initialize (g_configured envVars g) = g_initialize g).
  { pattern (g_configured envVars g). by apply Hsame. }
  assert (Hdep' : g_dependents (g_configured envVars g) = g_dependents g).
  { pattern (g_configured envVars g). by apply Hsame. }
  split; [|split; [|split; [|split]]].
  - apply (ginv_put rs lc i g (g_configured envVars g) _ Hinv Hg).
    + unfold init_called. by rewrite Hin'.
    + intros v. by rewrite Hin'.
    + unfold fin_settled. rewrite Hfp, Hfp'. done.
    + intros f j Hf _. calls_simpl. by destruct f.
    + apply (guide_ok_update rs lc i g _ _ Hinv Hg); try done;
        try (pattern (g_configured envVars g); by apply Hsame).
      * by rewrite Hfp'.
      * unfold fin_settled. rewrite Hfp'. intros [?|[? ?]]; done.
      * calls_simpl. rewrite Nat.add_0_r. apply Hgi.
      * intros _. calls_simpl. rewrite Nat.add_0_r. apply Hgi. by left.
      * intros _. calls_simpl. rewrite Nat.add_0_r. apply Hgi. by left.
  - apply not_started_put; [done|congruence|congruence].
  - by apply none_issued_put.
  - done.
  - apply length_insert.
Qed.

Lemma configure_guides_pre idxs envVars : ∀ lc,
  (∀ i, i ∈ idxs → i < length (modGuides lc)) →
  ginv rs lc → not_started lc → none_issued lc →
  ginv rs (Engine.configure_guides idxs envVars lc).2 ∧
  not_started (Engine.configure_guides idxs envVars lc).2 ∧
  none_issued (Engine.configure_guides idxs envVars lc).2 ∧
  same_engine lc (Engine.configure_guides idxs envVars lc).2.
Proof.
  induction idxs as [|i idxs IH]; intros lc Hr Hinv Hns Hni; simpl.
  - done.
  - destruct (configure_guide_pre i envVars lc) as (H1 & H2 & H3 & H4 & H5);
      try done.
    { apply Hr. by left. }
    destruct (Guide.configure i envVars lc) as [r lc1] eqn:Hc. simpl in *.
    destruct (IH lc1) as (I1 & I2 & I3 & I4); try done.
    { intros j Hj. rewrite H5. apply Hr. by right. }
    destruct (Engine.configure_guides idxs envVars lc1) as [rs' lc2] eqn:Hcs.
    simpl in *. split; [done|]. split; [done|]. split; [done|].
    destruct H4 as (? & ? & ? & ? & ? & ?), I4 as (? & ? & ? & ? & ? & ?).
    repeat split; congruence.
Qed.

Lemma inv_configure lc envVars : inv rs lc → inv rs (Engine.configure envVars lc).2.
Proof.
  intros [Hinv Hctl]. unfold Engine.configure, Engine.changePhase.
  destruct (phase lc) eqn:Hp; simpl; try (by apply inv_logged).
  unfold ctl_ok in Hctl. rewrite Hp in Hctl.
  destruct Hctl as (Hs & Hsp & Hst & Hint & Hstp & Hns & Hni).
  set (lc1 := logger_info _ (set_phase p_configuring lc)).
  destruct (configure_guides_pre (seq 0 (length (modGuides lc))) envVars lc1)
    as (H1 & H2 & H3 & (E1 & E2 & E3 & E4 & E5 & E6)); try done.
  { intros i Hi. apply elem_of_seq in Hi. simpl. lia. }
  { subst lc1. ginv_from lc. }
  destruct (Engine.configure_guides _ envVars lc1) as [res lc2] eqn:Hc.
  simpl in *. split.
  - ginv_from lc2.
  - unfold ctl_ok. simpl. rewrite E2, E3, E4, E5, E6. simpl.
    by destruct (forallb _ res).
Qed.

(** ** The runs *)

Lemma inv_makeLifecycle : inv rs (makeLifecycle (guides_of rs)).
Proof.
  split.
  - constructor.
    + simpl. unfold guides_of. by rewrite length_map.
    + intros i g Hg. simpl in Hg. unfold guides_of in Hg.
      change (map ?f rs) with (f <$> rs) in Hg.
      rewrite list_lookup_fmap in Hg.
      destruct (rs !! i) as [r|] eqn:Hr; [|done]. simpl in Hg.
      inversion Hg; subst g. clear Hg.
      constructor; simpl; try done.
      * by destruct r.
      * intros d Hd. by apply elem_of_nil in Hd.
      * intros _ d Hd. by apply elem_of_nil in Hd.
      * unfold calls. simpl. split; [|done]. rewrite calls_in_nil. lia.
      * unfold calls. simpl. split; [|done]. rewrite calls_in_nil. lia.
    + done.
  - assert (Hfresh : ∀ i g, guides_of rs !! i = Some g →
      g_initialize g = InitNotCalled ∧ g_dependents g = [] ∧
      g_finalizationPromise g = None).
    { intros i g Hg. unfold guides_of in Hg.
      change (map ?f rs) with (f <$> rs) in Hg.
      rewrite list_lookup_fmap in Hg.
      destruct (rs !! i) as [r|]; [|done]. by inversion Hg. }
    unfold ctl_ok. simpl. do 5 (split; [done|]).
    split; intros i g Hg; simpl in Hg; by apply Hfresh in Hg as (? & ? & ?).
Qed.

Lemma inv_exec a lc lc' : inv rs lc → exec a lc = Some lc' → inv rs lc'.
Proof.
  intros Hinv He. destruct a; simpl in He.
  - inversion He. by apply inv_configure.
  - inversion He. by apply inv_start.
  - inversion He. by apply inv_stop.
  - destruct (modGuides lc !! i) as [g|] eqn:Hg; simpl in He; [|done].
    destruct (g_initialize g) eqn:Hin; try done. inversion He.
    destruct (initialize_resume_put i o lc g Hg) as (lvl & msg & ->).
    by apply inv_settle_initialize.
  - unfold Guide.finalize_resume_callback in He.
    destruct (modGuides lc !! i) as [g|] eqn:Hg; [|done].
    destruct (g_finalizationPromise g) as [[]|] eqn:Hf; try done. inversion He.
    destruct (finalize_finish_put i (Guide.finalizationResult o) lc g Hg) as (msg & ->).
    by apply inv_settle_finalize.
  - unfold Guide.finalize_resume_dependents in He.
    destruct (modGuides lc !! i) as [g|] eqn:Hg; [|done].
    destruct (g_finalizationPromise g) as [[]|] eqn:Hf; try done.
    destruct (Guide.all_finalized (g_dependents g) lc) as [|u|e] eqn:Ha; try done.
    + inversion He.
      destruct (finalize_proceed_put i lc g Hg) as (evs & -> & Hev).
      apply inv_resume_finalize; try done.
      by eapply all_finalized_fulfilled.
    + exfalso. apply all_finalized_rejected in Ha as (d & gd & e' & _ & Hd & Hr).
      destruct Hinv as [Hinv _].
      pose proof (gk_fin _ _ _ _ (inv_guides _ _ Hinv d gd Hd)) as Hx.
      by rewrite Hr in Hx.
  - by eapply inv_start_resume.
  - by eapply inv_stop_resume.
Qed.

Lemma inv_run acts : ∀ lc lc', inv rs lc → run acts lc = Some lc' → inv rs lc'.
Proof.
  induction acts as [|a acts IH]; intros lc lc' Hinv Hr; simpl in Hr.
  - by inversion Hr; subst.
  - destruct (exec a lc) as [lc1|] eqn:He; [|done].
    eapply IH; [|done]. by eapply inv_exec.
Qed.

Theorem inv_reachable lc : reachable rs lc → inv rs lc.
Proof. intros [acts Hr]. eapply inv_run; [apply inv_makeLifecycle|done]. Qed.
End Preservation2.

(** ** What a step keeps *)

Lemma init_kept_same lc lc' : modGuides lc' = modGuides lc → init_kept lc lc'.
Proof. intros Hm j g Hj. exists g. by rewrite Hm. Qed.

Section Frames.
Variable rs : list Registration.
Hypothesis wf : well_formed rs.

Lemma follows_same lc lc' :
  modGuides lc' = modGuides lc →
  (interruptStart lc ≠ None → interruptStart lc' ≠ None) →
  stopped_ lc' = stopped_ lc →
  ((startAct lc' = startAct lc ∧ startPromise lc' = startPromise lc) ∨
   (∃ i o, startAct lc = StartAwaiting i o ∧ startAct lc' = StartReturned)) →
  follows lc lc'.
Proof.
  intros Hm Hi Hs Ha. split; [by rewrite Hm|]. split; [done|].
  split; [intros ok; by rewrite Hs|]. split; [tauto|].
  intros j g Hj. exists g. rewrite Hm. do 4 (split; [done|]). by left.
Qed.

Lemma follows_logged lc lvl msg : follows lc (emit (Logged lvl msg) lc).
Proof. apply follows_same; auto. Qed.

Lemma follows_put lc i g g' evs :
  modGuides lc !! i = Some g →
  ¬ fin_settled g →
  (fin_issued g → fin_issued g') →
  (∀ v, g_initialize g = InitFulfilled v →
     g_initialize g' = InitFulfilled v ∧ g_inst g' = g_inst g) →
  (g_initialize g = InitNotCalled → g_initialize g' = InitNotCalled) →
  follows lc (put i g' evs lc).
Proof.
  intros Hi Hns Hiss Hful Hin. split; [apply length_put|]. split; [done|].
  split; [done|]. split; [by left|].
  intros j gj Hj. destruct (decide (i = j)) as [->|Hne].
  - exists g'. erewrite lookup_put_eq by done. simplify_eq.
    do 4 (split; [done|]). intros Hn. left. by apply Hin.
  - exists gj. rewrite lookup_put_ne by done.
    do 4 (split; [done|]). by left.
Qed.

Lemma follows_same_start_from lc lc1 lc' :
  modGuides lc1 = modGuides lc → interruptStart lc1 = interruptStart lc →
  stopped_ lc1 = stopped_ lc → startAct lc1 = startAct lc →
  startPromise lc1 = startPromise lc →
  same_start lc1 lc' → follows lc lc'.
Proof.
  intros Em Ei Es Ea Ep (Hp & Hi & Hs & Ha & Hsp & Hlen & Hg).
  rewrite Em in Hlen, Hg. rewrite Ei in Hi. rewrite Es in Hs.
  rewrite Ea in Ha. rewrite Ep in Hsp.
  split; [done|]. split; [by rewrite Hi|]. split; [intros ok; by rewrite Hs|].
  split; [by left|].
  intros j g Hj.
  destruct (lookup_lt_is_Some_2 (modGuides lc') j) as [g' Hg'].
  { rewrite Hlen. by eapply lookup_lt_Some. }
  destruct (Hg j g' Hg') as (g0 & Hg0 & Hmv). simplify_eq.
  exists g'. split; [done|]. split; [apply Hmv|]. split; [apply Hmv|].
  split.
  { intros v Hv. rewrite (fin_moved_initialize _ _ Hmv).
    split; [done|]. by destruct Hmv as (_ & _ & _ & _ & ? & _). }
  intros Hn. left. by rewrite (fin_moved_initialize _ _ Hmv).
Qed.

Lemma follows_same_start lc lc' : same_start lc lc' → follows lc lc'.
Proof. by apply follows_same_start_from. Qed.

(** Before the finalize pass nothing is settled, and while [start]
    advances it has not returned: a step from there keeps all that
    [follows] asks to keep. *)
Lemma follows_starting lc lc' :
  length (modGuides lc') = length (modGuides lc) →
  none_issued lc → interruptStart lc = None → stopped_ lc = None →
  startAct lc ≠ StartReturned →
  init_kept lc lc' →
  follows lc lc'.
Proof.
  intros Hlen Hni Hint Hstp Hst Hkept. split; [done|]. split; [done|].
  split; [intros ok; by rewrite Hstp|]. split; [by right; right|].
  intros j g Hj. destruct (Hkept j g Hj) as (g' & Hg' & Hk).
  exists g'. split; [done|]. split; [|split; [|split; [done|]]].
  - intros [ok Hok]. by rewrite (Hni j g Hj) in Hok.
  - intros Hiss. exfalso. apply Hiss. by apply (Hni j g Hj).
  - intros _. by right.
Qed.

(** Nothing to keep of guides that were never initialized. *)
Lemma not_started_kept lc lc' :
  length (modGuides lc') = length (modGuides lc) → not_started lc →
  init_kept lc lc'.
Proof.
  intros Hlen Hns j g Hj.
  destruct (lookup_lt_is_Some_2 (modGuides lc') j) as [g' Hg'].
  { rewrite Hlen. by eapply lookup_lt_Some. }
  exists g'. split; [done|]. intros v Hv.
  destruct (Hns j g Hj) as [Hn _]. congruence.
Qed.

Lemma init_kept_pass lc lc1 lc' :
  modGuides lc1 = modGuides lc → same_start lc1 lc' → init_kept lc lc'.
Proof.
  intros Em (_ & _ & _ & _ & _ & Hlen & Hg) j g Hj. rewrite Em in Hlen, Hg.
  destruct (lookup_lt_is_Some_2 (modGuides lc') j) as [g' Hg'].
  { rewrite Hlen. by eapply lookup_lt_Some. }
  destruct (Hg j g' Hg') as (g0 & Hg0 & Hmv). simplify_eq.
  exists g'. split; [done|]. intros v Hv.
  rewrite (fin_moved_initialize _ _ Hmv).
  split; [done|]. by destruct Hmv as (_ & _ & _ & _ & ? & _).
Qed.

Lemma inv_length_eq lc lc' :
  inv rs lc → inv rs lc' → length (modGuides lc') = length (modGuides lc).
Proof. intros [H _] [H' _]. by rewrite (inv_length _ _ H), (inv_length _ _ H'). Qed.

Lemma exec_follows a lc lc' :
  inv rs lc → exec a lc = Some lc' → follows lc lc'.
Proof.
  intros Hinv He. pose proof (inv_exec rs wf a lc lc' Hinv He) as Hinv'.
  pose proof (inv_length_eq lc lc' Hinv Hinv') as Hlen.
  destruct Hinv as [Hg Hctl].
  destruct a; simpl in He.
  - (* configure *)
    inversion He; subst lc'. clear He. revert Hlen Hinv'.
    unfold Engine.configure, Engine.changePhase.
    destruct (phase lc) eqn:Hp; simpl; intros Hlen Hinv';
      try apply follows_logged.
    unfold ctl_ok in Hctl. rewrite Hp in Hctl.
    destruct Hctl as (Hs & Hsp & Hst & Hint & Hstp & Hns & Hni).
    apply follows_starting; try done; [congruence|].
    by apply not_started_kept.
  - (* start *)
    inversion He; subst lc'. clear He. revert Hlen Hinv'.
    unfold Engine.start, Engine.changePhase.
    destruct (phase lc) eqn:Hp; simpl; intros Hlen Hinv';
      try apply follows_logged.
    unfold ctl_ok in Hctl. rewrite Hp in Hctl.
    destruct Hctl as (Hs & Hsp & Hst & Hint & Hstp & Hns & Hni).
    apply follows_starting; try done; [congruence|].
    by apply not_started_kept.
  - (* stop *)
    inversion He; subst lc'. clear He. revert Hlen Hinv'.
    unfold Engine.stop, Engine.changePhase.
    destruct (phase lc) eqn:Hp; simpl; intros Hlen Hinv';
      try apply follows_logged; try (apply follows_same; by auto);
      rewrite ?Hp; simpl; try apply follows_logged.
    + apply follows_same; by auto.
    + simpl.
      unfold ctl_ok in Hctl. rewrite Hp in Hctl.
      destruct Hctl as (Hsd & Hint & Hst & Hstp & Hni). rewrite Hint.
      set (lc1 := logger_info _ _).
      destruct (finalize_all_pass rs lc1) as (H1 & H2 & H3);
        [subst lc1; ginv_from lc|done|].
      simpl. by apply (follows_same_start_from lc lc1).
    + simpl.
      unfold ctl_ok in Hctl. rewrite Hp in Hctl.
      destruct Hctl as (Hsd & Hint & Hst & Hstp & Hni). rewrite Hint.
      set (lc1 := logger_info _ _).
      destruct (finalize_all_pass rs lc1) as (H1 & H2 & H3);
        [subst lc1; ginv_from lc|done|].
      simpl. by apply (follows_same_start_from lc lc1).
  - (* the promise of [mod.initialize] settles *)
    destruct (modGuides lc !! i) as [g|] eqn:Hgi; simpl in He; [|done].
    destruct (g_initialize g) eqn:Hin; try done. inversion He; subst lc'.
    destruct (initialize_resume_put i o lc g Hgi) as (lvl & msg & ->).
    destruct (awaiting_mode lc i g Hctl Hgi Hin) as (Hni & _).
    apply follows_put with (g := g); [done| | |congruence|congruence].
    + intros [ok Hok]. by rewrite (Hni i g Hgi) in Hok.
    + intros Hiss. exfalso. apply Hiss. by apply (Hni i g Hgi).
  - (* the promise of the descriptor's [finalize] settles *)
    unfold Guide.finalize_resume_callback in He.
    destruct (modGuides lc !! i) as [g|] eqn:Hgi; [|done].
    destruct (g_finalizationPromise g) as [[]|] eqn:Hf; try done.
    inversion He; subst lc'.
    destruct (finalize_finish_put i (Guide.finalizationResult o) lc g Hgi) as (msg & ->).
    apply follows_put with (g := g); [done| |done|done|done].
    intros [ok Hok]. congruence.
  - (* the dependents have settled *)
    unfold Guide.finalize_resume_dependents in He.
    destruct (modGuides lc !! i) as [g|] eqn:Hgi; [|done].
    destruct (g_finalizationPromise g) as [[]|] eqn:Hf; try done.
    destruct (Guide.all_finalized (g_dependents g) lc) as [|u|e] eqn:Ha; try done.
    + inversion He; subst lc'.
      destruct (finalize_proceed_put i lc g Hgi) as (evs & -> & Hev).
      apply follows_put with (g := g); [done| | | |].
      * intros [ok Hok]. congruence.
      * intros _. unfold g_proceed, fin_issued. by destruct (g_finalize g).
      * unfold g_proceed. by destruct (g_finalize g).
      * unfold g_proceed. by destruct (g_finalize g).
    + exfalso. apply all_finalized_rejected in Ha as (d & gd & e' & _ & Hd & Hr).
      pose proof (gk_fin _ _ _ _ (inv_guides _ _ Hg d gd Hd)) as Hx.
      by rewrite Hr in Hx.
  - (* [start] resumes *)
    unfold Engine.start_resume in He.
    destruct (startAct lc) as [|k o|] eqn:Hs; try done.
    destruct (start_mode lc k o Hctl Hs) as (Hat & Hni & Hstp & Hsp & Hmode).
    destruct Hmode as [(Hp & Hint & Hst)|(Hp & Hint & Hst)].
    + apply follows_starting; try done; [congruence|].
      destruct (modGuides lc !! k) as [g|] eqn:Hgk; simpl in He; [|done].
      pose proof (inv_guides _ _ Hg k g Hgk) as Hgok.
      destruct (g_initialize g) as [| |v|e] eqn:Hin; try done; rewrite ?Hint in He.
      2: { inversion He. by apply init_kept_same. }
      destruct (truthy v) eqn:Htr; simpl in He.
      * inversion He; subst lc'. unfold Engine.start_loop.
        destruct (Nat.ltb_spec (S k) (length (modGuides lc))) as [Hlt|Hge];
          [|by apply init_kept_same].
        destruct (lookup_lt_is_Some_2 (modGuides lc) (S k)) as [gn Hgn]; [done|].
        unfold init_kept. simpl.
        apply (initialize_kept rs wf lc (S k) gn); try done.
        -- intros j gj Hj Hgj. destruct (decide (j = k)) as [->|Hne].
           ++ exists v. split; [congruence|done].
           ++ destruct (gk_earlier _ _ _ _ Hgok) with (j := j)
                as (gj' & w & ? & ? & ?); [unfold init_called; congruence|lia|].
              exists w. split; [congruence|done].
        -- destruct Hat as (_ & _ & Hlater). apply (Hlater (S k) gn); [lia|done].
      * destruct (Engine.wants_autoStop o); [|inversion He; by apply init_kept_same].
        unfold Engine.stop, Engine.changePhase in He. simpl in He.
        rewrite Hint in He. simpl in He. inversion He; subst lc'. clear He.
        set (lc1 := logger_info _ (set_phase p_stopping _)).
        destruct (finalize_all_pass rs lc1) as (H1 & H2 & H3);
          [subst lc1; ginv_from lc|done|].
        intros j gj Hj. simpl.
        by apply (init_kept_pass lc lc1 (Engine.finalize_all lc1)).
    + destruct (modGuides lc !! k) as [g|] eqn:Hgk; simpl in He; [|done].
      destruct (g_initialize g) eqn:Hin; try done; rewrite ?Hint in He;
        inversion He; subst lc'.
      * apply follows_same; try done. right. eauto.
      * apply follows_same; try done. right. eauto.
  - (* the finalize pass resumes *)
    unfold Engine.stop_resume in He.
    pose proof (stop_mode lc Hctl) as Hm.
    destruct (stopAct lc) as [| |i rest proms|proms| |] eqn:Hst; try done.
    + destruct Hm as (Hp & Hstp & Hni & Hm).
      destruct (interruptStart lc) as [[]|] eqn:Hint; try done.
      inversion He; subst lc'.
      destruct (finalize_all_pass rs lc Hg Hni) as (H1 & H2 & H3).
      by apply follows_same_start.
    + destruct Hm as (Hp & Hstp & Hsd & -> & Hi & Hpass).
      destruct (Engine.promise_all proms lc) as [|oks|e] eqn:Hall; try done.
      2: by apply (promise_all_never_rejected rs) in Hall.
      inversion He; subst lc'. clear He.
      destruct (pass_all_settled lc (S i) proms oks Hpass Hall) as [Hset Hok].
      destruct (lookup_lt_is_Some_2 (modGuides lc) i) as [g Hgi]; [lia|].
      pose proof Hpass as (Hiss & _).
      assert (Hfp : g_finalizationPromise g = None).
      { destruct (g_finalizationPromise g) eqn:Hf; [|done].
        assert (fin_issued g) as Hx by (unfold fin_issued; congruence).
        apply (Hiss i g Hgi) in Hx. lia. }
      assert (Hlater : ∀ j gj, i < j → modGuides lc !! j = Some gj → fin_issued gj).
      { intros j gj Hlt Hj. apply (Hiss j gj Hj). lia. }
      assert (Hord : is_ordered g = true →
        ∀ j gj, i < j → modGuides lc !! j = Some gj → fin_settled gj).
      { intros _ j gj Hlt Hj. eapply Hset; [|done]. lia. }
      destruct (finalize_issue rs lc i g Hg Hgi Hfp Hlater Hord)
        as (g' & evs & Hfin & Hiss' & Hmv & Hinv2).
      rewrite Hfin in *.
      destruct (finalize_loop_pass rs i
                  ([PResolve (Engine.every_ok oks)] ++ [PGuide i])
                  (put i g' evs lc)) as (H1 & H2 & H3).
      { done. }
      { rewrite length_put. lia. }
      { eapply pass_ok_issue; [done|done|]. split; [done|].
        exists (S i), [PResolve (Engine.every_ok oks)].
        split; [lia|]. rewrite Nat.sub_diag. split; [done|]. right.
        exists (Engine.every_ok oks). done. }
      apply follows_same_start.
      eapply same_start_trans; [|exact H2]. by eapply same_start_put.
    + destruct Hm as (Hp & Hstp & Hsd & Hpass).
      destruct (Engine.promise_all proms lc) as [|oks|e] eqn:Hall; try done.
      2: by apply (promise_all_never_rejected rs) in Hall.
      inversion He; subst lc'. clear He Hinv' Hlen.
      unfold Engine.resolve_stopped. simpl. rewrite Hstp.
      split; [done|]. split; [done|]. split; [intros ok; by rewrite Hstp|].
      split; [by left|].
      intros j gj Hj. exists gj. do 4 (split; [done|]). by left.
Qed.
End Frames.

Lemma run_app acts1 acts2 lc :
  run (acts1 ++ acts2) lc =
  match run acts1 lc with Some lc1 => run acts2 lc1 | None => None end.
Proof.
  revert lc. induction acts1 as [|a acts1 IH]; intros lc; simpl; [done|].
  destruct (exec a lc); [apply IH|done].
Qed.

Lemma reachable_run rs acts lc lc' :
  reachable rs lc → run acts lc = Some lc' → reachable rs lc'.
Proof.
  intros [acts0 H0] Hr. exists (acts0 ++ acts). by rewrite run_app, H0.
Qed.

Lemma reachable_exec rs a lc lc' :
  reachable rs lc → exec a lc = Some lc' → reachable rs lc'.
Proof. intros Hr He. apply (reachable_run rs [a] lc); [done|]. simpl. by rewrite He. Qed.

(** ** Dependents finalize first *)


(** ** The ordered-finalization barrier *)




(** ** Stop during starting *)






(** ** At most one finalization *)

Lemma keeps_run rs acts : ∀ lc lc',
  well_formed rs → inv rs lc → run acts lc = Some lc' → keeps lc lc'.
Proof.
  induction acts as [|a acts IH]; intros lc lc' wf Hinv Hr; simpl in Hr.
  - simplify_eq. split; [done|]. intros j g Hj. by exists g.
  - destruct (exec a lc) as [lc1|] eqn:He; [|done].
    pose proof (exec_follows rs wf a lc lc1 Hinv He) as (_ & _ & Hs & _ & Hg).
    destruct (IH lc1 lc' wf (inv_exec rs wf a lc lc1 Hinv He) Hr) as [Hs' Hg'].
    split; [by auto|]. intros j g Hj.
    destruct (Hg j g Hj) as (g1 & Hj1 & Hset1 & Hiss1 & Hin1 & _).
    destruct (Hg' j g1 Hj1) as (g' & Hj' & Hset' & Hiss' & Hin').
    exists g'. split; [done|]. split; [|split; [by auto|]].
    + intros Hset. pose proof (Hset1 Hset) as ->. by apply Hset'.
    + intros v Hv. destruct (Hin1 v Hv) as [Hv1 Hi1].
      destruct (Hin' v Hv1) as [Hv' Hi']. split; [done|congruence].
Qed.



(** ** Start order and results *)

(** Once [start] has returned, its result stands and no further guide
    is initialized. *)
Lemma returned_run rs acts : ∀ lc lc',
  well_formed rs → inv rs lc → startAct lc = StartReturned →
  run acts lc = Some lc' →
  startAct lc' = StartReturned ∧ startPromise lc' = startPromise lc ∧
  ∀ j g', modGuides lc' !! j = Some g' →
    ∃ g, modGuides lc !! j = Some g ∧
      (g_initialize g = InitNotCalled → g_initialize g' = InitNotCalled).
Proof.
  induction acts as [|a acts IH]; intros lc lc' wf Hinv Hs Hr; simpl in Hr.
  - simplify_eq. do 2 (split; [done|]). intros j g Hj. by exists g.
  - destruct (exec a lc) as [lc1|] eqn:He; [|done].
    pose proof (exec_follows rs wf a lc lc1 Hinv He) as (Hlen & _ & _ & Hst & Hg).
    assert (startAct lc1 = StartReturned ∧ startPromise lc1 = startPromise lc)
      as [Hs1 Hp1].
    { destruct Hst as [[? ?]|[(k & o & ? & ?)|[_ ?]]]; [|congruence|done].
      split; congruence. }
    destruct (IH lc1 lc' wf (inv_exec rs wf a lc lc1 Hinv He) Hs1 Hr)
      as (Hs' & Hp' & Hg').
    split; [done|]. split; [congruence|]. intros j g' Hj'.
    destruct (Hg' j g' Hj') as (g1 & Hj1 & Hn1).
    destruct (lookup_lt_is_Some_2 (modGuides lc) j) as [g Hj].
    { rewrite <- Hlen. by eapply lookup_lt_Some. }
    destruct (Hg j g Hj) as (g1' & Hj1' & _ & _ & _ & Hn). simplify_eq.
    exists g. split; [done|]. intros Hnc. apply Hn1.
    destruct (Hn Hnc) as [|[_ ?]]; done.
Qed.

Lemma wants_autoStop_true o :
  Engine.wants_autoStop o = true ↔ ∃ so, o = Some so ∧ autoStopOnError so = Some true.
Proof.
  unfold Engine.wants_autoStop, truthy_flag. split.
  - destruct o as [[[[]|]]|]; try done. eauto.
  - by intros (so & -> & ->).
Qed.

(** [start] resumes after an [initialize()] that gave no instance, no
    [stop()] having been called meanwhile. *)
Lemma start_resume_falsy rs lc i o gi v :
  well_formed rs → inv rs lc →
  startAct lc = StartAwaiting i o → modGuides lc !! i = Some gi →
  g_initialize gi = InitFulfilled v → interruptStart lc = None →
  truthy v = false →
  ∃ lc' msg, Engine.start_resume lc = Some lc' ∧
    let lcf := emit (Logged Info msg) (set_phase p_starting_failed lc) in
    phase lcf = p_starting_failed ∧
    (Engine.stop lcf).1 = Normal () ∧
    lc' = set_start StartReturned
            (Fulfilled {| started := false;
                          stopping := Some (Engine.wants_autoStop o) |})
            (if Engine.wants_autoStop o then (Engine.stop lcf).2 else lcf) ∧
    phase lc' = (if Engine.wants_autoStop o then p_stopping else p_starting_failed) ∧
    ∀ acts lc2, run acts lc' = Some lc2 →
      startPromise lc2 =
        Fulfilled {| started := false;
                     stopping := Some (Engine.wants_autoStop o) |} ∧
      ∀ j gj, i < j → modGuides lc2 !! j = Some gj →
        g_initialize gj = InitNotCalled ∧ calls ModInitialize j lc2 = 0.
Proof.
  intros wf Hinv Hs Hgi Hin Hint Htr. pose proof Hinv as [Hg Hctl].
  destruct (start_mode lc i o Hctl Hs) as (Hat & Hni & Hstp & Hsp & Hmode).
  destruct Hmode as [(Hp & _ & Hst)|(_ & ? & _)]; [|congruence].
  assert (Hafter : ∀ j gj, S i ≤ j → modGuides lc !! j = Some gj →
    g_initialize gj = InitNotCalled).
  { intros j gj Hj Hgj. destruct Hat as (_ & _ & Hlater).
    apply (Hlater j gj); [lia|done]. }
  destruct (Engine.start_resume lc) as [lc'|] eqn:Hr.
  2: { unfold Engine.start_resume in Hr. rewrite Hs, Hgi in Hr. simpl in Hr.
       rewrite Hin, Hint in Hr. by repeat case_match. }
  pose proof (inv_start_resume rs wf lc lc' Hinv Hr) as Hinv'.
  exists lc', ("Lifecycle phase changed to '" +:+ Phase_name p_starting_failed +:+ "'.").
  split; [done|].
  unfold Engine.start_resume in Hr. rewrite Hs, Hgi in Hr. simpl in Hr.
  rewrite Hin, Hint, Htr in Hr. simpl in Hr.
  split; [done|].
  set (lcf := emit _ (set_phase p_starting_failed lc)) in *.
  assert (Hstop : ∃ lc1, phase lc1 = p_stopping ∧ ginv rs lc1 ∧ none_issued lc1 ∧
    modGuides lc1 = modGuides lc ∧ startAct lc1 = startAct lc ∧
    Engine.stop lcf = (Normal (), Engine.finalize_all lc1)).
  { unfold Engine.stop, Engine.changePhase. simpl. rewrite Hint. simpl.
    eexists. split; [|split; [|split; [|split; [|split; [|reflexivity]]]]];
      try done.
    ginv_from lc. }
  destruct Hstop as (lc1 & Hp1 & Hg1 & Hni1 & Hm1 & Hs1 & Hstop).
  split; [by rewrite Hstop|].
  destruct (finalize_all_pass rs lc1 Hg1 Hni1) as (_ & Hsame & _).
  destruct Hsame as (Ep & _ & _ & _ & _ & Hlen & Hmv).
  assert (Hlc' : lc' = set_start StartReturned
     (Fulfilled {| started := false; stopping := Some (Engine.wants_autoStop o) |})
     (if Engine.wants_autoStop o then (Engine.stop lcf).2 else lcf)).
  { assert (Hr' :
      (if Engine.wants_autoStop o then
         match Engine.stop lcf with
         | (Throw e, l) => Some (set_start StartReturned (Rejected e) l)
         | (Normal _, l) =>
             Some (set_start StartReturned
                     (Fulfilled {| started := false; stopping := Some true |}) l)
         end
       else Some (set_start StartReturned
                    (Fulfilled {| started := false; stopping := Some false |}) lcf))
      = Some lc') by exact Hr.
    destruct (Engine.wants_autoStop o); [|by inversion Hr'].
    rewrite Hstop in Hr'. rewrite Hstop. by inversion Hr'. }
  split; [done|].
  assert (Hlater : ∀ j gj, i < j → modGuides lc' !! j = Some gj →
    g_initialize gj = InitNotCalled).
  { intros j gj Hj Hgj. rewrite Hlc' in Hgj. simpl in Hgj.
    destruct (Engine.wants_autoStop o).
    - rewrite Hstop in Hgj. simpl in Hgj.
      destruct (Hmv j gj Hgj) as (g0 & Hg0 & Hfm).
      rewrite (fin_moved_initialize _ _ Hfm). rewrite Hm1 in Hg0.
      apply (Hafter j g0); [lia|done].
    - simpl in Hgj. apply (Hafter j gj); [lia|done]. }
  split.
  { rewrite Hlc'. simpl. destruct (Engine.wants_autoStop o); [|done].
    rewrite Hstop. simpl. congruence. }
  intros acts lc2 Hrun.
  destruct (returned_run rs acts lc' lc2 wf Hinv') as (Hs2 & Hp2 & Hg2); [|done|].
  { rewrite Hlc'. done. }
  split; [rewrite Hp2, Hlc'; done|].
  intros j gj Hj Hgj. destruct (Hg2 j gj Hgj) as (g0 & Hg0 & Hn).
  pose proof (Hn (Hlater j g0 Hj Hg0)) as Hnc. split; [done|].
  pose proof (inv_run rs wf acts lc' lc2 Hinv' Hrun) as [Hginv2 _].
  by apply (gk_init_calls rs lc2 j gj (inv_guides rs lc2 Hginv2 j gj Hgj)).
Qed.

(** C5, with its condition.  In every reachable state a guide whose
    [initialize()] was called has every earlier guide initialized with
    a truthy result, and [mod.initialize] was called at most once per
    guide.  [start()] in phase [configured] enters [starting] and goes
    to the first guide.  When [start] resumes after the [initialize()]
    of guide [i], and no [stop()] was called since [start()] began:
    with a truthy result it calls the [initialize()] of guide [i + 1]
    and awaits it, or after the last guide sets the phase [ready] and
    resolves [{started: true}]; with a falsy result it sets the phase
    [starting_failed], calls [stop()] iff [autoStopOnError] is true,
    resolves [{started: false, stopping: autoStopOnError === true}],
    and in no later state is a guide after [i] initialized. *)
Theorem start_in_registration_order rs lc :
  well_formed rs → reachable rs lc →
  (∀ j gj, modGuides lc !! j = Some gj → init_called gj →
     calls ModInitialize j lc ≤ 1 ∧
     ∀ k, k < j → ∃ gk v, modGuides lc !! k = Some gk ∧
       g_initialize gk = InitFulfilled v ∧ truthy v = true) ∧
  (∀ o, phase lc = p_configured →
     ∃ lc1, phase lc1 = p_starting ∧ modGuides lc1 = modGuides lc ∧
       Engine.start o lc =
         (Normal (startPromise (Engine.start_loop 0 o lc1)),
          Engine.start_loop 0 o lc1)) ∧
  ∀ i o gi v,
    startAct lc = StartAwaiting i o → modGuides lc !! i = Some gi →
    g_initialize gi = InitFulfilled v → interruptStart lc = None →
    phase lc = p_starting ∧
    ∃ lc', Engine.start_resume lc = Some lc' ∧
      if truthy v then
        if (S i <? length (modGuides lc))%nat then
          lc' = set_start (StartAwaiting (S i) o) Pending (Guide.initialize (S i) lc) ∧
          phase lc' = p_starting ∧ awaiting_at lc' (S i)
        else
          phase lc' = p_ready ∧ modGuides lc' = modGuides lc ∧
          startAct lc' = StartReturned ∧
          startPromise lc' = Fulfilled {| started := true; stopping := None |} ∧
          ∀ j gj, modGuides lc !! j = Some gj →
            ∃ w, g_initialize gj = InitFulfilled w ∧ truthy w = true
      else
        ∃ msg,
          let lcf := emit (Logged Info msg) (set_phase p_starting_failed lc) in
          phase lcf = p_starting_failed ∧
          (Engine.stop lcf).1 = Normal () ∧
          lc' = set_start StartReturned
                  (Fulfilled {| started := false;
                                stopping := Some (Engine.wants_autoStop o) |})
                  (if Engine.wants_autoStop o then (Engine.stop lcf).2 else lcf) ∧
          phase lc' = (if Engine.wants_autoStop o then p_stopping else p_starting_failed) ∧
          ∀ acts lc2, run acts lc' = Some lc2 →
            startPromise lc2 =
              Fulfilled {| started := false;
                           stopping := Some (Engine.wants_autoStop o) |} ∧
            ∀ j gj, i < j → modGuides lc2 !! j = Some gj →
              g_initialize gj = InitNotCalled ∧ calls ModInitialize j lc2 = 0.
Proof.
  intros wf Hreach. pose proof (inv_reachable rs wf lc Hreach) as Hinv.
  pose proof Hinv as [Hg Hctl]. split; [|split].
  - intros j gj Hj Hc. pose proof (inv_guides rs lc Hg j gj Hj) as Hgj.
    split; [by apply (gk_init_calls rs lc j gj Hgj)|].
    intros k Hk. by apply (gk_earlier rs lc j gj Hgj).
  - intros o Hp. unfold Engine.start, Engine.changePhase. rewrite Hp. simpl.
    eexists. split; [|split; [|reflexivity]]; done.
  - intros i o gi v Hs Hgi Hin Hint.
    destruct (start_mode lc i o Hctl Hs) as (Hat & Hni & Hstp & Hsp & Hmode).
    destruct Hmode as [(Hp & _ & Hst)|(_ & ? & _)]; [|congruence].
    split; [done|].
    pose proof (inv_guides rs lc Hg i gi Hgi) as Hgk.
    assert (Hbefore : truthy v = true → ∀ j gj, j < S i → modGuides lc !! j = Some gj →
      ∃ w, g_initialize gj = InitFulfilled w ∧ truthy w = true).
    { intros Htr j gj Hj Hgj. destruct (decide (j = i)) as [->|Hne].
      - exists v. split; [congruence|done].
      - destruct (gk_earlier rs lc i gi Hgk) with (j := j) as (gj' & w & ? & ? & ?);
          [unfold init_called; congruence|lia|].
        exists w. split; [congruence|done]. }
    assert (Hafter : ∀ j gj, S i ≤ j → modGuides lc !! j = Some gj →
      g_initialize gj = InitNotCalled).
    { intros j gj Hj Hgj. destruct Hat as (_ & _ & Hlater).
      apply (Hlater j gj); [lia|done]. }
    destruct (Engine.start_resume lc) as [lc'|] eqn:Hr.
    2: { unfold Engine.start_resume in Hr. rewrite Hs, Hgi in Hr. simpl in Hr.
         rewrite Hin, Hint in Hr. by repeat case_match. }
    pose proof (inv_start_resume rs wf lc lc' Hinv Hr) as Hinv'.
    exists lc'. split; [done|].
    destruct (truthy v) eqn:Htr.
    + unfold Engine.start_resume in Hr. rewrite Hs, Hgi in Hr. simpl in Hr.
      rewrite Hin, Hint, Htr in Hr. simpl in Hr.
      inversion Hr; subst lc'. clear Hr. unfold Engine.start_loop in *.
      destruct (Nat.ltb_spec (S i) (length (modGuides lc))) as [Hlt|Hge].
      * destruct (lookup_lt_is_Some_2 (modGuides lc) (S i)) as [g Hgs]; [done|].
        destruct (initialize_next rs wf lc (S i) g Hg Hni Hgs (Hbefore eq_refl) Hafter)
          as (H1 & H2 & H3 & (E1 & _)).
        split; [done|]. simpl. split; [congruence|done].
      * simpl. do 4 (split; [done|]). intros j gj Hj.
        apply (Hbefore eq_refl j gj); [|done].
        apply lookup_lt_Some in Hj. lia.
    + destruct (start_resume_falsy rs lc i o gi v wf Hinv Hs Hgi Hin Hint Htr)
        as (lc0 & msg & Hr0 & Hrest).
      assert (lc0 = lc') as -> by congruence. by exists msg.
Qed.

(** ** Configuration *)








(** ** Finalization failures *)





Open Scope string_scope.

(** ** The status object *)

(** C8. [status()] returns an object with exactly the properties
    [phase], the current phase, and [modules], the entries from each
    guide's name to [{state, status}] where [status] is the result of
    the descriptor's [status()], or the empty object without one.  It
    has no property [inStoppablePhase], in no phase: reading it gives
    [undefined], as in the phase [ready] of the example stack. *)
Theorem status_without_inStoppablePhase lc :
  Engine.status lc =
    [("phase", Engine.SPhase (phase lc));
     ("modules",
      Engine.SModules
        (map (λ g, (g_name g,
                    {| Guide.st_state := g_state g;
                       Guide.st_status :=
                         match g_status g with Some f => f () | None => [] end |}))
             (modGuides lc)))] ∧
  property "phase" (Engine.status lc) = Some (Engine.SPhase (phase lc)) ∧
  property "inStoppablePhase" (Engine.status lc) = None ∧
  reachable Sample.stack Sample.ready ∧
  property "phase" (Engine.status Sample.ready) = Some (Engine.SPhase p_ready) ∧
  property "inStoppablePhase" (Engine.status Sample.ready) = None.
Proof.
  do 3 (split; [reflexivity|]).
  split.
  { exists [CallConfigure Sample.noEnv; CallStart None;
            SettleInitialize 0 Sample.instance; ResumeStart;
            SettleInitialize 1 Sample.instance; ResumeStart;
            SettleInitialize 2 Sample.instance; ResumeStart].
    vm_compute. reflexivity. }
  split; vm_compute; reflexivity.
Qed.

(** ** Phase errors *)

Ltac not_listed H :=
  exfalso; repeat (apply elem_of_cons in H as [H|H]; [discriminate H|]);
  by apply elem_of_nil in H.

(** C9, as the code has it.  [configure()] outside [loading] and
    [stop()] in [loading], [configuring], [configuration_failed],
    [configured] or [stopping_failed] throw the [phase.incorrect] error
    to the caller; [start()] outside [configured], being an async
    function, returns normally a promise rejected with that error.
    In all three cases the error is logged and nothing else changes,
    the phase in particular.  In the other phases none of them throws
    or rejects so. *)
Theorem phase_incorrect_errors lc :
  (∀ envVars, phase lc ≠ p_loading →
     Engine.configure envVars lc =
       (Throw (phase_error p_configuring lc),
        logger_error (message (phase_error p_configuring lc)) lc)) ∧
  (∀ o, phase lc ≠ p_configured →
     Engine.start o lc =
       (Normal (Rejected (phase_error p_starting lc)),
        logger_error (message (phase_error p_starting lc)) lc)) ∧
  (phase lc ∈ [p_loading; p_configuring; p_configuration_failed; p_configured;
               p_stopping_failed] →
     Engine.stop lc =
       (Throw (phase_error p_stopping lc),
        logger_error (message (phase_error p_stopping lc)) lc)) ∧
  (∀ msg, phase (logger_error msg lc) = phase lc ∧
          modGuides (logger_error msg lc) = modGuides lc) ∧
  (∀ envVars, phase lc = p_loading →
     ∃ r, (Engine.configure envVars lc).1 = Normal r) ∧
  (∀ o, phase lc = p_configured →
     ∀ e, (Engine.start o lc).1 ≠ Throw e ∧
          (Engine.start o lc).1 ≠ Normal (Rejected (phase_error p_starting lc))) ∧
  (phase lc ∈ [p_starting; p_ready; p_starting_failed; p_stopping; p_stopped] →
     (Engine.stop lc).1 = Normal ()).
Proof.
  split; [|split; [|split; [|split; [|split; [|split]]]]].
  - intros envVars Hp. unfold Engine.configure, Engine.changePhase, phase_error.
    by destruct (phase lc).
  - intros o Hp. unfold Engine.start, Engine.changePhase, phase_error.
    by destruct (phase lc).
  - intros Hp. unfold Engine.stop, Engine.changePhase, phase_error.
    destruct (phase lc) eqn:E; simpl; try done; rewrite ?E; try done;
      not_listed Hp.
  - done.
  - intros envVars Hp. unfold Engine.configure, Engine.changePhase. rewrite Hp. simpl.
    destruct (Engine.configure_guides _ _ _). by eexists.
  - intros o Hp e. unfold Engine.start, Engine.changePhase. rewrite Hp. simpl.
    split; [done|]. unfold Engine.start_loop.
    destruct (_ <? _)%nat; simpl; done.
  - intros Hp. unfold Engine.stop, Engine.changePhase.
    destruct (phase lc) eqn:E; simpl; try done; rewrite ?E; simpl;
      try (by destruct (interruptStart lc)); not_listed Hp.
Qed.

(** ** Falsy instances *)

Lemma coalesce_defined v : is_undefined v = false → coalesce v VNull = v.
Proof. by destruct v. Qed.

(** C10, as the code has it.  When the promise of [mod.initialize]
    resolves with an instance that is defined but falsy, the guide
    gets the state [initialized] and the instance; its [initialize()]
    returns the instance itself ([inst ?? null] goes by presence) and
    [getInstance] returns it.  [start] then finds the result falsy:
    unless [stop()] was called meanwhile, it sets the phase
    [starting_failed], calls [stop()] iff [autoStopOnError] is true,
    resolves [{started: false, stopping: autoStopOnError === true}],
    and no later guide is ever initialized.  In every later state the
    guide has that instance, its descriptor's finalize callback was
    never called, and its [finalize()], if called, has resolved [true]
    at once, in the same call. *)
Theorem falsy_instance rs lc i g v fin st :
  well_formed rs → reachable rs lc →
  modGuides lc !! i = Some g → g_initialize g = InitAwaiting →
  is_undefined v = false → truthy v = false →
  ∃ lc1 g1 o,
    exec (SettleInitialize i (InitReturns v fin st)) lc = Some lc1 ∧
    modGuides lc1 !! i = Some g1 ∧
    g_state g1 = s_initialized ∧ g_inst g1 = v ∧
    g_initialize g1 = InitFulfilled v ∧
    (∀ d, (Guide.getInstance i d lc1).1 = Normal v) ∧
    startAct lc1 = StartAwaiting i o ∧
    (interruptStart lc1 = None →
       ∃ lc2 msg, Engine.start_resume lc1 = Some lc2 ∧
         let lcf := emit (Logged Info msg) (set_phase p_starting_failed lc1) in
         phase lcf = p_starting_failed ∧
         lc2 = set_start StartReturned
                 (Fulfilled {| started := false;
                               stopping := Some (Engine.wants_autoStop o) |})
                 (if Engine.wants_autoStop o then (Engine.stop lcf).2 else lcf) ∧
         ∀ acts lc3, run acts lc2 = Some lc3 →
           ∀ j gj, i < j → modGuides lc3 !! j = Some gj →
             g_initialize gj = InitNotCalled ∧ calls ModInitialize j lc3 = 0) ∧
    ∀ acts lc3, run acts lc1 = Some lc3 →
      ∃ g3, modGuides lc3 !! i = Some g3 ∧ g_inst g3 = v ∧
        g_initialize g3 = InitFulfilled v ∧
        calls ModFinalize i lc3 = 0 ∧
        in_finalization (g_state g3) = false ∧
        (g_finalizationPromise g3 = None ∨
         g_finalizationPromise g3 = Some (FinFulfilled true)) ∧
        (g_finalizationPromise g3 = None →
           Guide.finalize i lc3 =
             on_guide i (set_finalizationPromise (FinFulfilled true)) lc3).
Proof.
  intros wf Hreach Hgi Ha Hdef Hfalsy.
  pose proof (inv_reachable rs wf lc Hreach) as Hinv. pose proof Hinv as [Hg Hctl].
  destruct (awaiting_mode lc i g Hctl Hgi Ha) as (_ & _ & _ & _ & (o & Hs) & _).
  assert (He : exec (SettleInitialize i (InitReturns v fin st)) lc =
    Some (Guide.initialize_resume i (InitReturns v fin st) lc)).
  { simpl. by rewrite Hgi; simpl; rewrite Ha. }
  pose proof (inv_exec rs wf _ lc _ Hinv He) as Hinv1.
  destruct (initialize_resume_put i (InitReturns v fin st) lc g Hgi) as (lvl & msg & Hput).
  rewrite Hput in He, Hinv1.
  set (g1 := g_settled (InitReturns v fin st) g) in *.
  set (lc1 := put i g1 _ lc) in *.
  assert (Hg1 : modGuides lc1 !! i = Some g1).
  { subst lc1. by erewrite lookup_put_eq. }
  assert (Hin1 : g_initialize g1 = InitFulfilled v).
  { subst g1. simpl. by rewrite coalesce_defined. }
  exists lc1, g1, o. do 4 (split; [done|]). split; [done|]. split.
  { intros d. rewrite (getInstance_ok i d lc1 g1 Hg1); done. }
  split; [done|]. split.
  - intros Hint.
    destruct (start_resume_falsy rs lc1 i o g1 v wf Hinv1 Hs Hg1 Hin1 Hint Hfalsy)
      as (lc2 & msg2 & Hr & Hlcf & _ & Hlc2 & _ & Hrun).
    exists lc2, msg2. do 3 (split; [done|]).
    intros acts lc3 Hr3. by apply (Hrun acts lc3 Hr3).
  - intros acts lc3 Hrun.
    destruct (keeps_run rs acts lc1 lc3 wf Hinv1 Hrun) as [_ Hk].
    destruct (Hk i g1 Hg1) as (g3 & Hg3 & _ & _ & Hin).
    destruct (Hin v Hin1) as [Hin3 Hinst3].
    assert (Hv3 : g_inst g3 = v) by (by rewrite Hinst3).
    pose proof (inv_run rs wf acts lc1 lc3 Hinv1 Hrun) as [Hginv3 _].
    pose proof (inv_guides rs lc3 Hginv3 i g3 Hg3) as Hok.
    exists g3. do 3 (split; [done|]).
    split; [apply (gk_falsy rs lc3 i g3 Hok); congruence|].
    pose proof (gk_fin rs lc3 i g3 Hok) as Hf. rewrite Hv3 in Hf.
    split; [|split].
    + destruct (g_finalizationPromise g3) as [[| |ok|e]|]; try done;
        try (destruct Hf as (_ & ? & _); congruence);
        try (destruct Hf as (_ & ?); congruence).
      destruct Hf as [[? _]|(_ & _ & ?)]; [congruence|done].
    + destruct (g_finalizationPromise g3) as [[| |ok|e]|]; try done;
        try (destruct Hf as (_ & ? & _); congruence);
        try (destruct Hf as (_ & ?); congruence); [|by left].
      right. destruct Hf as [[? _]|(_ & -> & _)]; [congruence|done].
    + intros Hnone. unfold Guide.finalize. by rewrite Hg3, Hnone, Hv3, Hfalsy.
Qed.
Close Scope string_scope.

Lemma well_formed_stack : well_formed Sample.stack.
Proof.
  intros i r Hi. destruct i as [|[|[|i]]]; simpl in Hi; simplify_eq; simpl;
    repeat constructor.
Qed.

Lemma reachable_after acts :
  is_Some (run acts (makeLifecycle (guides_of Sample.stack))) →
  reachable Sample.stack (Sample.after acts).
Proof. intros [lc H]. exists acts. unfold Sample.after. by rewrite H. Qed.

(** ** The theorems at the example *)





Lemma start_in_registration_order_witness :
  reachable Sample.stack Sample.first_failed ∧
  startAct Sample.first_failed = StartAwaiting 0 None ∧
  modGuides Sample.first_failed !! 0 = Some (Sample.guide 0 Sample.first_failed) ∧
  g_initialize (Sample.guide 0 Sample.first_failed) = InitFulfilled VNull ∧
  interruptStart Sample.first_failed = None ∧
  ∃ lc', Engine.start_resume Sample.first_failed = Some lc' ∧
    phase lc' = p_starting_failed ∧
    startPromise lc' = Fulfilled {| started := false; stopping := Some false |}.
Proof.
  split; [apply reachable_after; vm_compute; eauto|].
  do 4 (split; [vm_compute; reflexivity|]).
  destruct (start_in_registration_order Sample.stack Sample.first_failed
              well_formed_stack) as (_ & _ & H).
  - apply reachable_after. vm_compute. eauto.
  - destruct (H 0 None (Sample.guide 0 Sample.first_failed) VNull)
      as (_ & lc' & Hr & Hc).
    + vm_compute; reflexivity.
    + vm_compute; reflexivity.
    + vm_compute; reflexivity.
    + vm_compute; reflexivity.
    + simpl in Hc. destruct Hc as (msg & _ & _ & Hlc & Hp & _).
      exists lc'. split; [exact Hr|]. split; [exact Hp|].
      rewrite Hlc. reflexivity.
Defined.



Lemma phase_incorrect_errors_witness :
  phase Sample.configured ≠ p_loading ∧
  Engine.configure Sample.noEnv Sample.configured =
    (Throw (phase_error p_configuring Sample.configured),
     logger_error (message (phase_error p_configuring Sample.configured))
       Sample.configured).
Proof.
  split; [vm_compute; discriminate|].
  apply (proj1 (phase_incorrect_errors Sample.configured) Sample.noEnv).
  vm_compute. discriminate.
Defined.

Lemma falsy_instance_witness :
  reachable Sample.stack Sample.starting ∧
  modGuides Sample.starting !! 0 = Some (Sample.guide 0 Sample.starting) ∧
  g_initialize (Sample.guide 0 Sample.starting) = InitAwaiting ∧
  is_undefined (VNum 0) = false ∧ truthy (VNum 0) = false ∧
  ∃ lc1 g1,
    exec (SettleInitialize 0 (InitReturns (VNum 0) None None)) Sample.starting
      = Some lc1 ∧
    modGuides lc1 !! 0 = Some g1 ∧ g_state g1 = s_initialized ∧
    g_initialize g1 = InitFulfilled (VNum 0).
Proof.
  split; [apply reachable_after; vm_compute; eauto|].
  do 4 (split; [vm_compute; reflexivity|]).
  destruct (falsy_instance Sample.stack Sample.starting 0
              (Sample.guide 0 Sample.starting) (VNum 0) None None
              well_formed_stack)
    as (lc1 & g1 & o & He & Hg & Hs & _ & Hi & _).
  - apply reachable_after. vm_compute. eauto.
  - vm_compute; reflexivity.
  - vm_compute; reflexivity.
  - vm_compute; reflexivity.
  - vm_compute; reflexivity.
  - exists lc1, g1. split; [exact He|]. split; [exact Hg|]. split; [exact Hs|exact Hi].
Defined.

(** ** Where the statements fail *)

(** C5 as it is stated fails when [stop()] is called while a guide
    that then gives no instance initializes: [start], without
    [autoStopOnError], resolves [{started: false, stopping: true}], and
    the phase is [stopping], never [starting_failed]. *)
Lemma start_failure_interrupted_counterexample :
  reachable Sample.stack Sample.interrupted_failure ∧
  startAct Sample.interrupted_failure = StartAwaiting 0 None ∧
  g_state (Sample.guide 0 Sample.interrupted_failure) = s_initialization_failed ∧
  g_initialize (Sample.guide 0 Sample.interrupted_failure) = InitFulfilled VNull ∧
  Engine.wants_autoStop None = false ∧
  ∃ lc', Engine.start_resume Sample.interrupted_failure = Some lc' ∧
    startPromise lc' = Fulfilled {| started := false; stopping := Some true |} ∧
    phase lc' = p_stopping ∧
    Forall (λ e, e ≠ Logged Info "Lifecycle phase changed to 'starting_failed'.")
           (trace lc').
Proof.
  split; [apply reachable_after; vm_compute; eauto|].
  do 4 (split; [vm_compute; reflexivity|]).
  eexists. split; [vm_compute; reflexivity|].
  do 2 (split; [reflexivity|]).
  repeat constructor; discriminate.
Qed.

(** C9 as it is stated fails for [start()]: in phase [loading] it does
    not throw, it returns a rejected promise. *)
Lemma start_rejects_counterexample :
  phase Sample.fresh = p_loading ∧
  (∀ e, (Engine.start None Sample.fresh).1 ≠ Throw e) ∧
  ∃ e, (Engine.start None Sample.fresh).1 = Normal (Rejected e) ∧
       code e = "phase.incorrect"%string.
Proof.
  split; [vm_compute; reflexivity|]. split.
  - intros e. vm_compute. discriminate.
  - eexists. split; vm_compute; reflexivity.
Qed.

(** C10 as it is stated fails for the return value of the guide's
    [initialize()]: for the instance [0] it is [0], the instance, where
    a choice by truthiness would give [null].  It also fails when
    [stop()] was called while the module initialized: the phase is
    then [stopping], never [starting_failed]. *)
Lemma initialize_returns_instance_counterexample :
  reachable Sample.stack Sample.zero_instance ∧
  g_inst (Sample.guide 0 Sample.zero_instance) = VNum 0 ∧
  truthy (VNum 0) = false ∧
  g_initialize (Sample.guide 0 Sample.zero_instance) = InitFulfilled (VNum 0) ∧
  InitFulfilled (VNum 0) ≠
    InitFulfilled (if truthy (VNum 0) then VNum 0 else VNull) ∧
  reachable Sample.stack Sample.zero_interrupted ∧
  g_inst (Sample.guide 0 Sample.zero_interrupted) = VNum 0 ∧
  g_state (Sample.guide 0 Sample.zero_interrupted) = s_initialized ∧
  ∃ lc', Engine.start_resume Sample.zero_interrupted = Some lc' ∧
    phase lc' = p_stopping ∧
    Forall (λ e, e ≠ Logged Info "Lifecycle phase changed to 'starting_failed'.")
           (trace lc').
Proof.
  split; [apply reachable_after; vm_compute; eauto|].
  do 3 (split; [vm_compute; reflexivity|]).
  split; [vm_compute; discriminate|].
  split; [apply reachable_after; vm_compute; eauto|].
  do 2 (split; [vm_compute; reflexivity|]).
  eexists. split; [vm_compute; reflexivity|].
  split; [reflexivity|].
  repeat constructor; discriminate.
Qed.

(** * Further properties *)

(** ** The phases that can follow a phase *)

(** ** What [start] resolved with *)

(** ** The phase only advances *)

Lemma phase_leb_elem p q : phase_leb p q = true ↔ q ∈ phase_after p.
Proof.
  unfold phase_leb. rewrite existsb_exists. split.
  - intros (x & Hx & He). apply Phase_eqb_eq in He as ->. by apply list_elem_of_In.
  - intros H. exists q. split; [by apply list_elem_of_In|]. by apply Phase_eqb_eq.
Qed.

Lemma phase_leb_refl p : phase_leb p p = true.
Proof. by destruct p. Qed.

Lemma phase_leb_trans p q r :
  phase_leb p q = true → phase_leb q r = true → phase_leb p r = true.
Proof. destruct p, q; try done; by destruct r. Qed.

Lemma selectDeps_phase deps i : ∀ lc, phase (Guide.selectDeps deps i lc).2 = phase lc.
Proof.
  induction deps as [|d deps IH]; intros lc; simpl; [done|].
  unfold Guide.getInstance.
  destruct (modGuides lc !! d) as [g|]; simpl.
  - destruct (is_undefined (g_inst g)); simpl; [done|].
    specialize (IH (on_guide d (push_dependent i) lc)).
    destruct (Guide.selectDeps deps i _) as [[]]; simpl in *; done.
  - specialize (IH lc). destruct (Guide.selectDeps deps i lc) as [[]]; simpl in *; done.
Qed.

Lemma initialize_phase i lc : phase (Guide.initialize i lc) = phase lc.
Proof.
  unfold Guide.initialize. destruct (modGuides lc !! i) as [g|]; [|done].
  destruct (negb _); [|done].
  set (lc1 := logger_info _ _).
  pose proof (selectDeps_phase (g_depMap g) i lc1) as H.
  destruct (Guide.selectDeps _ _ _) as [[]]; simpl in *; done.
Qed.

Lemma finalize_phase i lc : phase (Guide.finalize i lc) = phase lc.
Proof.
  unfold Guide.finalize, Guide.finalize_proceed, Guide.finalize_finish.
  repeat (case_match; simpl; try done).
Qed.

Lemma finalize_loop_phase idxs : ∀ proms lc,
  phase (Engine.finalize_loop idxs proms lc) = phase lc.
Proof.
  induction idxs as [|i idxs IH]; intros proms lc; simpl; [done|].
  destruct (Engine.ordered i lc); [done|].
  by rewrite IH, finalize_phase.
Qed.

Lemma finalize_all_phase lc : phase (Engine.finalize_all lc) = phase lc.
Proof. unfold Engine.finalize_all. by rewrite finalize_loop_phase. Qed.

Lemma initialize_resume_phase i o lc : phase (Guide.initialize_resume i o lc) = phase lc.
Proof. unfold Guide.initialize_resume. repeat (case_match; simpl; try done). Qed.

Lemma finalize_finish_phase i ok lc : phase (Guide.finalize_finish i ok lc) = phase lc.
Proof. unfold Guide.finalize_finish. by case_match. Qed.

Lemma finalize_proceed_phase i lc : phase (Guide.finalize_proceed i lc) = phase lc.
Proof.
  unfold Guide.finalize_proceed, Guide.finalize_finish.
  repeat (case_match; simpl; try done).
Qed.

Lemma phase_step rs a lc lc' :
  well_formed rs → inv rs lc → exec a lc = Some lc' →
  phase_leb (phase lc) (phase lc') = true.
Proof.
  intros wf [Hg Hctl] He. destruct a; simpl in He.
  - inversion He; subst lc'. clear He.
    unfold Engine.configure, Engine.changePhase.
    destruct (phase lc) eqn:Hp; simpl; rewrite ?Hp; try done.
    destruct (Engine.configure_guides _ _ _) as [res lc1]. simpl.
    by destruct (forallb _ res).
  - inversion He; subst lc'. clear He.
    unfold Engine.start, Engine.changePhase.
    destruct (phase lc) eqn:Hp; simpl; rewrite ?Hp; try done.
    unfold Engine.start_loop. simpl.
    destruct (_ <? _)%nat; simpl; [|done]. by rewrite initialize_phase.
  - inversion He; subst lc'. clear He.
    unfold Engine.stop, Engine.changePhase.
    destruct (phase lc) eqn:Hp; simpl; rewrite ?Hp; try done; simpl;
      destruct (interruptStart lc); simpl; rewrite ?finalize_all_phase; simpl;
      rewrite ?Hp; done.
  - destruct (modGuides lc !! i) as [g|]; simpl in He; [|done].
    destruct (g_initialize g); try done. inversion He.
    rewrite initialize_resume_phase. apply phase_leb_refl.
  - unfold Guide.finalize_resume_callback in He.
    repeat case_match; try done. inversion He.
    rewrite finalize_finish_phase. apply phase_leb_refl.
  - unfold Guide.finalize_resume_dependents in He.
    repeat case_match; try done; inversion He; simpl;
      rewrite ?finalize_proceed_phase; apply phase_leb_refl.
  - unfold Engine.start_resume in He.
    destruct (startAct lc) as [|k o|] eqn:Hs; try done.
    destruct (start_mode lc k o Hctl Hs) as (_ & _ & _ & _ & Hmode).
    destruct (modGuides lc !! k) as [g|]; simpl in He; [|done].
    destruct (g_initialize g) as [| |v|e]; try done.
    2: { inversion He. simpl. apply phase_leb_refl. }
    destruct Hmode as [(Hp & Hint & _)|(Hp & Hint & _)]; rewrite Hint in He.
    + destruct (truthy v); simpl in He.
      * inversion He. unfold Engine.start_loop.
        destruct (_ <? _)%nat; simpl; rewrite ?initialize_phase, Hp; done.
      * destruct (Engine.wants_autoStop o).
        -- unfold Engine.stop, Engine.changePhase in He. simpl in He.
           rewrite Hint in He. simpl in He. inversion He. simpl.
           rewrite finalize_all_phase. simpl. by rewrite Hp.
        -- inversion He. simpl. by rewrite Hp.
    + inversion He. simpl. apply phase_leb_refl.
  - unfold Engine.stop_resume in He. pose proof (stop_mode lc Hctl) as Hm.
    destruct (stopAct lc) as [| |i rest proms|proms| |] eqn:Hst; try done.
    + destruct (interruptStart lc) as [[]|]; try done. inversion He.
      rewrite finalize_all_phase. apply phase_leb_refl.
    + destruct (Engine.promise_all proms lc); try done; inversion He; simpl;
        rewrite ?finalize_loop_phase, ?finalize_phase; apply phase_leb_refl.
    + destruct Hm as (Hp & _).
      destruct (Engine.promise_all proms lc) as [|oks|]; try done; inversion He.
      * unfold Engine.resolve_stopped, Engine.changePhase. simpl.
        destruct (stopped_ lc); simpl; rewrite Hp; by destruct (Engine.every_ok oks).
      * simpl. rewrite Hp. done.
Qed.

(** X1. The phase only advances along the lifecycle: in whatever way
    the engine goes on from a reachable state, its phase is one of
    those that can follow the phase it has.  So [configuration_failed],
    [stopped] and [stopping_failed] are final, an engine that was
    stopping never starts or becomes ready again, and the phase never
    returns to [loading] or [configured]. *)
Theorem phase_only_advances rs acts : ∀ lc lc',
  well_formed rs → reachable rs lc → run acts lc = Some lc' →
  phase lc' ∈ phase_after (phase lc).
Proof.
  induction acts as [|a acts IH]; intros lc lc' wf Hreach Hrun; simpl in Hrun.
  - simplify_eq. apply phase_leb_elem, phase_leb_refl.
  - destruct (exec a lc) as [lc1|] eqn:He; [|done].
    apply phase_leb_elem. apply (phase_leb_trans _ (phase lc1)).
    + apply (phase_step rs a lc lc1 wf); [by apply inv_reachable|done].
    + apply phase_leb_elem. apply (IH lc1 lc' wf); [|done].
      by eapply reachable_exec.
Qed.

(** ** No rejection while starting *)


(** ** A dependency without an instance *)

(** [selectDeps] changes nothing but the [dependents] of guides, and
    logs nothing. *)
Lemma selectDeps_frame deps i : ∀ lc,
  trace (Guide.selectDeps deps i lc).2 = trace lc ∧
  ∀ j, with_dependents [] <$> modGuides (Guide.selectDeps deps i lc).2 !! j =
       with_dependents [] <$> modGuides lc !! j.
Proof.
  induction deps as [|d deps IH]; intros lc; simpl; [done|].
  unfold Guide.getInstance.
  destruct (modGuides lc !! d) as [g|] eqn:Hd; simpl.
  - destruct (is_undefined (g_inst g)); simpl; [done|].
    destruct (IH (on_guide d (push_dependent i) lc)) as [Ht Hg].
    assert (Hpush : ∀ j,
      with_dependents [] <$> modGuides (on_guide d (push_dependent i) lc) !! j =
      with_dependents [] <$> modGuides lc !! j).
    { intros j. simpl. destruct (decide (d = j)) as [->|Hne].
      - rewrite list_lookup_alter_eq, Hd. done.
      - by rewrite list_lookup_alter_ne. }
    destruct (Guide.selectDeps deps i _) as [[v|e] lc2]; simpl in *;
      (split; [done|]; intros j; by rewrite Hg, Hpush).
  - destruct (IH lc) as [Ht Hg].
    destruct (Guide.selectDeps deps i lc) as [[v|e] lc2]; simpl in *; done.
Qed.

Lemma selectDeps_throws deps i : ∀ lc,
  (∀ d, d ∈ deps → is_Some (modGuides lc !! d)) →
  (∃ d gd, d ∈ deps ∧ modGuides lc !! d = Some gd ∧ is_undefined (g_inst gd) = true) →
  ∃ e, (Guide.selectDeps deps i lc).1 = Throw e ∧
       code e = "uninitialized_instance"%string.
Proof.
  induction deps as [|d deps IH]; intros lc Hall (d' & gd' & Hin & Hd' & Hu).
  { by apply elem_of_nil in Hin. }
  simpl. unfold Guide.getInstance.
  destruct (Hall d) as [g Hd]; [by left|]. rewrite Hd.
  destruct (is_undefined (g_inst g)) eqn:Hug; simpl; [by eexists|].
  apply elem_of_cons in Hin as [->|Hin]; [congruence|].
  destruct (IH (on_guide d (push_dependent i) lc)) as (e & He & Hc).
  - intros x Hx. destruct (Hall x) as [gx Hgx]; [by right|]. simpl.
    destruct (decide (d = x)) as [->|Hne].
    + rewrite list_lookup_alter_eq, Hgx. by eexists.
    + rewrite list_lookup_alter_ne by done. by eexists.
  - simpl. destruct (decide (d = d')) as [->|Hne].
    + exists d', (push_dependent i gd'). rewrite list_lookup_alter_eq, Hd'. done.
    + exists d', gd'. by rewrite list_lookup_alter_ne.
  - destruct (Guide.selectDeps deps i _) as [[v|e'] lc2]; simpl in *; [done|].
    exists e'. split; [done|]. congruence.
Qed.

Lemma selectDeps_returns deps i : ∀ lc,
  (∀ d, d ∈ deps → ∃ gd, modGuides lc !! d = Some gd ∧ is_undefined (g_inst gd) = false) →
  ∃ vs, (Guide.selectDeps deps i lc).1 = Normal vs.
Proof.
  intros lc H. destruct (selectDeps_ok deps i lc H) as (vs & gs & -> & _). by eexists.
Qed.

(** X3. [initialize()] of a configured guide, all of whose
    dependencies are guides of the stack: if some dependency has no
    instance yet, its [getInstance] throws, so the promise of
    [initialize()] is rejected with [uninitialized_instance], the
    descriptor's [initialize] is not called, the guide stays in state
    [initializing] without an instance, and [start], if it awaits this
    guide, rejects with the same error.  If every dependency has an
    instance, the descriptor's [initialize] is called once and awaited. *)
Theorem initialize_dependency_without_instance i lc g :
  modGuides lc !! i = Some g → is_undefined (g_cfg g) = false →
  (∀ d, d ∈ g_depMap g → is_Some (modGuides lc !! d)) →
  ∃ g', modGuides (Guide.initialize i lc) !! i = Some g' ∧
    g_state g' = s_initializing ∧ g_inst g' = g_inst g ∧
    ((∃ d gd, d ∈ g_depMap g ∧ modGuides lc !! d = Some gd ∧
              is_undefined (g_inst gd) = true) →
       (∃ e, g_initialize g' = InitRejected e ∧
             code e = "uninitialized_instance"%string ∧
             ∀ o, Engine.start_resume (Engine.start_loop i o lc) =
                  Some (set_start StartReturned (Rejected e)
                          (Engine.start_loop i o lc))) ∧
       calls ModInitialize i (Guide.initialize i lc) = calls ModInitialize i lc) ∧
    ((∀ d, d ∈ g_depMap g →
        ∃ gd, modGuides lc !! d = Some gd ∧ is_undefined (g_inst gd) = false) →
       g_initialize g' = InitAwaiting ∧
       calls ModInitialize i (Guide.initialize i lc) = S (calls ModInitialize i lc)).
Proof.
  intros Hi Hcfg Hall. unfold Guide.initialize. rewrite Hi, Hcfg. simpl.
  set (lc1 := logger_info _ (on_guide i (set_state s_initializing) lc)).
  assert (Hi1 : modGuides lc1 !! i = Some (set_state s_initializing g)).
  { subst lc1. simpl. by rewrite list_lookup_alter_eq, Hi. }
  assert (Hother : ∀ d, d ≠ i → modGuides lc1 !! d = modGuides lc !! d).
  { intros d Hne. subst lc1. simpl. by rewrite list_lookup_alter_ne. }
  destruct (selectDeps_frame (g_depMap g) i lc1) as [Ht Hg].
  pose proof (Hg i) as Hgi. rewrite Hi1 in Hgi. simpl in Hgi.
  destruct (modGuides (Guide.selectDeps (g_depMap g) i lc1).2 !! i) as [g2|] eqn:Hi2;
    [|done].
  simpl in Hgi. injection Hgi as Hst Hinst. clear Hst.
  assert (Hfields : g_state g2 = s_initializing ∧ g_inst g2 = g_inst g).
  { pose proof (Hg i) as Hx. rewrite Hi1, Hi2 in Hx. simpl in Hx.
    injection Hx. intros. done. }
  destruct Hfields as [Hst2 Hin2].
  destruct (Guide.selectDeps (g_depMap g) i lc1) as [[vs|e] lc2] eqn:Hsel; simpl in *.
  - exists (set_initialize InitAwaiting g2).
    rewrite list_lookup_alter_eq, Hi2. simpl. do 3 (split; [done|]). split.
    + intros Hmiss. exfalso.
      destruct (selectDeps_throws (g_depMap g) i lc1) as (e & He & _).
      * intros d Hd. destruct (Hall d Hd) as [gd Hgd].
        destruct (decide (d = i)) as [->|Hne]; [by eexists|].
        rewrite Hother by done. by eexists.
      * destruct Hmiss as (d & gd & Hd & Hgd & Hu).
        destruct (decide (d = i)) as [->|Hne].
        -- exists i, (set_state s_initializing g). simplify_eq. done.
        -- exists d, gd. by rewrite Hother.
      * rewrite Hsel in He. done.
    + intros _. split; [done|]. unfold calls. simpl. rewrite Ht. subst lc1. simpl.
      rewrite !calls_in_app, calls_in_logged, calls_in_called. simpl.
      rewrite Nat.eqb_refl. unfold calls. lia.
  - exists (set_initialize (InitRejected e) g2).
    rewrite list_lookup_alter_eq, Hi2. simpl. do 3 (split; [done|]). split.
    + intros Hmiss. split.
      * exists e. split; [done|]. split.
        -- destruct (selectDeps_throws (g_depMap g) i lc1) as (e' & He & Hc).
           ++ intros d Hd. destruct (Hall d Hd) as [gd Hgd].
              destruct (decide (d = i)) as [->|Hne]; [by eexists|].
              rewrite Hother by done. by eexists.
           ++ destruct Hmiss as (d & gd & Hd & Hgd & Hu).
              destruct (decide (d = i)) as [->|Hne].
              ** exists i, (set_state s_initializing g). simplify_eq. done.
              ** exists d, gd. by rewrite Hother.
           ++ rewrite Hsel in He. simpl in He. congruence.
        -- intros o. unfold Engine.start_loop.
           apply lookup_lt_Some in Hi as Hlt. apply Nat.ltb_lt in Hlt.
           rewrite Hlt. unfold Guide.initialize. rewrite Hi, Hcfg. simpl.
           fold lc1. rewrite Hsel. unfold Engine.start_resume. simpl.
           by rewrite list_lookup_alter_eq, Hi2.
      * unfold calls. simpl. rewrite Ht. subst lc1. simpl.
        rewrite calls_in_app, calls_in_logged. unfold calls. lia.
    + intros Hok. exfalso.
      destruct (selectDeps_returns (g_depMap g) i lc1) as (vs & Hvs).
      * intros d Hd. destruct (Hok d Hd) as (gd & Hgd & Hu).
        destruct (decide (d = i)) as [->|Hne].
        -- exists (set_state s_initializing g). simplify_eq. done.
        -- exists gd. by rewrite Hother.
      * rewrite Hsel in Hvs. done.
Qed.

(** ** [finalize()] before a dependent's *)

Lemma dependents_finalized_throws deps lc :
  (∃ d gd, d ∈ deps ∧ modGuides lc !! d = Some gd ∧ g_finalizationPromise gd = None) →
  ∃ e, Guide.dependents_finalized deps lc = Throw e ∧
       code e = "not_finalizing"%string.
Proof.
  induction deps as [|d deps IH]; intros (d' & gd' & Hin & Hd' & Hn).
  { by apply elem_of_nil in Hin. }
  simpl. destruct (modGuides lc !! d) as [gd|] eqn:Hd.
  - unfold Guide.finalized.
    destruct (g_finalizationPromise gd) as [[]|] eqn:Hf; [..|by eexists];
      (apply elem_of_cons in Hin as [->|Hin]; [congruence|]; apply IH; eauto).
  - apply elem_of_cons in Hin as [->|Hin]; [congruence|]. apply IH; eauto.
Qed.

(** X4. The first [finalize()] of a guide that has a truthy instance
    and a dependent whose own [finalize()] was not called yet: the
    dependent's [finalized()] throws, so the promise of [finalize()]
    is rejected with [not_finalizing], the guide is left in state
    [awaiting_finalization], and the descriptor's [finalize] is not
    called.  The call is memoised all the same: a second [finalize()]
    changes nothing. *)
Theorem finalize_before_dependent i lc g :
  modGuides lc !! i = Some g → g_finalizationPromise g = None →
  truthy (g_inst g) = true →
  (∃ d gd, d ∈ g_dependents g ∧ modGuides lc !! d = Some gd ∧
           g_finalizationPromise gd = None) →
  ∃ g' e, modGuides (Guide.finalize i lc) !! i = Some g' ∧
    g_finalizationPromise g' = Some (FinRejected e) ∧
    code e = "not_finalizing"%string ∧
    g_state g' = s_awaiting_finalization ∧
    (∀ j, calls ModFinalize j (Guide.finalize i lc) = calls ModFinalize j lc) ∧
    Guide.finalize i (Guide.finalize i lc) = Guide.finalize i lc.
Proof.
  intros Hi Hfp Htr (d & gd & Hd & Hgd & Hn).
  assert (Hfin : ∃ e, code e = "not_finalizing"%string ∧
    ∃ msg, Guide.finalize i lc =
      put i (set_finalizationPromise (FinRejected e)
               (set_state s_awaiting_finalization g)) [Logged Info msg] lc).
  { unfold Guide.finalize. rewrite Hi, Hfp, Htr. simpl.
    destruct (g_dependents g) as [|d0 ds] eqn:Hds; [by apply elem_of_nil in Hd|].
    set (lc1 := logger_info _ _).
    destruct (dependents_finalized_throws (d0 :: ds) lc1) as (e & -> & Hc).
    { destruct (decide (d = i)) as [->|Hne].
      - exists i, (set_state s_awaiting_finalization g). split; [done|].
        subst lc1. simpl. rewrite list_lookup_alter_eq, Hi. done.
      - exists d, gd. split; [done|]. subst lc1. simpl.
        by rewrite list_lookup_alter_ne. }
    exists e. split; [done|]. eexists. subst lc1. unfold logger_info.
    by norm_put Hi. }
  destruct Hfin as (e & Hc & msg & Hfin). rewrite Hfin.
  eexists _, e. erewrite lookup_put_eq by done.
  do 4 (split; [done|]). split.
  - intros j. by rewrite calls_put, calls_in_logged, Nat.add_0_r.
  - eapply finalize_memo; [by erewrite lookup_put_eq|]. done.
Qed.

(** ** The guides' states at the end *)

(** X5. What the phase says of the guides' states.  In phase
    [stopped] every guide that had a truthy instance is in state
    [finalized], and a guide without one was never finalized: it is in
    no finalization state and its descriptor's [finalize] was never
    called.  A guide is in state [finalization_failed] only while the
    phase is [stopping] or [stopping_failed], and in phase
    [stopping_failed] some guide is. *)
Theorem states_when_stopped rs lc :
  well_formed rs → reachable rs lc →
  (phase lc = p_stopped → ∀ j g, modGuides lc !! j = Some g →
     if truthy (g_inst g) then g_state g = s_finalized
     else in_finalization (g_state g) = false ∧ calls ModFinalize j lc = 0) ∧
  (∀ j g, modGuides lc !! j = Some g → g_state g = s_finalization_failed →
     phase lc = p_stopping ∨ phase lc = p_stopping_failed) ∧
  (phase lc = p_stopping_failed →
     ∃ j g, modGuides lc !! j = Some g ∧ g_state g = s_finalization_failed).
Proof.
  intros wf Hreach. pose proof (inv_reachable rs wf lc Hreach) as [Hg Hc].
  assert (Hfailed : ∀ j g, modGuides lc !! j = Some g →
    g_state g = s_finalization_failed →
    g_finalizationPromise g = Some (FinFulfilled false)).
  { intros j g Hj Hs. pose proof (gk_fin rs lc j g (inv_guides rs lc Hg j g Hj)) as Hf.
    rewrite Hs in Hf. destruct (g_finalizationPromise g) as [[| |[]|]|]; try done.
    - by destruct Hf.
    - by destruct Hf.
    - destruct Hf as [[_ ?]|(_ & _ & ?)]; done. }
  split; [|split].
  - intros Hp j g Hj. unfold ctl_ok in Hc. rewrite Hp in Hc.
    destruct Hc as (_ & _ & ok & _ & Hph & _ & Hok). destruct ok; [|done].
    pose proof (proj1 Hok eq_refl j g Hj) as Hs. unfold fin_succeeded in Hs.
    pose proof (inv_guides rs lc Hg j g Hj) as Hgj.
    pose proof (gk_fin rs lc j g Hgj) as Hf. rewrite Hs in Hf.
    destruct (truthy (g_inst g)) eqn:Htr.
    + destruct Hf as [[_ ?]|(? & _)]; done.
    + split; [destruct Hf as [[? _]|(_ & _ & ?)]; done|].
      by apply (gk_falsy rs lc j g Hgj).
  - intros j g Hj Hs. pose proof (Hfailed j g Hj Hs) as Hf.
    assert (Hni : ¬ none_issued lc) by (intros Hn; by rewrite (Hn j g Hj) in Hf).
    unfold ctl_ok in Hc. destruct (phase lc) eqn:Hp; auto;
      try (by destruct Hc as (_ & _ & _ & _ & _ & _ & ?));
      try (by destruct Hc as (_ & _ & _ & _ & _ & ?));
      try (by destruct Hc as (_ & _ & _ & _ & ?)).
    destruct Hc as (_ & _ & ok & _ & Hph & _ & Hok). destruct ok; [|done].
    pose proof (proj1 Hok eq_refl j g Hj) as Hs'. unfold fin_succeeded in Hs'.
    congruence.
  - intros Hp. unfold ctl_ok in Hc. rewrite Hp in Hc.
    destruct Hc as (_ & _ & ok & _ & Hph & Hset & Hok). destruct ok; [done|].
    assert (Hex : ∀ gs : list ModGuide,
      (∀ g, g ∈ gs → fin_settled g) →
      (∀ g, g ∈ gs → fin_succeeded g) ∨
      (∃ g, g ∈ gs ∧ g_finalizationPromise g = Some (FinFulfilled false))).
    { induction gs as [|g gs IH]; intros Hall.
      - left. intros g Hin. by apply elem_of_nil in Hin.
      - destruct (Hall g) as [[] Hokg]; [by left| |right; exists g; split; [by left|done]].
        destruct IH as [IH|(g' & Hin & Hf)].
        + intros g' Hin. apply Hall. by right.
        + left. intros g' Hin. apply elem_of_cons in Hin as [->|Hin]; auto.
        + right. exists g'. split; [by right|done]. }
    destruct (Hex (modGuides lc)) as [Hall|(g & Hin & Hf)].
    + intros g Hin. apply list_elem_of_lookup in Hin as [j Hj]. by eapply Hset.
    + exfalso. assert (false = true); [|done]. apply Hok. intros j g Hj.
      apply Hall. by eapply list_elem_of_lookup_2.
    + apply list_elem_of_lookup in Hin as [j Hj]. exists j, g. split; [done|].
      pose proof (inv_guides rs lc Hg j g Hj) as Hgj.
      pose proof (gk_fin rs lc j g Hgj) as Hx. rewrite Hf in Hx.
      destruct Hx as [[_ ?]|(_ & ? & _)]; done.
Qed.

(** ** No initialization once [start] is over *)

Lemma start_over_run rs acts : ∀ lc lc',
  well_formed rs → inv rs lc → start_over lc → run acts lc = Some lc' →
  start_over lc' ∧
  ∀ j g, modGuides lc !! j = Some g → g_initialize g = InitNotCalled →
    ∃ g', modGuides lc' !! j = Some g' ∧ g_initialize g' = InitNotCalled.
Proof.
  induction acts as [|a acts IH]; intros lc lc' wf Hinv Hov Hrun; simpl in Hrun.
  - simplify_eq. split; [done|]. intros j g Hj Hn. by exists g.
  - destruct (exec a lc) as [lc1|] eqn:He; [|done].
    pose proof (exec_follows rs wf a lc lc1 Hinv He) as (_ & Hi & _ & Hs & Hgs).
    assert (Hov1 : start_over lc1).
    { destruct Hov as [Hov|Hov]; [left; by apply Hi|].
      right. destruct Hs as [[Hs _]|[(k & o & Hk & _)|[_ ?]]]; congruence. }
    destruct (IH lc1 lc' wf (inv_exec rs wf a lc lc1 Hinv He) Hov1 Hrun) as [Hov' Hg'].
    split; [done|]. intros j g Hj Hn.
    destruct (Hgs j g Hj) as (g1 & Hj1 & _ & _ & _ & Hn1).
    apply (Hg' j g1 Hj1). destruct (Hn1 Hn) as [|[Hint Hst]]; [done|].
    destruct Hov; done.
Qed.

(** X6. Once [start] has returned, whatever it returned, or [stop()]
    has taken effect, that is in the phases [ready], [starting_failed],
    [stopping], [stopped] and [stopping_failed], no further guide is
    initialized: a guide whose [initialize()] was not called then never
    has it called, nor its descriptor's [initialize]. *)
Theorem no_initialize_after_start rs acts lc lc' :
  well_formed rs → reachable rs lc →
  phase lc ∈ [p_ready; p_starting_failed; p_stopping; p_stopped; p_stopping_failed] →
  run acts lc = Some lc' →
  ∀ j g, modGuides lc !! j = Some g → g_initialize g = InitNotCalled →
    ∃ g', modGuides lc' !! j = Some g' ∧ g_initialize g' = InitNotCalled ∧
          g_inst g' = VUndefined ∧ calls ModInitialize j lc' = 0.
Proof.
  intros wf Hreach Hp Hrun j g Hj Hn.
  pose proof (inv_reachable rs wf lc Hreach) as Hinv. pose proof Hinv as [_ Hc].
  assert (Hov : start_over lc).
  { unfold ctl_ok in Hc.
    assert (Hd : start_done lc → start_over lc) by (intros (? & _); by right).
    destruct (phase lc) eqn:E;
      try (exfalso; repeat (apply elem_of_cons in Hp as [Hp|Hp]; [discriminate Hp|]);
           by apply elem_of_nil in Hp);
      try (destruct Hc as (? & _); by apply Hd);
      try (destruct Hc as (_ & ? & _); by apply Hd).
    destruct Hc as (_ & Hc). destruct (stopAct lc); try done.
    - destruct Hc as (_ & Hc). left. by destruct (interruptStart lc).
    - destruct Hc as (? & _). by apply Hd.
    - destruct Hc as (? & _). by apply Hd. }
  destruct (start_over_run rs acts lc lc' wf Hinv Hov Hrun) as [_ Hg].
  destruct (Hg j g Hj Hn) as (g' & Hj' & Hn'). exists g'. do 2 (split; [done|]).
  pose proof (inv_run rs wf acts lc lc' Hinv Hrun) as [Hg' _].
  pose proof (inv_guides rs lc' Hg' j g' Hj') as Hok.
  split.
  - pose proof (gk_init rs lc' j g' Hok) as Hx. rewrite Hn' in Hx. by destruct Hx.
  - by apply (gk_init_calls rs lc' j g' Hok).
Qed.

(** ** What [start] resolved with *)

Lemma selectDeps_startPromise deps i : ∀ lc,
  startPromise (Guide.selectDeps deps i lc).2 = startPromise lc.
Proof.
  induction deps as [|d deps IH]; intros lc; simpl; [done|].
  unfold Guide.getInstance.
  destruct (modGuides lc !! d) as [g|]; simpl.
  - destruct (is_undefined (g_inst g)); simpl; [done|].
    specialize (IH (on_guide d (push_dependent i) lc)).
    destruct (Guide.selectDeps deps i _) as [[]]; simpl in *; done.
  - specialize (IH lc). destruct (Guide.selectDeps deps i lc) as [[]]; simpl in *; done.
Qed.

Lemma initialize_startPromise i lc :
  startPromise (Guide.initialize i lc) = startPromise lc.
Proof.
  unfold Guide.initialize. destruct (modGuides lc !! i) as [g|]; [|done].
  destruct (negb _); [|done].
  set (lc1 := logger_info _ _).
  pose proof (selectDeps_startPromise (g_depMap g) i lc1) as H.
  destruct (Guide.selectDeps _ _ _) as [[]]; simpl in *; done.
Qed.














(** ** Dependents are registered *)























(** ** The states of the guides *)

























Section States.
Variable rs : list Registration.
Hypothesis wf : well_formed rs.









End States.


(** ** Every finalize callback is called *)



















Section Finals.
Variable rs : list Registration.
Hypothesis wf : well_formed rs.




End Finals.


(** ** Each guide is configured once *)


















Section Configured.
Variable rs : list Registration.
Hypothesis wf : well_formed rs.




End Configured.


(** ** The further theorems at the example *)

Lemma phase_only_advances_witness :
  reachable Sample.stack Sample.ready ∧
  run [CallStop] Sample.ready = Some Sample.stopping ∧
  phase Sample.stopping ∈ phase_after (phase Sample.ready).
Proof.
  split; [apply reachable_after; vm_compute; eauto|].
  split; [vm_compute; reflexivity|].
  apply (phase_only_advances Sample.stack [CallStop] Sample.ready Sample.stopping
           well_formed_stack).
  - apply reachable_after. vm_compute. eauto.
  - vm_compute; reflexivity.
Defined.


Lemma initialize_dependency_without_instance_witness :
  modGuides Sample.configured !! 2 = Some (Sample.guide 2 Sample.configured) ∧
  (∃ d gd, d ∈ g_depMap (Sample.guide 2 Sample.configured) ∧
           modGuides Sample.configured !! d = Some gd ∧
           is_undefined (g_inst gd) = true) ∧
  ∃ g' e, modGuides (Guide.initialize 2 Sample.configured) !! 2 = Some g' ∧
    g_initialize g' = InitRejected e ∧ code e = "uninitialized_instance"%string.
Proof.
  split; [vm_compute; reflexivity|].
  assert (Hd : ∃ d gd, d ∈ g_depMap (Sample.guide 2 Sample.configured) ∧
           modGuides Sample.configured !! d = Some gd ∧
           is_undefined (g_inst gd) = true).
  { exists 1, (Sample.guide 1 Sample.configured).
    split; [vm_compute; left|]. split; vm_compute; reflexivity. }
  split; [exact Hd|].
  destruct (initialize_dependency_without_instance 2 Sample.configured
              (Sample.guide 2 Sample.configured))
    as (g' & Hg' & _ & _ & Hthrow & _).
  - vm_compute; reflexivity.
  - vm_compute; reflexivity.
  - intros d Hin. vm_compute in Hin.
    apply elem_of_cons in Hin as [->|Hin]; [vm_compute; eauto|].
    by apply elem_of_nil in Hin.
  - destruct (Hthrow Hd) as ((e & He & Hc & _) & _).
    exists g', e. split; [exact Hg'|]. split; [exact He|exact Hc].
Defined.

Lemma finalize_before_dependent_witness :
  modGuides Sample.ready !! 1 = Some (Sample.guide 1 Sample.ready) ∧
  g_finalizationPromise (Sample.guide 1 Sample.ready) = None ∧
  truthy (g_inst (Sample.guide 1 Sample.ready)) = true ∧
  ∃ g' e, modGuides (Guide.finalize 1 Sample.ready) !! 1 = Some g' ∧
    g_finalizationPromise g' = Some (FinRejected e) ∧
    code e = "not_finalizing"%string.
Proof.
  split; [vm_compute; reflexivity|]. split; [vm_compute; reflexivity|].
  split; [vm_compute; reflexivity|].
  destruct (finalize_before_dependent 1 Sample.ready (Sample.guide 1 Sample.ready))
    as (g' & e & Hg' & Hp & Hc & _).
  - vm_compute; reflexivity.
  - vm_compute; reflexivity.
  - vm_compute; reflexivity.
  - exists 2, (Sample.guide 2 Sample.ready).
    split; [vm_compute; left|]. split; vm_compute; reflexivity.
  - exists g', e. split; [exact Hg'|]. split; [exact Hp|exact Hc].
Defined.

Lemma states_when_stopped_witness :
  reachable Sample.stack sample_stopped ∧ phase sample_stopped = p_stopped ∧
  ∀ j g, modGuides sample_stopped !! j = Some g →
    if truthy (g_inst g) then g_state g = s_finalized
    else in_finalization (g_state g) = false ∧ calls ModFinalize j sample_stopped = 0.
Proof.
  split; [apply reachable_after; vm_compute; eauto|].
  split; [vm_compute; reflexivity|].
  destruct (states_when_stopped Sample.stack sample_stopped well_formed_stack)
    as (H & _).
  - apply reachable_after. vm_compute. eauto.
  - apply H. vm_compute; reflexivity.
Defined.

Lemma no_initialize_after_start_witness :
  reachable Sample.stack sample_start_failed ∧
  phase sample_start_failed = p_starting_failed ∧
  is_Some (run [CallStop] sample_start_failed) ∧
  ∀ lc', run [CallStop] sample_start_failed = Some lc' →
    ∃ g', modGuides lc' !! 1 = Some g' ∧ g_initialize g' = InitNotCalled.
Proof.
  split; [apply reachable_after; vm_compute; eauto|].
  split; [vm_compute; reflexivity|]. split; [vm_compute; eauto|].
  intros lc' Hrun.
  destruct (no_initialize_after_start Sample.stack [CallStop] sample_start_failed lc'
              well_formed_stack) with (j := 1) (g := Sample.guide 1 sample_start_failed)
    as (g' & Hg' & Hn & _).
  - apply reachable_after. vm_compute. eauto.
  - vm_compute. right. left.
  - exact Hrun.
  - vm_compute; reflexivity.
  - vm_compute; reflexivity.
  - exists g'. split; [exact Hg'|exact Hn].
Defined.






Section BuilderProperties.
Import Builder.

(** ** Objects *)

Lemma own_properties_plain {A} (o : Obj A) :
(∀ kv, kv ∈ o → array_index kv.1 = None) → own_properties o = o.
Proof.
intros H. unfold own_properties.
assert (omap (λ kv : string * A, (λ n, (n, kv)) <$> array_index kv.1) o = []) as ->.
{ induction o as [|kv o IH]; [done|]. simpl.
  rewrite (H kv) by left. simpl. apply IH. intros kv' ?. apply H. by right. }
assert (filter (λ kv : string * A, array_index kv.1 = None) o = o) as ->; [|done].
induction o as [|kv o IH]; [done|].
rewrite filter_cons. destruct (decide _) as [_|Hn].
- f_equal. apply IH. intros kv' ?. apply H. by right.
- destruct Hn. apply H. by left.
Qed.

Lemma define_keys {A} key (v : A) o k :
k ∈ map fst (define key v o) ↔ k = key ∨ k ∈ map fst o.
Proof.
induction o as [|[k' x] o IH]; simpl.
- rewrite list_elem_of_singleton. split; [by left|]. intros [?|H]; [done|].
  by apply elem_of_nil in H.
- destruct (String.eqb_spec k' key) as [->|Hne]; simpl.
  + rewrite !elem_of_cons. tauto.
  + rewrite !elem_of_cons, IH. tauto.
Qed.

Lemma define_fresh {A} key (v : A) o :
key ∉ map fst o → define key v o = o ++ [(key, v)].
Proof.
induction o as [|[k x] o IH]; simpl; intros Hn; [done|].
destruct (String.eqb_spec k key) as [->|Hne].
- destruct Hn. by left.
- f_equal. apply IH. intros ?. apply Hn. by right.
Qed.

Lemma fromEntries_app {A} (es : list (string * A)) : ∀ acc,
NoDup (map fst (acc ++ es)) →
foldl (λ o kv, define kv.1 kv.2 o) acc es = acc ++ es.
Proof.
induction es as [|[k v] es IH]; intros acc Hnd; simpl.
- by rewrite app_nil_r.
- rewrite define_fresh.
  + rewrite IH; rewrite <- app_assoc; [done|]. by simpl.
  + rewrite map_app in Hnd. apply NoDup_app in Hnd as (_ & Hd & _).
    intros Hin. apply (Hd k Hin). by left.
Qed.

Lemma fromEntries_nodup {A} (es : list (string * A)) :
NoDup (map fst es) → fromEntries es = es.
Proof. intros H. unfold fromEntries. by rewrite fromEntries_app. Qed.

Lemma own_properties_eq {A} (o : list (string * A)) :
own_properties o =
map snd (by_index (indexed o)) ++ filter (λ kv, array_index kv.1 = None) o.
Proof. done. Qed.

Lemma insert_by_index_perm {A} n (x : A) l : insert_by_index n x l ≡ₚ (n, x) :: l.
Proof.
induction l as [|[m y] l IH]; simpl; [done|].
destruct (n <=? m)%N; [done|]. rewrite IH. apply Permutation_swap.
Qed.

Lemma by_index_perm {A} (l : list (N * A)) : by_index l ≡ₚ l.
Proof.
induction l as [|[n x] l IH]; simpl; [done|].
by rewrite insert_by_index_perm, IH.
Qed.

Lemma insert_by_index_ascending {A} n (x : A) l :
ascending l → ascending (insert_by_index n x l).
Proof.
induction l as [|[m y] l IH]; simpl; [done|]. intros [Hh Ht].
destruct (N.leb_spec n m) as [Hle|Hgt]; simpl.
- done.
- split; [|by apply IH].
  destruct l as [|[m' y'] l]; simpl; [lia|].
  destruct (N.leb_spec n m'); simpl; [lia|done].
Qed.

Lemma by_index_ascending {A} (l : list (N * A)) : ascending (by_index l).
Proof.
induction l as [|[n x] l IH]; simpl; [done|]. by apply insert_by_index_ascending.
Qed.

Lemma by_index_sorted {A} (l : list (N * A)) : ascending l → by_index l = l.
Proof.
induction l as [|[n x] l IH]; [done|]. intros [Hh Ht].
simpl. rewrite (IH Ht). destruct l as [|[m y] l]; [done|]. simpl in *.
by destruct (N.leb_spec n m); [|lia].
Qed.

Lemma elem_of_indexed {A} (o : list (string * A)) n kv :
(n, kv) ∈ indexed o ↔ kv ∈ o ∧ array_index kv.1 = Some n.
Proof.
unfold indexed. rewrite list_elem_of_omap. split.
- intros (kv' & Hin & Hx). destruct (array_index kv'.1) eqn:E; [|done].
  simpl in Hx. by simplify_eq.
- intros [Hin E]. exists kv. by rewrite E.
Qed.

Lemma indexed_app {A} (o1 o2 : list (string * A)) :
indexed (o1 ++ o2) = indexed o1 ++ indexed o2.
Proof. apply omap_app. Qed.

Lemma indexed_snd {A} (l : list (N * (string * A))) :
(∀ n kv, (n, kv) ∈ l → array_index kv.1 = Some n) → indexed (map snd l) = l.
Proof.
induction l as [|[n kv] l IH]; intros H; [done|]. simpl.
unfold indexed in *. simpl. rewrite (H n kv) by left. simpl. f_equal.
apply IH. intros n' kv' ?. apply H. by right.
Qed.

Lemma filter_plain_snd {A} (l : list (N * (string * A))) :
(∀ n kv, (n, kv) ∈ l → array_index kv.1 = Some n) →
filter (λ kv : string * A, array_index kv.1 = None) (map snd l) = [].
Proof.
induction l as [|[n kv] l IH]; intros H; [done|]. simpl.
rewrite filter_cons. case_decide as E.
- rewrite (H n kv) in E by left. done.
- apply IH. intros n' kv' ?. apply H. by right.
Qed.

Lemma indexed_plain {A} (o : list (string * A)) :
indexed (filter (λ kv : string * A, array_index kv.1 = None) o) = [].
Proof.
induction o as [|kv o IH]; [done|]. rewrite filter_cons. case_decide as E; [|done].
unfold indexed in *. simpl. by rewrite E.
Qed.

Lemma filter_plain_idemp {A} (o : list (string * A)) :
filter (λ kv : string * A, array_index kv.1 = None)
  (filter (λ kv : string * A, array_index kv.1 = None) o) =
filter (λ kv : string * A, array_index kv.1 = None) o.
Proof.
induction o as [|kv o IH]; [done|]. rewrite filter_cons. case_decide as E; [|done].
rewrite filter_cons. case_decide; [|done]. by rewrite IH.
Qed.

Lemma by_index_indexed {A} (o : list (string * A)) n kv :
(n, kv) ∈ by_index (indexed o) → array_index kv.1 = Some n.
Proof. rewrite by_index_perm, elem_of_indexed. by intros [_ ?]. Qed.

(** Visiting the properties of an object in its own order recreates
  them in that order. *)
Lemma own_properties_idemp {A} (o : list (string * A)) :
own_properties (own_properties o) = own_properties o.
Proof.
rewrite !own_properties_eq.
rewrite indexed_app, indexed_plain, app_nil_r.
rewrite indexed_snd by apply by_index_indexed.
rewrite by_index_sorted by apply by_index_ascending.
rewrite filter_app, filter_plain_snd by apply by_index_indexed.
by rewrite filter_plain_idemp.
Qed.

Lemma filter_split {A} (P : A → Prop) `{∀ x, Decision (P x)} (l : list A) :
filter P l ++ filter (λ x, ¬ P x) l ≡ₚ l.
Proof.
induction l as [|x l IH]; [done|]. rewrite !filter_cons.
destruct (decide (P x)); destruct (decide (¬ P x)); try done; simpl.
- by rewrite IH.
- rewrite <- Permutation_middle. by rewrite IH.
Qed.

Lemma own_properties_perm {A} (o : list (string * A)) : own_properties o ≡ₚ o.
Proof.
rewrite own_properties_eq, by_index_perm.
assert (map snd (indexed o) =
        filter (λ kv : string * A, ¬ array_index kv.1 = None) o) as ->.
{ induction o as [|kv o IH]; [done|]. unfold indexed in *. simpl.
  rewrite filter_cons. case_decide as E'.
  - destruct (array_index kv.1) as [n|] eqn:E; [|done]. simpl. f_equal. exact IH.
  - rewrite E'. exact IH. }
rewrite Permutation_app_comm. apply filter_split.
Qed.

(** The order does not depend on the values. *)
Lemma own_properties_map {A B} (h : A → B) (o : list (string * A)) :
own_properties (map (λ kv, (kv.1, h kv.2)) o) =
map (λ kv, (kv.1, h kv.2)) (own_properties o).
Proof.
rewrite !own_properties_eq, map_app. f_equal.
- assert (Hi : indexed (map (λ kv, (kv.1, h kv.2)) o) =
               map (λ p, (p.1, (p.2.1, h p.2.2))) (indexed o)).
  { induction o as [|kv o IH]; [done|]. unfold indexed in *. simpl.
    destruct (array_index kv.1); simpl; [f_equal|]; exact IH. }
  rewrite Hi. generalize (indexed o). intros l.
  assert (Hb : by_index (map (λ p : N * (string * A), (p.1, (p.2.1, h p.2.2))) l) =
               map (λ p, (p.1, (p.2.1, h p.2.2))) (by_index l)).
  { induction l as [|[n kv] l IH]; [done|]. simpl. rewrite IH.
    generalize (by_index l). intros l'.
    induction l' as [|[m y] l' IH']; simpl; [done|].
    destruct (n <=? m)%N; simpl; [done|]. by rewrite IH'. }
  rewrite Hb, !map_map. done.
- induction o as [|kv o IH]; [done|]. simpl. rewrite !filter_cons. simpl.
  case_decide; simpl; by rewrite IH.
Qed.

(** ** The builder *)

Lemma property_built names gs b n :
built names gs b → n ∈ names →
∃ j g, gs !! j = Some g ∧ names !! j = Some n ∧ b_id g = j ∧
       property n (modGuides b) = Some g.
Proof.
intros (Hm & Hn & Hid & _ & Hnd & _) Hin. rewrite Hm. subst names.
assert (Hids : ∀ j g, gs !! j = Some g → b_id g = j).
{ intros j g Hj. assert (H : map b_id gs !! j = Some (b_id g)).
  { by rewrite list_lookup_fmap, Hj. }
  rewrite Hid in H. apply lookup_seq in H as [? _]. done. }
clear Hid Hm.
assert (H : ∃ j g, gs !! j = Some g ∧ b_name g = n ∧
  property n (map (λ g, (b_name g, g)) gs) = Some g).
{ clear Hids. induction gs as [|g gs IH]; [by apply elem_of_nil in Hin|].
  unfold property. simpl.
  destruct (String.eqb_spec (b_name g) n) as [He|Hne].
  - exists 0, g. done.
  - simpl in Hin. apply elem_of_cons in Hin as [?|Hin]; [done|].
    destruct IH as (j & g' & Hj & Hg' & Hp); [done|by inversion Hnd|].
    exists (S j), g'. done. }
destruct H as (j & g & Hj & Hg & Hp). exists j, g.
split; [done|]. split; [by rewrite list_lookup_fmap, Hj; simpl; rewrite Hg|].
split; [by apply Hids|done].
Qed.

Lemma built_own_properties names gs b :
built names gs b → own_properties (modGuides b) = modGuides b.
Proof.
intros (Hm & Hn & _ & _ & _ & Hni & _). apply own_properties_plain.
intros kv Hkv. rewrite Hm in Hkv. apply list_elem_of_fmap in Hkv as (g & -> & Hg).
simpl. rewrite Forall_forall in Hni. apply Hni. rewrite <- Hn.
apply list_elem_of_fmap. by exists g.
Qed.

Lemma built_keys names gs b : built names gs b → map fst (modGuides b) = names.
Proof.
intros (Hm & Hn & _). rewrite Hm, map_map. simpl. done.
Qed.

(** [add] with a new name that is no array index appends the guide. *)
Lemma add_built names gs b a :
built names gs b →
a_name a ∉ names → array_index (a_name a) = None →
NoDup (map fst (a_depKeys a)) → Forall (λ kv, kv.2 ∈ names) (a_depKeys a) →
∃ g, built (names ++ [a_name a]) (gs ++ [g]) (add (a_name a) (a_mod a) (a_depKeys a) b) ∧
     made_by names a g ∧
     Forall (λ kv', ∃ j, kv'.2 = Some j ∧ j < length gs) (b_depMap g).
Proof.
intros Hb Hfresh Hplain Hnd Hdeps.
pose proof Hb as (Hm & Hn & Hid & Hmade & Hndn & Hni & Hown).
set (dm := map (λ kv : string * string, (kv.1, b_id <$> property kv.2 (modGuides b)))
               (own_properties (a_depKeys a))).
assert (Hkeys : map fst dm = map fst (own_properties (a_depKeys a))).
{ subst dm. rewrite map_map. done. }
assert (Hfe : fromEntries dm = dm).
{ apply fromEntries_nodup. rewrite Hkeys.
  by rewrite (own_properties_perm (a_depKeys a)). }
set (g := {| b_id := made b; b_name := a_name a; b_mod := a_mod a; b_depMap := dm |}).
assert (Hadd : add (a_name a) (a_mod a) (a_depKeys a) b =
  {| modGuides := modGuides b ++ [(a_name a, g)]; made := S (made b) |}).
{ unfold add. fold dm. rewrite Hfe. fold g. f_equal.
  unfold spread. rewrite (built_own_properties names gs b Hb).
  rewrite fromEntries_nodup by (by rewrite (built_keys names gs b Hb)).
  apply define_fresh. by rewrite (built_keys names gs b Hb). }
assert (Hres : Forall2 (λ kv' kv, kv'.1 = kv.1 ∧
    ∃ j, kv'.2 = Some j ∧ names !! j = Some kv.2 ∧ j < length gs)
  dm (own_properties (a_depKeys a))).
{ subst dm. apply Forall2_fmap_l. apply Forall_Forall2_diag.
  apply Forall_forall. intros kv Hkv. simpl. split; [done|].
  rewrite own_properties_perm in Hkv. rewrite Forall_forall in Hdeps.
  destruct (property_built names gs b kv.2 Hb (Hdeps kv Hkv))
    as (j & gj & Hj & Hnj & Hidj & ->).
  exists j. simpl. split; [by rewrite Hidj|]. split; [done|].
  by eapply lookup_lt_Some. }
exists g. rewrite Hadd. split; [|split].
- split; [|split; [|split; [|split; [|split; [|split]]]]]; simpl.
  + rewrite Hm, map_app. done.
  + rewrite map_app, Hn. done.
  + rewrite map_app, length_app, Hid. simpl. rewrite Hmade.
    by rewrite Nat.add_1_r, seq_S.
  + rewrite length_app, Hmade. simpl. lia.
  + apply NoDup_app. split; [done|]. split; [|apply NoDup_singleton].
    intros x Hx Hx'. apply list_elem_of_singleton in Hx'. by subst.
  + apply Forall_app. split; [done|]. by apply Forall_singleton.
  + apply Forall_app. split; [done|]. apply Forall_singleton. simpl.
    subst dm.
    rewrite (own_properties_map (λ n, b_id <$> property n (modGuides b))).
    by rewrite own_properties_idemp.
- split; [done|]. split; [done|]. simpl.
  eapply Forall2_impl; [exact Hres|]. simpl. intros kv' kv (? & j & ? & ? & ?).
  split; [done|]. by exists j.
- simpl. clear -Hres. induction Hres as [|kv' kv l k (_ & j & ? & _ & ?) _ IH];
    constructor; [by exists j|done].
Qed.

Lemma made_by_more names more a g : made_by names a g → made_by (names ++ more) a g.
Proof.
intros (Hn & Hm & Hd). split; [done|]. split; [done|].
eapply Forall2_impl; [exact Hd|]. simpl. intros kv' kv (? & j & ? & Hj).
split; [done|]. exists j. split; [done|]. by apply lookup_app_l_Some.
Qed.

Lemma build_built adds : ∀ names gs b,
built names gs b → typed names adds →
Forall (λ a, array_index (a_name a) = None) adds →
∃ gs', built (names ++ map a_name adds) (gs ++ gs')
         (foldl (λ b a, add (a_name a) (a_mod a) (a_depKeys a) b) b adds) ∧
  ∀ k a, adds !! k = Some a →
    ∃ g, gs' !! k = Some g ∧ made_by (names ++ map a_name adds) a g ∧
         Forall (λ kv', ∃ j, kv'.2 = Some j ∧ j < length gs + k) (b_depMap g).
Proof.
induction adds as [|a adds IH]; intros names gs b Hb Ht Hp; simpl.
- exists []. rewrite !app_nil_r. split; [done|]. intros k a Hk. done.
- destruct Ht as (Hfresh & Hnd & Hdeps & Ht). inversion Hp as [|? ? Hpa Hp']; subst.
  destruct (add_built names gs b a Hb Hfresh Hpa Hnd Hdeps) as (g & Hb1 & Hmade & Hlt).
  destruct (IH _ _ _ Hb1 Ht Hp') as (gs' & Hb2 & Hall).
  exists (g :: gs'). rewrite <- !app_assoc in Hb2. simpl in Hb2.
  split; [done|]. intros [|k] a' Hk; simpl in Hk.
  + inversion Hk; subst a'. exists g. split; [done|].
    split; [by apply made_by_more|]. by rewrite Nat.add_0_r.
  + destruct (Hall k a' Hk) as (g' & Hg' & Hm' & Hlt').
    exists g'. split; [done|]. rewrite <- app_assoc in Hm'. split; [done|].
    rewrite length_app in Hlt'. simpl in Hlt'.
    eapply Forall_impl; [exact Hlt'|]. simpl. intros kv (j & ? & ?).
    exists j. split; [done|]. lia.
Qed.

Lemma position_built names gs b j :
built names gs b → j < length gs → position j gs = Some j.
Proof.
intros (_ & _ & Hid & _) Hj. unfold position.
assert (Hids : ∀ i g, gs !! i = Some g → b_id g = i).
{ intros i g Hi. assert (H : map b_id gs !! i = Some (b_id g)).
  { by rewrite list_lookup_fmap, Hi. }
  rewrite Hid in H. apply lookup_seq in H as [? _]. done. }
destruct (lookup_lt_is_Some_2 gs j Hj) as [g Hg].
assert (list_find (λ g, b_id g = j) gs = Some (j, g)) as ->; [|done].
apply list_find_Some. split; [done|]. split; [by apply Hids|].
intros i y Hi Hlt Hy. apply Hids in Hi. lia.
Qed.

Lemma complete_built names gs b :
built names gs b →
(∀ k g, gs !! k = Some g →
   Forall (λ kv', ∃ j, kv'.2 = Some j ∧ j < k) (b_depMap g)) →
complete b = Some (map registered gs).
Proof.
intros Hb Hlt. pose proof Hb as (Hm & _ & _ & _ & _ & _ & Hown).
unfold complete, values. rewrite (built_own_properties names gs b Hb), Hm.
rewrite map_map. simpl. rewrite map_id.
apply mapM_Some. apply Forall2_fmap_r. apply Forall_Forall2_diag.
apply Forall_forall. intros g Hg. unfold registration, registered.
rewrite Forall_forall in Hown. rewrite (Hown g Hg).
apply list_elem_of_lookup in Hg as [k Hk].
assert (mapM (λ kv : string * option nat, kv.2 ≫= λ id, position id gs) (b_depMap g) =
        Some (omap snd (b_depMap g))) as ->; [|done].
pose proof (Hlt k g Hk) as Hd. apply lookup_lt_Some in Hk.
apply mapM_Some. induction Hd as [|kv l (j & Hj & Hjk) _ IH]; [constructor|].
destruct kv as [key ref]. simpl in Hj. subst ref.
change (omap snd ((key, Some j) :: l)) with (j :: omap snd l).
constructor; [|exact IH]. simpl.
apply (position_built names gs b); [done|lia].
Qed.

Lemma modstack_built :
∃ g0, built ["lifecycle"%string] [g0] modstack ∧
      b_mod g0 = lifecycleMod ∧ b_depMap g0 = [].
Proof.
destruct (add_built [] [] {| modGuides := []; made := 0 |}
            {| a_name := "lifecycle"; a_mod := lifecycleMod; a_depKeys := [] |})
  as (g0 & Hb & (_ & Hm & Hd) & _); simpl.
- split; [done|]. split; [done|]. split; [done|]. split; [done|].
  split; [constructor|]. split; constructor.
- apply not_elem_of_nil.
- vm_compute; reflexivity.
- constructor.
- constructor.
- exists g0. split; [exact Hb|]. split; [exact Hm|].
  simpl in Hd. by inversion Hd.
Qed.

Lemma deps_resolved (names : list string) (l : list (string * option nat))
  (k : list (string * string)) :
Forall2 (λ kv' kv, kv'.1 = kv.1 ∧ ∃ j, kv'.2 = Some j ∧ names !! j = Some kv.2) l k →
Forall2 (λ d kv, names !! d = Some kv.2) (omap snd l) k.
Proof.
induction 1 as [|[key ref] kv l k (_ & j & Hj & Hn) _ IH]; [constructor|].
simpl in Hj. subst ref. change (omap snd ((key, Some j) :: l)) with (j :: omap snd l).
by constructor.
Qed.

Lemma deps_below i (l : list (string * option nat)) :
Forall (λ kv', ∃ j, kv'.2 = Some j ∧ j < i) l → Forall (λ d, d < i) (omap snd l).
Proof.
induction 1 as [|[key ref] l (j & Hj & Hlt) _ IH]; [constructor|].
simpl in Hj. subst ref. change (omap snd ((key, Some j) :: l)) with (j :: omap snd l).
by constructor.
Qed.

Lemma build_complete adds :
typed ["lifecycle"%string] adds →
Forall (λ a, array_index (a_name a) = None) adds →
∃ rs, complete (build adds) = Some rs ∧ well_formed rs ∧
  map r_name rs = "lifecycle"%string :: map a_name adds ∧
  rs !! 0 = Some {| r_name := "lifecycle"; r_mod := lifecycleMod; r_deps := [] |} ∧
  ∀ k a, adds !! k = Some a →
    ∃ r, rs !! S k = Some r ∧ r_mod r = a_mod a ∧
      Forall2 (λ d kv, map r_name rs !! d = Some kv.2)
              (r_deps r) (own_properties (a_depKeys a)).
Proof.
intros Ht Hp. destruct modstack_built as (g0 & Hb0 & Hm0 & Hd0).
destruct (build_built adds _ _ _ Hb0 Ht Hp) as (gs' & Hb & Hall).
simpl in Hb. fold (build adds) in Hb.
pose proof Hb as (_ & Hnames & _).
assert (Hlen : length gs' = length adds).
{ apply (f_equal length) in Hnames. simpl in Hnames.
  rewrite !length_map in Hnames. simpl in Hnames. lia. }
assert (Hbelow : ∀ k g, (g0 :: gs') !! k = Some g →
  Forall (λ kv', ∃ j, kv'.2 = Some j ∧ j < k) (b_depMap g)).
{ intros [|k] g Hk; simpl in Hk.
  - inversion Hk; subst g. rewrite Hd0. constructor.
  - destruct (lookup_lt_is_Some_2 adds k) as [a Ha].
    { rewrite <- Hlen. by eapply lookup_lt_Some. }
    destruct (Hall k a Ha) as (g' & Hg' & _ & Hlt). by simplify_eq. }
exists (map registered (g0 :: gs')).
split; [by apply (complete_built _ _ _ Hb)|].
assert (Hrn : map r_name (map registered (g0 :: gs')) =
              "lifecycle"%string :: map a_name adds).
{ rewrite map_map. exact Hnames. }
split; [|split; [done|split]].
- intros i r Hi. rewrite list_lookup_fmap in Hi.
  destruct ((g0 :: gs') !! i) as [g|] eqn:Hg; [|done]. simpl in Hi.
  inversion Hi. simpl. apply deps_below. by apply Hbelow.
- simpl. unfold registered. rewrite Hm0, Hd0. simpl. do 2 f_equal.
  simpl in Hnames. by inversion Hnames.
- intros k a Ha. destruct (Hall k a Ha) as (g & Hg & (Hn & Hm & Hd) & _).
  exists (registered g). split; [by simpl; rewrite list_lookup_fmap, Hg|].
  split; [done|]. rewrite Hrn. simpl. by apply deps_resolved.
Qed.

(** X10. A stack built by [modstack()] and calls of [add] that the
  types allow (each name new, each dependency given by a registered
  name), none under a name that is an array index: [complete()] gives
  [makeLifecycle] the guide of [lifecycle] and then the guides of the
  modules in the order they were added, and each module's
  dependencies are, in the order of the keys of its [depKeys], the
  modules registered under the names given, all of them earlier in
  the stack. *)
Theorem built_stack_well_formed adds :
typed ["lifecycle"%string] adds →
Forall (λ a, array_index (a_name a) = None) adds →
∃ rs, complete (build adds) = Some rs ∧ well_formed rs ∧
  map r_name rs = "lifecycle"%string :: map a_name adds ∧
  rs !! 0 = Some {| r_name := "lifecycle"; r_mod := lifecycleMod; r_deps := [] |} ∧
  ∀ k a, adds !! k = Some a →
    ∃ r, rs !! S k = Some r ∧ r_mod r = a_mod a ∧
      Forall2 (λ d kv, map r_name rs !! d = Some kv.2)
              (r_deps r) (own_properties (a_depKeys a)).
Proof. apply build_complete. Qed.

(** ** Names that are array indices *)

Lemma define_elem {A} key (v : A) o kv :
kv ∈ define key v o → kv = (key, v) ∨ kv ∈ o.
Proof.
induction o as [|[k x] o IH]; simpl.
- rewrite list_elem_of_singleton. by left.
- destruct (String.eqb_spec k key) as [->|Hne]; rewrite !elem_of_cons.
  + intros [->|?]; [by left|]. right. by right.
  + intros [->|H]; [right; by left|]. destruct (IH H) as [?|?]; [by left|].
    right. by right.
Qed.

Lemma fromEntries_elem {A} (es : list (string * A)) kv :
kv ∈ fromEntries es → kv ∈ es.
Proof.
unfold fromEntries.
assert (H : ∀ acc, kv ∈ foldl (λ o kv, define kv.1 kv.2 o) acc es →
                   kv ∈ acc ∨ kv ∈ es).
{ induction es as [|[k v] es IH]; intros acc; simpl; [by left|].
  intros Hin. destruct (IH _ Hin) as [Hd|?]; [|right; by right].
  apply define_elem in Hd as [->|?]; [right; by left|by left]. }
intros Hin. destruct (H [] Hin) as [Hn|?]; [by apply elem_of_nil in Hn|done].
Qed.

Lemma fromEntries_keys {A} (es : list (string * A)) k :
k ∈ map fst es → k ∈ map fst (fromEntries es).
Proof.
unfold fromEntries.
assert (H : ∀ acc, k ∈ map fst acc ∨ k ∈ map fst es →
                   k ∈ map fst (foldl (λ o kv, define kv.1 kv.2 o) acc es)).
{ induction es as [|[k' v] es IH]; intros acc; simpl.
  - intros [?|Hn]; [done|by apply elem_of_nil in Hn].
  - intros Hin. apply IH. rewrite define_keys, elem_of_cons in *. tauto. }
intros Hin. apply H. by right.
Qed.

Lemma add_named name m depKeys b :
named b →
named (add name m depKeys b) ∧
name ∈ map fst (modGuides (add name m depKeys b)) ∧
∀ k, k ∈ map fst (modGuides b) → k ∈ map fst (modGuides (add name m depKeys b)).
Proof.
intros Hn. unfold add. simpl. split; [|split].
- intros kv Hkv. apply define_elem in Hkv as [->|Hkv]; [done|].
  apply Hn. unfold spread in Hkv. apply fromEntries_elem in Hkv.
  by rewrite own_properties_perm in Hkv.
- apply define_keys. by left.
- intros k Hk. apply define_keys. right. unfold spread.
  apply fromEntries_keys. by rewrite own_properties_perm.
Qed.

Lemma build_named adds :
named (build adds) ∧
"lifecycle"%string ∈ map fst (modGuides (build adds)) ∧
∀ a, a ∈ adds → a_name a ∈ map fst (modGuides (build adds)).
Proof.
unfold build.
assert (H : ∀ b, named b →
  let b' := foldl (λ b a, add (a_name a) (a_mod a) (a_depKeys a) b) b adds in
  named b' ∧
  (∀ k, k ∈ map fst (modGuides b) → k ∈ map fst (modGuides b')) ∧
  ∀ a, a ∈ adds → a_name a ∈ map fst (modGuides b')).
{ induction adds as [|a adds IH]; intros b Hb; simpl.
  - split; [done|]. split; [done|]. intros a Ha. by apply elem_of_nil in Ha.
  - destruct (add_named (a_name a) (a_mod a) (a_depKeys a) b Hb) as (Hn1 & Ha1 & Hk1).
    destruct (IH _ Hn1) as (Hn2 & Hk2 & Ha2). simpl in *.
    split; [done|]. split; [by auto|].
    intros a' Ha'. apply elem_of_cons in Ha' as [->|Ha']; auto. }
destruct (add_named "lifecycle" lifecycleMod [] {| modGuides := []; made := 0 |})
  as (Hn0 & Hl0 & _).
{ intros kv Hkv. by apply elem_of_nil in Hkv. }
destruct (H modstack Hn0) as (Hn & Hk & Ha). simpl in *.
split; [done|]. split; [by apply Hk|done].
Qed.

Lemma complete_names b rs :
named b → complete b = Some rs →
map r_name rs = map fst (own_properties (modGuides b)).
Proof.
intros Hn Hc. unfold complete, values in Hc. apply mapM_Some_1 in Hc.
assert (Hnames : map r_name rs = map b_name (map snd (own_properties (modGuides b)))).
{ revert Hc. generalize (map snd (own_properties (modGuides b))) at 2 3.
  intros gs Hc. induction Hc as [|g r gs' rs' Hr _ IH]; [done|].
  simpl. rewrite IH. f_equal. unfold registration in Hr.
  destruct (mapM _ _); simpl in Hr; [|done]. by inversion Hr. }
rewrite Hnames, map_map. apply map_ext_in. intros kv Hkv.
apply list_elem_of_In in Hkv. rewrite own_properties_perm in Hkv. by apply Hn.
Qed.

(** The array indices come before the other keys. *)
Lemma own_properties_order {A} (o : list (string * A)) k1 k2 :
k1 ∈ map fst o → k2 ∈ map fst o →
array_index k1 ≠ None → array_index k2 = None →
∃ i j, i < j ∧ map fst (own_properties o) !! i = Some k1 ∧
       map fst (own_properties o) !! j = Some k2.
Proof.
intros H1 H2 Hi1 Hi2.
rewrite <- (own_properties_perm o) in H1, H2.
rewrite own_properties_eq, map_app in *.
set (S := map fst (map snd (by_index (indexed o)))) in *.
set (T := map fst (filter (λ kv : string * A, array_index kv.1 = None) o)) in *.
assert (HS : ∀ k, k ∈ S → array_index k ≠ None).
{ intros k Hk. subst S. apply list_elem_of_fmap in Hk as (kv & -> & Hkv).
  apply list_elem_of_fmap in Hkv as ([n kv'] & -> & Hkv).
  apply by_index_indexed in Hkv. simpl. congruence. }
assert (HT : ∀ k, k ∈ T → array_index k = None).
{ intros k Hk. subst T. apply list_elem_of_fmap in Hk as (kv & -> & Hkv).
  by apply list_elem_of_filter in Hkv as [? _]. }
apply elem_of_app in H1 as [H1|H1]; [|by apply HT in H1].
apply elem_of_app in H2 as [H2|H2]; [by apply HS in H2|].
apply list_elem_of_lookup in H1 as [i Hi]. apply list_elem_of_lookup in H2 as [j Hj].
exists i, (length S + j). split; [|split].
- apply lookup_lt_Some in Hi. lia.
- by apply lookup_app_l_Some.
- rewrite lookup_app_r by lia. by replace (length S + j - length S) with j by lia.
Qed.

(** X11. A module added under a name that is an array index does not
  keep its place: whatever the order of the calls of [add],
  [complete()] puts its guide before the guide of [lifecycle] and
  before that of every module whose name is no array index. *)
Theorem index_named_module_first adds rs a name :
complete (build adds) = Some rs →
a ∈ adds → array_index (a_name a) ≠ None →
name = "lifecycle"%string ∨
  (∃ a', a' ∈ adds ∧ a_name a' = name ∧ array_index name = None) →
∃ i j ri rj, i < j ∧
  rs !! i = Some ri ∧ r_name ri = a_name a ∧
  rs !! j = Some rj ∧ r_name rj = name.
Proof.
intros Hc Ha Hidx Hname.
destruct (build_named adds) as (Hn & Hl & Hall).
pose proof (complete_names _ _ Hn Hc) as Hnames.
assert (Hk2 : name ∈ map fst (modGuides (build adds)) ∧ array_index name = None).
{ destruct Hname as [->|(a' & Ha' & <- & Hp)]; [|by auto].
  split; [done|]. vm_compute; reflexivity. }
destruct Hk2 as [Hk2 Hp2].
destruct (own_properties_order (modGuides (build adds)) (a_name a) name)
  as (i & j & Hlt & Hi & Hj); [by apply Hall|done|done|done|].
rewrite <- Hnames in Hi, Hj. rewrite list_lookup_fmap in Hi, Hj.
destruct (rs !! i) as [ri|] eqn:Hri; [|done].
destruct (rs !! j) as [rj|] eqn:Hrj; [|done].
simpl in Hi, Hj. exists i, j, ri, rj.
split; [done|]. split; [done|]. split; [congruence|]. split; [done|congruence].
Qed.

End BuilderProperties.

(** ** The module [lifecycle] of a built stack *)

(** X12. In a stack built by [modstack()] and calls of [add] that the
    types allow, none under an array index, the module [lifecycle] is
    initialized first and finalized last: no other module's
    [initialize()] is called before that of [lifecycle] was fulfilled
    with a truthy instance, and the [finalize()] of [lifecycle] is
    called, and its finalize callback at all, only once the
    finalization of every other module has settled. *)
Theorem lifecycle_first_and_last adds rs lc :
  typed ["lifecycle"%string] adds →
  Forall (λ a, Builder.array_index (Builder.a_name a) = None) adds →
  Builder.complete (Builder.build adds) = Some rs →
  reachable rs lc →
  ∃ g0, modGuides lc !! 0 = Some g0 ∧ g_name g0 = "lifecycle"%string ∧
    (∀ j gj, 0 < j → modGuides lc !! j = Some gj → init_called gj →
       ∃ v, g_initialize g0 = InitFulfilled v ∧ truthy v = true) ∧
    (fin_issued g0 ∨ 0 < calls ModFinalize 0 lc →
       ∀ j gj, 0 < j → modGuides lc !! j = Some gj → fin_settled gj).
Proof.
  intros Ht Hp Hc Hreach.
  destruct (build_complete adds Ht Hp) as (rs' & Hc' & wf & _ & H0 & _).
  assert (rs' = rs) as -> by congruence.
  pose proof (inv_reachable rs wf lc Hreach) as [Hg _].
  destruct (lookup_lt_is_Some_2 (modGuides lc) 0) as [g0 Hg0].
  { rewrite (inv_length rs lc Hg). by eapply lookup_lt_Some. }
  pose proof (inv_guides rs lc Hg 0 g0 Hg0) as Hok.
  pose proof (gk_static rs lc 0 g0 Hok) as Hs. rewrite H0 in Hs.
  inversion Hs as [[Hname Hmod Hdeps]].
  exists g0. split; [done|]. split; [done|]. split.
  - intros j gj Hj Hgj Hinit.
    destruct (gk_earlier rs lc j gj (inv_guides rs lc Hg j gj Hgj) Hinit 0 Hj)
      as (g0' & v & Hg0' & Hv & Htr).
    exists v. by simplify_eq.
  - intros Hiss. apply (gk_ordered rs lc 0 g0 Hok).
    + unfold is_ordered, Guide.getOptions. by rewrite <- Hmod.
    + destruct Hiss as [?|Hcalls]; [done|]. intros Hn.
      destruct (gk_fin_calls rs lc 0 g0 Hok) as [_ Hz]. rewrite Hz in Hcalls by auto. lia.
Qed.

Lemma sample_adds_typed :
  typed ["lifecycle"%string] sample_adds ∧
  Forall (λ a, Builder.array_index (Builder.a_name a) = None) sample_adds.
Proof.
  split.
  - simpl. apply (bool_decide_unpack _). vm_compute. exact I.
  - repeat constructor.
Qed.

Lemma built_stack_well_formed_witness :
  typed ["lifecycle"%string] sample_adds ∧
  ∃ rs, Builder.complete (Builder.build sample_adds) = Some rs ∧
        map r_name rs = ["lifecycle"; "a"; "b"]%string ∧ well_formed rs.
Proof.
  split; [apply sample_adds_typed|].
  destruct (built_stack_well_formed sample_adds) as (rs & Hc & Hwf & Hn & _).
  - simpl. apply (bool_decide_unpack _). vm_compute. exact I.
  - repeat constructor.
  - exists rs. split; [exact Hc|]. split; [exact Hn|exact Hwf].
Defined.

Lemma index_named_module_first_witness :
  ∃ rs, Builder.complete (Builder.build sample_index_adds) = Some rs ∧
    ∃ i j ri rj, i < j ∧ rs !! i = Some ri ∧ r_name ri = "0"%string ∧
      rs !! j = Some rj ∧ r_name rj = "lifecycle"%string.
Proof.
  eexists. split; [vm_compute; reflexivity|].
  apply (index_named_module_first sample_index_adds _
           {| Builder.a_name := "0"; Builder.a_mod := Sample.plainMod;
              Builder.a_depKeys := [] |}).
  - vm_compute; reflexivity.
  - right. left.
  - vm_compute. discriminate.
  - left. reflexivity.
Defined.

Lemma lifecycle_first_and_last_witness :
  reachable sample_built sample_built_starting ∧
  ∃ g0, modGuides sample_built_starting !! 0 = Some g0 ∧
        g_name g0 = "lifecycle"%string ∧
        ∃ v, g_initialize g0 = InitFulfilled v ∧ truthy v = true.
Proof.
  assert (Hr : reachable sample_built sample_built_starting).
  { exists [CallConfigure Sample.noEnv; CallStart None;
            SettleInitialize 0 Sample.instance; ResumeStart].
    vm_compute. reflexivity. }
  split; [exact Hr|].
  destruct (lifecycle_first_and_last sample_adds sample_built sample_built_starting)
    as (g0 & H0 & Hn & Hfirst & _).
  - simpl. apply (bool_decide_unpack _). vm_compute. exact I.
  - repeat constructor.
  - vm_compute; reflexivity.
  - exact Hr.
  - exists g0. split; [exact H0|]. split; [exact Hn|].
    apply (Hfirst 1 (Sample.guide 1 sample_built_starting)).
    + lia.
    + vm_compute; reflexivity.
    + vm_compute. discriminate.
Defined.

Section EnvProxyProperties.
Import EnvProxy.

(** ** The access log *)

Lemma run_length ops : ∀ st, length (run ops st).1 = length ops.
Proof.
induction ops as [|op ops IH]; intros st; simpl; [done|].
destruct (step op st) as [r st1]. specialize (IH st1).
destruct (run ops st1) as [rs st2]. simpl in *. by rewrite IH.
Qed.

Lemma step_frame op st :
target (step op st).2 = target st ∧
onLockedAccess (step op st).2 = onLockedAccess st ∧
(locked st = true → locked (step op st).2 = true) ∧
envAccessLog (step op st).2 =
  envAccessLog st ++ from_option (λ e, [e]) [] (entry (target st) (op, (step op st).1)).
Proof.
destruct op as [prop|prop|prop v|]; simpl.
- unfold get. destruct (checkLock (toString prop) st) as [[]|t]; simpl.
  + done.
  + by rewrite app_nil_r.
- unfold has. destruct (checkLock (toString prop) st) as [[]|t]; simpl.
  + done.
  + by rewrite app_nil_r.
- by rewrite app_nil_r.
- by rewrite app_nil_r.
Qed.

Lemma run_frame ops : ∀ st,
target (run ops st).2 = target st ∧
onLockedAccess (run ops st).2 = onLockedAccess st ∧
(locked st = true → locked (run ops st).2 = true) ∧
envAccessLog (run ops st).2 =
  envAccessLog st ++ omap (entry (target st)) (zip ops (run ops st).1).
Proof.
induction ops as [|op ops IH]; intros st; simpl.
- by rewrite app_nil_r.
- destruct (step_frame op st) as (Ht & Hh & Hl & Hlog).
  destruct (step op st) as [r st1]. simpl in *.
  destruct (IH st1) as (Ht' & Hh' & Hl' & Hlog').
  destruct (run ops st1) as [rs st2]. simpl in *.
  split; [congruence|]. split; [congruence|]. split; [by auto|].
  rewrite Hlog', Hlog, Ht, <- app_assoc. f_equal.
  generalize (zip ops rs). intros l. by destruct op, r.
Qed.

(** X13. The access log of a proxy is the record of the accesses that
  returned, in order: each read that returned left one entry with
  its key and, when the variable is an own property of the object,
  the value returned, and each check that returned one with its key
  and the answer; an access that threw, an assignment and [lock()]
  left none.  No operation changes the object.  For accesses by
  string keys every entry is true of the object: a present variable
  is an own property with the value logged, an absent one is none. *)
Theorem access_log_records envVars handler ops results st :
run ops (makeEnvProxy envVars handler) = (results, st) →
length results = length ops ∧
target st = envVars ∧
accessLog st = omap (entry envVars) (zip ops results) ∧
(Forall string_keyed ops → Forall (truthful envVars) (accessLog st)).
Proof.
intros Hrun.
pose proof (run_length ops (makeEnvProxy envVars handler)) as Hlen.
destruct (run_frame ops (makeEnvProxy envVars handler)) as (Ht & _ & _ & Hlog).
rewrite Hrun in *. simpl in *.
split; [done|]. split; [done|]. split; [done|].
intros Hs. unfold accessLog. rewrite Hlog. clear Hlog Ht.
assert (H : ∀ ops st0 results st, target st0 = envVars → Forall string_keyed ops →
  run ops st0 = (results, st) →
  Forall (truthful envVars) (omap (entry envVars) (zip ops results))).
{ clear. induction ops as [|op ops IH]; intros st0 results st Ht Hs Hrun; simpl in *.
  - inversion Hrun. constructor.
  - inversion Hs as [|? ? Hop Hops]; subst.
    destruct (step op st0) as [r st1] eqn:Hstep.
    destruct (run ops st1) as [rs st2] eqn:Hr. inversion Hrun; subst results st.
    assert (Ht1 : target st1 = target st0).
    { pose proof (step_frame op st0) as (? & _). by rewrite Hstep in *. }
    specialize (IH st1 rs st2 Ht1 Hops Hr). simpl.
    destruct op as [[s|]|[s|]|[s|] v|]; simpl in Hop; try done; simpl in Hstep;
      unfold get, has in Hstep;
      destruct (checkLock _ _) as [[]|t]; simplify_eq; simpl; try done;
      constructor; try done; simpl.
    destruct (hasOwn (target st0) (KString s)) eqn:E; simpl; by rewrite ?E. }
by apply (H ops (makeEnvProxy envVars handler) results st).
Qed.

(** ** The lock *)

Lemma checkLock_locked key st :
locked st = true → onLockedAccess st = None →
checkLock key st = Throws (unallowed key).
Proof. intros Hl Hh. unfold checkLock. by rewrite Hl, Hh. Qed.

Lemma run_locked ops : ∀ st results st',
locked st = true → onLockedAccess st = None →
run ops st = (results, st') →
envAccessLog st' = envAccessLog st ∧ Forall refused (zip ops results).
Proof.
induction ops as [|op ops IH]; intros st results st' Hl Hh Hrun; simpl in Hrun.
- inversion Hrun. split; [done|constructor].
- destruct (step op st) as [r st1] eqn:Hstep.
  destruct (run ops st1) as [rs st2] eqn:Hr. inversion Hrun; subst results st'.
  assert (H1 : locked st1 = true ∧ onLockedAccess st1 = None ∧
               envAccessLog st1 = envAccessLog st ∧ refused (op, r)).
  { destruct op as [prop|prop|prop v|]; simpl in Hstep;
      unfold get, has in Hstep;
      rewrite ?(checkLock_locked _ st Hl Hh) in Hstep; simplify_eq; simpl;
      by eauto. }
  destruct H1 as (Hl1 & Hh1 & Hlog1 & Href).
  destruct (IH st1 rs st2 Hl1 Hh1 Hr) as [Hlog2 Hrs].
  split; [congruence|]. simpl. by constructor.
Qed.

(** X14. Once [lock()] was called on a proxy made without
  [onLockedAccess], every read, check and assignment throws the error
  of the proxy, whatever was done before, and the access log stays as
  it was when [lock()] was called. *)
Theorem locked_proxy_refuses envVars before after results st :
run (before ++ OpLock :: after) (makeEnvProxy envVars None) = (results, st) →
accessLog st = accessLog (run before (makeEnvProxy envVars None)).2 ∧
Forall refused (zip after (drop (S (length before)) results)).
Proof.
intros Hrun.
assert (Happ : ∀ ops1 ops2 st0,
  run (ops1 ++ ops2) st0 =
  ((run ops1 st0).1 ++ (run ops2 (run ops1 st0).2).1, (run ops2 (run ops1 st0).2).2)).
{ induction ops1 as [|op ops1 IH]; intros ops2 st0; simpl.
  - by destruct (run ops2 st0).
  - destruct (step op st0) as [r st1]. rewrite IH.
    destruct (run ops1 st1) as [rs st2]. simpl.
    by destruct (run ops2 st2). }
rewrite Happ in Hrun. simpl in Hrun.
pose proof (run_length before (makeEnvProxy envVars None)) as Hlen.
destruct (run_frame before (makeEnvProxy envVars None)) as (_ & Hh & _).
destruct (run before (makeEnvProxy envVars None)) as [rs1 st1]. simpl in *.
destruct (run after (lock st1)) as [rs2 st2] eqn:Hafter. simpl in Hrun.
inversion Hrun; subst results st.
destruct (run_locked after (lock st1) rs2 st2) as [Hlog Href]; [done|done|done|].
split; [done|].
rewrite (cons_middle Done rs1 rs2), app_assoc.
rewrite drop_app_length'; [done|]. rewrite length_app. simpl. lia.
Qed.

End EnvProxyProperties.

Lemma access_log_records_witness :
  ∃ results st,
    EnvProxy.run sample_ops (EnvProxy.makeEnvProxy sample_env None) = (results, st) ∧
    EnvProxy.accessLog st =
      [EnvProxy.ReadPresent "PORT" (VStr "8080"); EnvProxy.Check "HOST" false].
Proof.
  eexists _, _. split; [vm_compute; reflexivity|].
  destruct (access_log_records sample_env None sample_ops
              (EnvProxy.run sample_ops (EnvProxy.makeEnvProxy sample_env None)).1
              (EnvProxy.run sample_ops (EnvProxy.makeEnvProxy sample_env None)).2)
    as (_ & _ & H & _).
  - vm_compute; reflexivity.
  - exact H.
Defined.

Lemma locked_proxy_refuses_witness :
  ∃ results st,
    EnvProxy.run ([EnvProxy.OpGet (EnvProxy.KString "PORT")] ++
                  EnvProxy.OpLock :: [EnvProxy.OpGet (EnvProxy.KString "PORT")])
      (EnvProxy.makeEnvProxy sample_env None) = (results, st) ∧
    EnvProxy.accessLog st = [EnvProxy.ReadPresent "PORT" (VStr "8080")].
Proof.
  eexists _, _. split; [vm_compute; reflexivity|].
  destruct (locked_proxy_refuses sample_env
              [EnvProxy.OpGet (EnvProxy.KString "PORT")]
              [EnvProxy.OpGet (EnvProxy.KString "PORT")]
              (EnvProxy.run ([EnvProxy.OpGet (EnvProxy.KString "PORT")] ++
                  EnvProxy.OpLock :: [EnvProxy.OpGet (EnvProxy.KString "PORT")])
                 (EnvProxy.makeEnvProxy sample_env None)).1
              (EnvProxy.run ([EnvProxy.OpGet (EnvProxy.KString "PORT")] ++
                  EnvProxy.OpLock :: [EnvProxy.OpGet (EnvProxy.KString "PORT")])
                 (EnvProxy.makeEnvProxy sample_env None)).2)
    as (H & _).
  - vm_compute; reflexivity.
  - exact H.
Defined.

